(** * A solver for the m,n,k game: the search core of board.c

    Shallow embedding of the win detector, the move enumerator, the tactical
    solver, the static evaluator, the alpha-beta search, the depth controller
    and the move-selection cascade, followed by the properties proved of them.
    Of the client around the core, the callback that loads a board from the
    atoms of a JSON document and the texts of the requests are embedded too.

    Conventions of the embedding.
    - [bloc_t] is [int_fast32_t] and [int] is 32 bits wide.  Coordinates and
      run counters are bounded by the size of the board (at most 15 by 15
      cells), so they are plain integers.  The [int] arithmetic that can
      overflow for some argument ([finalScore], [searched], [openNodes],
      [depth - 1]) goes through [to_int], the two's complement wrap-around.
    - A board is the function from (x, y) to the byte [b->board[x][y]].
    - Loops whose trip count is not fixed by their header (the do-while of
      [nextPosition], every [while(nextPosition(...))] loop and the recursion
      of [minimax]) carry a fuel; [None] is the answer of a run that used it
      up, and the totality lemmas show that it never happens on a board of
      positive dimensions.
    - In the loader [None] is a store outside [board[15][16]]. *)

From Stdlib Require Import ZArith List Bool Lia Sorted Permutation Ascii.
From Stdlib Require String DecimalString.
Import ListNotations.
Open Scope Z_scope.

(** ** Types and constants of board.h *)

Abbreviation player_t := Z (only parsing).
Definition PLAYER_NONE : player_t := 0.
Definition PLAYER_US : player_t := 1.
Definition PLAYER_THEM : player_t := 2.
Definition PLAYER_TIE : player_t := 4.

Definition EVAL_MAX : Z := 7230.
Definition EVAL_MIN : Z := -7230.
Definition EVAL_INF : Z := 10000.
Definition EVAL_N_INF : Z := -10000.

Definition MAX_MINIMAX_SEARCH_NODES : Z := 800000.

(** [b x y] is [b->board[x][y]]. *)
Definition board_t := Z -> Z -> Z.

(** The pair of out-parameters [*x], [*y]. *)
Abbreviation cursor := (Z * Z)%type (only parsing).

(** Conversion to a 32-bit [int]. *)
Definition to_int (z : Z) : Z := (z + 2147483648) mod 4294967296 - 2147483648.

(** [c & p] as a C truth value. *)
Definition owns (c : Z) (p : player_t) : bool := negb (Z.land c p =? 0).

(** The values [lo, lo+1, ..., hi-1] of a loop [for(i = lo; i < hi; i++)]. *)
Definition range (lo hi : Z) : list Z :=
  map (fun i => lo + Z.of_nat i) (seq 0 (Z.to_nat (hi - lo))).

(** [memcpy(dst, src, sizeof(board_t)); dst->board[x][y] = player;] *)
Definition copyWithMove (src : board_t) (player : player_t) (x y : Z) : board_t :=
  fun x' y' => if (x' =? x) && (y' =? y) then player else src x' y'.

(** A board given by its columns: [boardOf cols x y] is the [y]-th entry of
    the [x]-th list, and 0 (blank) outside. *)
Definition boardOf (cols : list (list Z)) : board_t :=
  fun x y =>
    if (x <? 0) || (y <? 0) then 0
    else nth (Z.to_nat y) (nth (Z.to_nat x) cols []) 0.

Definition emptyBoard : board_t := fun _ _ => 0.

(** Runs that used up their fuel answer [None]. *)
Notation "x <- c1 ;; c2" :=
  (match c1 with Some x => c2 | None => None end)
  (at level 61, c1 at next level, right associativity).
Notation "' p <- c1 ;; c2" :=
  (match c1 with Some p => c2 | None => None end)
  (at level 61, p pattern, c1 at next level, right associativity).

(** ** calculateDepth *)

Section DepthController.

(** The conversion applied when a result is stored into an [int]. *)
Variable cast : Z -> Z.

(** The [n] remaining rounds of [for(int i = 1; i < 20; i++)]. *)
Fixpoint calculateDepth_loop (n : nat) (i openNodes searched maxNodesSearched : Z) : Z :=
  match n with
  | O => 20
  | S n' =>
      if openNodes =? 0 then i - 1
      else if searched >=? maxNodesSearched then i - 1
      else
        let openNodes := cast (openNodes - 1) in
        let searched := cast (searched * openNodes) in
        calculateDepth_loop n' (i + 1) openNodes searched maxNodesSearched
  end.

Definition calculateDepth_gen (openNodes maxNodesSearched : Z) : Z :=
  calculateDepth_loop 19 1 openNodes openNodes maxNodesSearched.

(** The value of [searched] at the test of round k + 1, when no earlier
    round has returned. *)
Fixpoint searchedAt (k : nat) (openNodes searched : Z) : Z :=
  match k with
  | O => searched
  | S k' =>
      let openNodes := cast (openNodes - 1) in
      searchedAt k' openNodes (cast (searched * openNodes))
  end.

End DepthController.

(** [calculateDepth] with 32-bit ints. *)
Definition calculateDepth (openNodes maxNodesSearched : Z) : Z :=
  calculateDepth_gen to_int openNodes maxNodesSearched.

(** The same loop over the integers, without wrap-around. *)
Definition calculateDepth_ideal (openNodes maxNodesSearched : Z) : Z :=
  calculateDepth_gen (fun z => z) openNodes maxNodesSearched.

(** n (n - 1) ... (n - k): the nodes of a search of k + 1 plies over n
    blank cells. *)
Fixpoint fallingProduct (n : Z) (k : nat) : Z :=
  match k with
  | O => n
  | S k' => fallingProduct n k' * (n - Z.of_nat k)
  end.

(** The stages of the cascade of [main]. *)
Inductive stage : Type := ByBasicSolve | ByMinimax | ByHigestScore | ByBackUp.

(** ** The loader *)

(** [json_board_callback] of the client: the parser of the JSON library
    calls it once for every atom of the document. *)
Module Loader.

(** The globals [M], [N], [K], the statics [lastParam], [x], [y] of the
    callback, and the board behind its first argument. *)
Record state : Type := mkState {
  lastParam : Z; x : Z; y : Z; M : Z; N : Z; K : Z; board : board_t }.

(** The atoms by their [type].  [JSON_KEY data] carries the [length] bytes
    at [data]; [JSON_INT v] carries what [strtol(data, NULL, 10)] answers;
    [JSON_OTHER] is any type the [switch] has no case for. *)
Inductive atom : Type :=
| JSON_ARRAY_END
| JSON_KEY (data : list ascii)
| JSON_INT (v : Z)
| JSON_OBJECT_END
| JSON_NULL
| JSON_ARRAY_BEGIN
| JSON_OBJECT_BEGIN
| JSON_OTHER.

(** [!strncmp(data, lit, length)], [length] being the number of bytes of
    [data]; the end of the list [lit] is the NUL that ends the literal. *)
Fixpoint strncmp (data lit : list ascii) : bool :=
  match data with
  | [] => true
  | c1 :: data' =>
      match lit with
      | [] => Ascii.eqb c1 zero
      | c2 :: lit' =>
          if Ascii.eqb c1 c2 then (if Ascii.eqb c1 zero then true else strncmp data' lit')
          else false
      end
  end.

(** [board[x][y]] lies in [uint8_t board[15][16]]. *)
Definition inArray (x y : Z) : bool :=
  (0 <=? x) && (x <? 15) && (0 <=? y) && (y <? 16).

(** [((board_t* )board)->board[x][y] = v]; [None] is a store outside the
    array. *)
Definition store (st : state) (v : Z) : option state :=
  if inArray (x st) (y st)
  then Some (mkState (lastParam st) (x st) (y st) (M st) (N st) (K st)
                     (copyWithMove (board st) v (x st) (y st)))
  else None.

Definition json_board_callback (st : state) (a : atom) : option state :=
  match a with
  | JSON_ARRAY_END =>
      Some (mkState (lastParam st) (to_int (x st + 1)) 0 (M st) (N st) (K st) (board st))
  | JSON_KEY data =>
      let lastParam :=
        if strncmp data ["m"%char] then 0
        else if strncmp data ["n"%char] then 1
        else if strncmp data ["k"%char] then 2
        else if strncmp data ["b"; "o"; "a"; "r"; "d"]%char then 3
        else -1 in
      Some (mkState lastParam (x st) (y st) (M st) (N st) (K st) (board st))
  | JSON_INT v =>
      let st := if lastParam st =? 0
                then mkState (lastParam st) (x st) (y st) v (N st) (K st) (board st)
                else st in
      let st := if lastParam st =? 1
                then mkState (lastParam st) (x st) (y st) (M st) v (K st) (board st)
                else st in
      let st := if lastParam st =? 2
                then mkState (lastParam st) (x st) (y st) (M st) (N st) v (board st)
                else st in
      if lastParam st =? 3 then
        let cell := to_int v in
        st <- (if cell =? -1 then store st 0 else Some st) ;;
        st <- (if cell =? 0 then store st 1 else Some st) ;;
        st <- (if cell =? 1 then store st 2 else Some st) ;;
        Some (mkState (lastParam st) (x st) (to_int (y st + 1)) (M st) (N st) (K st)
                      (board st))
      else Some st
  | JSON_OBJECT_END =>
      Some (mkState (-1) 0 0 (M st) (N st) (K st) (board st))
  | JSON_NULL =>
      Some (mkState (lastParam st) (x st) (y st) (M st) (N st) (K st)
                    (copyWithMove (board st) 8 0 0))
  | JSON_ARRAY_BEGIN | JSON_OBJECT_BEGIN | JSON_OTHER => Some st
  end.

(** The calls of the parser for the atoms of a document, in order. *)
Fixpoint feed (st : state) (atoms : list atom) : option state :=
  match atoms with
  | [] => Some st
  | a :: rest => st' <- json_board_callback st a ;; feed st' rest
  end.

(** The atoms of an array of integers. *)
Definition arrayAtoms (col : list Z) : list atom :=
  JSON_ARRAY_BEGIN :: map JSON_INT col ++ [JSON_ARRAY_END].

(** The cells as the service sends them: -1 blank, 0 ours, 1 theirs. *)
Definition wire (v : Z) : Prop := v = -1 \/ v = 0 \/ v = 1.

(** The cell stored for a cell of the service. *)
Definition cellOf (v : Z) : Z := v + 1.


End Loader.

(** ** The requests of the client *)

(** The texts that [setName], [postMove] and [loadBoard] write with
    [sprintf], and the sizes they pass to [malloc] for them. *)
Module Client.

Import String DecimalString.
Local Open Scope string_scope.

(** The conversion [%li]. *)
Definition li (z : Z) : string := NilZero.string_of_int (Z.to_int z).

(** The bytes [sprintf] writes for a text: its characters and the NUL. *)
Definition written (s : string) : nat := length s + 1.

(** [sprintf(options, "key=%s&name=%s", key, name)] *)
Definition setName_options (name key : string) : string :=
  "key=" ++ key ++ "&name=" ++ name.

(** [malloc(strlen(name) + strlen(key) + 11)] *)
Definition setName_options_size (name key : string) : nat :=
  length name + length key + 11.

(** [sprintf(finalUrl, "%s/api/set_name", url)] *)
Definition setName_finalUrl (url : string) : string := url ++ "/api/set_name".

(** [malloc(strlen(url) + 14)] *)
Definition setName_finalUrl_size (url : string) : nat := length url + 14.

(** [sprintf(options, "key=%s&x=%li&y=%li", key, x, y)] *)
Definition postMove_options (key : string) (x y : Z) : string :=
  "key=" ++ key ++ "&x=" ++ li x ++ "&y=" ++ li y.

(** [malloc(strlen(key) + 15)] *)
Definition postMove_options_size (key : string) : nat := length key + 15.

(** [sprintf(finalUrl, "%s/api/move", url)] *)
Definition postMove_finalUrl (url : string) : string := url ++ "/api/move".

(** [malloc(strlen(url) + 10)] *)
Definition postMove_finalUrl_size (url : string) : nat := length url + 10.

(** [sprintf(finalUrl, "%s/api/board?key=%s", url, key)] *)
Definition loadBoard_finalUrl (url key : string) : string :=
  url ++ "/api/board?key=" ++ key.

(** [malloc(strlen(url) + strlen(key) + 16)] *)
Definition loadBoard_finalUrl_size (url key : string) : nat :=
  length url + length key + 16.

End Client.

(** ** Example boards *)

(** 2 wide, 3 high: our stones fill the column x = 1. *)
Definition tallBoard : board_t := boardOf [[0; 0; 0]; [1; 1; 1]].

(** 3 by 3: our stones on (0,0) and (1,1), theirs on (1,0) and (0,1). *)
Definition midgameBoard : board_t := boardOf [[1; 2; 0]; [2; 1; 0]; [0; 0; 0]].

(** 3 by 3: our only stone on (1,0). *)
Definition edgeBoard : board_t := boardOf [[0; 0; 0]; [1; 0; 0]; [0; 0; 0]].

(** 2 by 2, full, without a run of three. *)
Definition fullBoard : board_t := boardOf [[1; 2]; [2; 1]].

Section Game.

(** [bloc_t M, N, K;] the parameters of the board being solved. *)
Variables M N K : Z.

(** ** checkWin *)

(** [if(cell & p) count++; else count = 0;] *)
Definition bump (c : Z) (p : player_t) (count : Z) : Z :=
  if owns c p then count + 1 else 0.

(** The body of the inner loops of [checkWin], along the cells of one line. *)
Fixpoint scanLine (b : board_t) (cells : list cursor) (count1 count2 : Z)
  : option player_t :=
  match cells with
  | [] => None
  | (x, y) :: rest =>
      let count1 := bump (b x y) PLAYER_US count1 in
      let count2 := bump (b x y) PLAYER_THEM count2 in
      if count1 >=? K then Some PLAYER_US
      else if count2 >=? K then Some PLAYER_THEM
      else scanLine b rest count1 count2
  end.

(** The outer loops: both counters restart at 0 on every line. *)
Fixpoint scanLines (b : board_t) (lines : list (list cursor)) : option player_t :=
  match lines with
  | [] => None
  | line :: rest =>
      match scanLine b line 0 0 with
      | Some w => Some w
      | None => scanLines b rest
      end
  end.

(** The inner loop of the last family, which also records blank cells:
    [inl w] is [return w], [inr hasEmpty] the flag at the end of the line. *)
Fixpoint scanLineEmpty (b : board_t) (cells : list cursor) (numCont1 numCont2 : Z)
    (hasEmpty : Z) : player_t + Z :=
  match cells with
  | [] => inr hasEmpty
  | (x, y) :: rest =>
      let hasEmpty := if b x y =? 0 then 1 else hasEmpty in
      let numCont1 := bump (b x y) PLAYER_US numCont1 in
      let numCont2 := bump (b x y) PLAYER_THEM numCont2 in
      if numCont1 >=? K then inl PLAYER_US
      else if numCont2 >=? K then inl PLAYER_THEM
      else scanLineEmpty b rest numCont1 numCont2 hasEmpty
  end.

Fixpoint scanLinesEmpty (b : board_t) (lines : list (list cursor)) (hasEmpty : Z)
  : player_t + Z :=
  match lines with
  | [] => inr hasEmpty
  | line :: rest =>
      match scanLineEmpty b line 0 0 hasEmpty with
      | inl w => inl w
      | inr hasEmpty => scanLinesEmpty b rest hasEmpty
      end
  end.

(** The cells visited by the four loop nests, line by line, in loop order. *)
Definition rows : list (list cursor) :=
  map (fun y => map (fun x => (x, y)) (range 0 M)) (range 0 N).

Definition columns : list (list cursor) :=
  map (fun x => map (fun y => (x, y)) (range 0 N)) (range 0 M).

Definition diagsDownLeft : list (list cursor) :=
  map (fun i =>
         let j := if i <? M then 0 else i - M + 1 in
         let z := if i <? N then i + 1 else N in
         map (fun y => (i - y, y)) (range j z))
      (range 0 (M + N - 1)).

Definition diagsDownRight : list (list cursor) :=
  map (fun i =>
         let j := if i <? N then N - i - 1 else 0 in
         let z := if i <? M then N else M + N - i - 1 in
         map (fun y => (i + y - N + 1, y)) (range j z))
      (range 0 (M + N - 1)).

Definition checkWin (b : board_t) : player_t :=
  match scanLines b rows with
  | Some w => w
  | None =>
  match scanLines b columns with
  | Some w => w
  | None =>
  match scanLines b diagsDownLeft with
  | Some w => w
  | None =>
  match scanLinesEmpty b diagsDownRight 0 with
  | inl w => w
  | inr hasEmpty => if hasEmpty =? 0 then PLAYER_TIE else PLAYER_NONE
  end end end end.

(** The column loop of the prototype (second unnamed source file):
    [for(x = 0; x < N; x++) for(y = 0; y < M; y++)]. *)
Definition columns_proto : list (list cursor) :=
  map (fun x => map (fun y => (x, y)) (range 0 M)) (range 0 N).

(** [checkWin] of the prototype; the other three loop nests are those of
    board.c. *)
Definition checkWin_proto (b : board_t) : player_t :=
  match scanLines b rows with
  | Some w => w
  | None =>
  match scanLines b columns_proto with
  | Some w => w
  | None =>
  match scanLines b diagsDownLeft with
  | Some w => w
  | None =>
  match scanLinesEmpty b diagsDownRight 0 with
  | inl w => w
  | inr hasEmpty => if hasEmpty =? 0 then PLAYER_TIE else PLAYER_NONE
  end end end end.

(** ** nextPosition *)

(** Fuel of the loops over the cells of a board. *)
Definition scanFuel : nat := S (Z.to_nat (M * N)).

(** The do-while loop of [nextPosition]; [c] is the cursor on entry, which
    is handed back with [false] when the loop falls through. *)
Fixpoint nextPosition_loop (fuel : nat) (b : board_t) (c : cursor) (newx newy : Z)
  : option (bool * cursor) :=
  match fuel with
  | O => None
  | S fuel' =>
      if b newx newy =? PLAYER_NONE then Some (true, (newx, newy))
      else
        let newx := newx + 1 in
        let '(newx, newy) := if newx >=? M then (0, newy + 1) else (newx, newy) in
        if newy <? N then nextPosition_loop fuel' b c newx newy
        else Some (false, c)
  end.

(** [nextPosition b (x, y)] is [Some (true, c')] when the call returns 1
    and leaves [c'] in [*x], [*y], and [Some (false, (x, y))] when it returns
    0 (the cursor is then untouched). *)
Definition nextPosition (b : board_t) (c : cursor) : option (bool * cursor) :=
  let '(x, y) := c in
  if x =? -1 then nextPosition_loop scanFuel b c 0 0
  else
    let newx := x + 1 in
    if newx >=? M then
      let newy := y + 1 in
      if newy >=? N then Some (false, c)
      else nextPosition_loop scanFuel b c 0 newy
    else nextPosition_loop scanFuel b c newx y.

(** [while(nextPosition(b, x, y)) body] started with the cursor [c] and the
    loop-carried locals [s].  The body answers the new locals and whether it
    leaves the loop ([break] or [return]).  The result is the cursor and the
    locals at the exit, and whether the exit was taken by the body. *)
Fixpoint whileNext {S : Type} (fuel : nat) (b : board_t)
    (body : cursor -> S -> option (S * bool)) (c : cursor) (s : S)
  : option (cursor * S * bool) :=
  match fuel with
  | O => None
  | Datatypes.S fuel' =>
      match nextPosition b c with
      | None => None
      | Some (false, c') => Some (c', s, false)
      | Some (true, c') =>
          match body c' s with
          | None => None
          | Some (s', true) => Some (c', s', true)
          | Some (s', false) => whileNext fuel' b body c' s'
          end
      end
  end.

(** The successive answers of [nextPosition], as long as it returns 1. *)
Fixpoint enumerate (fuel : nat) (b : board_t) (c : cursor) : option (list cursor) :=
  match fuel with
  | O => None
  | S fuel' =>
      match nextPosition b c with
      | None => None
      | Some (false, _) => Some []
      | Some (true, c') => rest <- enumerate fuel' b c' ;; Some (c' :: rest)
      end
  end.

(** ** basicSolve *)

(** [*x = -1; while(nextPosition(b, x, y)) { if(test) return 1; }]
    The answer is the flag "returned 1" and the cursor at that point. *)
Definition searchMove (b : board_t) (test : cursor -> option bool) (y : Z)
  : option (bool * cursor) :=
  '(c, _, found) <- whileNext scanFuel b
      (fun c (_ : unit) => t <- test c ;; Some (tt, t)) (-1, y) tt ;;
  Some (found, c).

(** [sx = -1; winCount = 0; while(nextPosition(&s0, &sx, &sy)) {
      copyWithMove(&s1, &s0, player, sx, sy);
      if(checkWin(&s1) == player) winCount++; }]
    [sy] is not initialised in the source; [nextPosition] does not read it
    while [sx] is -1. *)
Definition countWins (s0 : board_t) (player : player_t) : option Z :=
  '(_, winCount, _) <- whileNext scanFuel s0
      (fun '(sx, sy) winCount =>
         let s1 := copyWithMove s0 player sx sy in
         Some (if checkWin s1 =? player then winCount + 1 else winCount, false))
      (-1, 0) 0 ;;
  Some winCount.

(** "win if we can" and "block win" *)
Definition winTest (b : board_t) (player : player_t) (c : cursor) : option bool :=
  let s0 := copyWithMove b player (fst c) (snd c) in
  Some (checkWin s0 =? player).

(** "fork if we can" (the third loop) *)
Definition forkTest (b : board_t) (c : cursor) : option bool :=
  let s0 := copyWithMove b PLAYER_US (fst c) (snd c) in
  winCount <- countWins s0 PLAYER_US ;;
  Some (winCount >=? 2).

(** "fork if we can (incl. third level forks)" (the fourth loop) *)
Definition forkTestThird (b : board_t) (c : cursor) : option bool :=
  let s0 := copyWithMove b PLAYER_US (fst c) (snd c) in
  winCount <- countWins s0 PLAYER_US ;;
  Some (winCount >=? 2).

(** The probe run when exactly one direct win was found: for every reply
    [replier] at (sx, sy), count the wins of [replier] one move later. *)
Definition thirdLevel (s0 : board_t) (replier : player_t) (winCount : Z) : option Z :=
  '(_, winCount, _) <- whileNext scanFuel s0
      (fun '(sx, sy) winCount =>
         let s1 := copyWithMove s0 replier sx sy in
         winCount2 <- countWins s1 replier ;;
         Some (if winCount2 >=? 2 then winCount + 1 else winCount, false))
      (-1, 0) winCount ;;
  Some winCount.

(** "block fork if we can" (fifth loop, replies by PLAYER_US) and
    "block fork if we can (and third level fork)" (sixth loop, replies by
    PLAYER_THEM). *)
Definition blockForkTest (b : board_t) (replier : player_t) (c : cursor) : option bool :=
  let s0 := copyWithMove b PLAYER_THEM (fst c) (snd c) in
  winCount <- countWins s0 PLAYER_THEM ;;
  winCount <- (if winCount =? 1 then thirdLevel s0 replier winCount else Some winCount) ;;
  Some (winCount >=? 2).

(** [basicSolve b y]: [y] is the caller's [*y] on entry; the answer is the
    returned int and the final [*x], [*y]. *)
Definition basicSolve (b : board_t) (y : Z) : option (Z * cursor) :=
  '(found, c) <- searchMove b (winTest b PLAYER_US) y ;;
  if found : bool then Some (1, c) else
  '(found, c) <- searchMove b (winTest b PLAYER_THEM) (snd c) ;;
  if found : bool then Some (1, c) else
  '(found, c) <- searchMove b (forkTest b) (snd c) ;;
  if found : bool then Some (1, c) else
  '(found, c) <- searchMove b (forkTestThird b) (snd c) ;;
  if found : bool then Some (1, c) else
  '(found, c) <- searchMove b (blockForkTest b PLAYER_US) (snd c) ;;
  if found : bool then Some (1, c) else
  '(found, c) <- searchMove b (blockForkTest b PLAYER_THEM) (snd c) ;;
  if found : bool then Some (1, c) else
  Some (0, c).

(** [basicSolve] with its fourth loop taken out, for comparison. *)
Definition basicSolve_without_fourth (b : board_t) (y : Z) : option (Z * cursor) :=
  '(found, c) <- searchMove b (winTest b PLAYER_US) y ;;
  if found : bool then Some (1, c) else
  '(found, c) <- searchMove b (winTest b PLAYER_THEM) (snd c) ;;
  if found : bool then Some (1, c) else
  '(found, c) <- searchMove b (forkTest b) (snd c) ;;
  if found : bool then Some (1, c) else
  '(found, c) <- searchMove b (blockForkTest b PLAYER_US) (snd c) ;;
  if found : bool then Some (1, c) else
  '(found, c) <- searchMove b (blockForkTest b PLAYER_THEM) (snd c) ;;
  if found : bool then Some (1, c) else
  Some (0, c).

(** ** basicSolve of the prototype *)

(** The four loops of [basicSolve] in the second unnamed source file; its
    [nextPosition] and [copyWithMove] are those of board.c, its [checkWin]
    is [checkWin_proto]. *)
Definition countWins_proto (s0 : board_t) (player : player_t) : option Z :=
  '(_, winCount, _) <- whileNext scanFuel s0
      (fun '(sx, sy) winCount =>
         let s1 := copyWithMove s0 player sx sy in
         Some (if checkWin_proto s1 =? player then winCount + 1 else winCount, false))
      (-1, 0) 0 ;;
  Some winCount.

(** "win if we can" and "block win" *)
Definition winTest_proto (b : board_t) (player : player_t) (c : cursor) : option bool :=
  let s0 := copyWithMove b player (fst c) (snd c) in
  Some (checkWin_proto s0 =? player).

(** "fork if we can" and "block fork if we can" *)
Definition forkTest_proto (b : board_t) (player : player_t) (c : cursor) : option bool :=
  let s0 := copyWithMove b player (fst c) (snd c) in
  winCount <- countWins_proto s0 player ;;
  Some (winCount >=? 2).

Definition basicSolve_proto (b : board_t) (y : Z) : option (Z * cursor) :=
  '(found, c) <- searchMove b (winTest_proto b PLAYER_US) y ;;
  if found : bool then Some (1, c) else
  '(found, c) <- searchMove b (winTest_proto b PLAYER_THEM) (snd c) ;;
  if found : bool then Some (1, c) else
  '(found, c) <- searchMove b (forkTest_proto b PLAYER_US) (snd c) ;;
  if found : bool then Some (1, c) else
  '(found, c) <- searchMove b (forkTest_proto b PLAYER_THEM) (snd c) ;;
  if found : bool then Some (1, c) else
  Some (0, c).

(** ** evaluateBoard *)

(** The counters declared by EVAL_COUNTERS_DECL. *)
Record counters : Type := mkCounters {
  runLen1 : Z; pieces1 : Z; runScore1 : Z;
  runLen2 : Z; pieces2 : Z; runScore2 : Z }.

Definition counters0 : counters := mkCounters 0 0 0 0 0 0.

Section Evaluator.

(** The conversion applied when a sum is stored into [int finalScore]. *)
Variable cast : Z -> Z.

(** EVAL_RUN_BODY on the cell value [c]. *)
Definition evalRunBody (c : Z) (st : counters) (finalScore : Z) : counters * Z :=
  if owns c PLAYER_US then
    let pieces1 := pieces1 st + 1 in
    let runScore1 := runScore1 st + (pieces1 + 1) in
    let runLen1 := runLen1 st + 1 in
    let finalScore :=
      if runLen2 st >=? K then cast (finalScore - runScore2 st) else finalScore in
    (mkCounters runLen1 pieces1 runScore1 0 0 0, finalScore)
  else if owns c PLAYER_THEM then
    let pieces2 := pieces2 st + 1 in
    let runScore2 := runScore2 st + (pieces2 + 1) in
    let runLen2 := runLen2 st + 1 in
    let finalScore :=
      if runLen1 st >=? K then cast (finalScore + runScore1 st) else finalScore in
    (mkCounters 0 0 0 runLen2 pieces2 runScore2, finalScore)
  else
    (mkCounters (runLen1 st + 1) (pieces1 st) (runScore1 st)
                (runLen2 st + 1) (pieces2 st) (runScore2 st), finalScore).

(** EVAL_END_RUN *)
Definition evalEndRun (st : counters) (finalScore : Z) : Z :=
  let finalScore :=
    if runLen2 st >=? K then cast (finalScore - runScore2 st) else finalScore in
  if runLen1 st >=? K then cast (finalScore + runScore1 st) else finalScore.

(** The inner loop over the cells of one line. *)
Fixpoint evalCells (b : board_t) (cells : list cursor) (st : counters) (finalScore : Z)
  : counters * Z :=
  match cells with
  | [] => (st, finalScore)
  | (x, y) :: rest =>
      let '(st, finalScore) := evalRunBody (b x y) st finalScore in
      evalCells b rest st finalScore
  end.

(** EVAL_COUNTERS_DECL, the inner loop, EVAL_END_RUN. *)
Definition evalLine (b : board_t) (finalScore : Z) (cells : list cursor) : Z :=
  let '(st, finalScore) := evalCells b cells counters0 finalScore in
  evalEndRun st finalScore.

Definition evalLines (b : board_t) (lines : list (list cursor)) (finalScore : Z) : Z :=
  fold_left (evalLine b) lines finalScore.

(** [(x >= (M/3) && x < (M - (M/3)) && y >= (N/3) && y < (N - (N/3))) ? 2 : 1] *)
Definition cellValue (x y : Z) : Z :=
  if (x >=? Z.quot M 3) && (x <? M - Z.quot M 3)
     && (y >=? Z.quot N 3) && (y <? N - Z.quot N 3) then 2 else 1.

(** The body of the first loop nest ("score piece location"). *)
Definition evalPiece (b : board_t) (finalScore : Z) (c : cursor) : Z :=
  let '(x, y) := c in
  let value := cellValue x y in
  if owns (b x y) PLAYER_US then cast (finalScore + value)
  else if owns (b x y) PLAYER_THEM then cast (finalScore - value)
  else finalScore.

(** The cells of the loop nest [for(x...) for(y...)]. *)
Definition cellsByColumn : list cursor :=
  flat_map (fun x => map (fun y => (x, y)) (range 0 N)) (range 0 M).

Definition evaluateBoard_gen (b : board_t) : Z :=
  let finalScore := 0 in
  let finalScore := fold_left (evalPiece b) cellsByColumn finalScore in
  let finalScore := evalLines b rows finalScore in
  let finalScore := evalLines b columns finalScore in
  let finalScore := evalLines b diagsDownLeft finalScore in
  let finalScore := evalLines b diagsDownRight finalScore in
  finalScore.

End Evaluator.

(** [evaluateBoard] with [finalScore] a 32-bit int. *)
Definition evaluateBoard (b : board_t) : Z := evaluateBoard_gen to_int b.

(** The same sums over the integers, without wrap-around. *)
Definition evaluateBoard_ideal (b : board_t) : Z := evaluateBoard_gen (fun z => z) b.

(** ** backUpMove, higestScoredMove, countEmpty *)

(** [*x = -1; return nextPosition(b, x, y);] *)
Definition backUpMove (b : board_t) (y : Z) : option (bool * cursor) :=
  nextPosition b (-1, y).

(** The loop-carried locals [maxScore], [max_x], [max_y]. *)
Definition higestScoredMove (b : board_t) (y : Z) : option (bool * cursor) :=
  '(_, (maxScore, max_x, max_y), _) <- whileNext scanFuel b
      (fun '(x, y) '(maxScore, max_x, max_y) =>
         let scratch := copyWithMove b PLAYER_US x y in
         let score := evaluateBoard scratch in
         Some (if score >? maxScore then (score, x, y) else (maxScore, max_x, max_y),
               false))
      (-1, y) (EVAL_N_INF, -1, -1) ;;
  Some (negb (max_x =? -1), (max_x, max_y)).

Definition countEmpty (b : board_t) : Z :=
  fold_left (fun res '(x, y) => if b x y =? PLAYER_NONE then res + 1 else res)
            cellsByColumn 0.

(** ** minimax *)

(** The locals [value], ([max_x], [max_y]) or ([min_x], [min_y]), and the
    parameter [alpha], which both branches assign to. *)
Record search : Type := mkSearch { value : Z; move : cursor; alpha : Z }.

(** The statements after the recursive call in the maximizing loop;
    the flag says whether [break] is taken. *)
Definition maxStep (beta nodeValue : Z) (c : cursor) (s : search) : search * bool :=
  let s := if nodeValue >? value s then mkSearch nodeValue c (alpha s) else s in
  let s := mkSearch (value s) (move s) (Z.max (alpha s) (value s)) in
  (s, alpha s >=? beta).

(** The statements after the recursive call in the minimizing loop. *)
Definition minStep (beta nodeValue : Z) (c : cursor) (s : search) : search * bool :=
  let s := if nodeValue <? value s then mkSearch nodeValue c (alpha s) else s in
  let s := mkSearch (value s) (move s) (Z.min (alpha s) (value s)) in
  (s, alpha s >=? beta).

(** [if(value < EVAL_MIN) value++;] *)
Definition ageLoss (value : Z) : Z :=
  if value <? EVAL_MIN then value + 1 else value.

(** The loop of the maximizing branch; [rec] is the recursive call.  The
    position handed to it is the scratch pair [sx], [sy], whose content is
    never read. *)
Definition maximizeLoop (rec : board_t -> Z -> Z -> Z -> Z -> option (Z * option cursor))
    (b : board_t) (depth a beta : Z) : option (cursor * search * bool) :=
  whileNext scanFuel b
    (fun c s =>
       let child := copyWithMove b PLAYER_US (fst c) (snd c) in
       '(nodeValue, _) <- rec child (to_int (depth - 1)) (alpha s) beta 0 ;;
       Some (maxStep beta nodeValue c s))
    (-1, 0) (mkSearch EVAL_N_INF (-1, -1) a).

(** The loop of the minimizing branch. *)
Definition minimizeLoop (rec : board_t -> Z -> Z -> Z -> Z -> option (Z * option cursor))
    (b : board_t) (depth a beta : Z) : option (cursor * search * bool) :=
  whileNext scanFuel b
    (fun c s =>
       let child := copyWithMove b PLAYER_THEM (fst c) (snd c) in
       '(nodeValue, _) <- rec child (to_int (depth - 1)) (alpha s) beta 1 ;;
       Some (minStep beta nodeValue c s))
    (-1, 0) (mkSearch EVAL_INF (-1, -1) a).

(** [minimax]: the answer is the returned score and, when the call wrote
    to [*x] and [*y], what it wrote. *)
Fixpoint minimax_rec (fuel : nat) (b : board_t) (depth a beta : Z)
    (isMaximizePlayer : Z) : option (Z * option cursor) :=
  match fuel with
  | O => None
  | S fuel' =>
      let winner := checkWin b in
      if winner =? PLAYER_US then Some (EVAL_INF, None)
      else if winner =? PLAYER_THEM then Some (EVAL_N_INF, None)
      else if winner =? PLAYER_TIE then Some (0, None)
      else if depth =? 0 then Some (evaluateBoard b, None)
      else if negb (isMaximizePlayer =? 0) then
        '(_, s, _) <- maximizeLoop (minimax_rec fuel') b depth a beta ;;
        Some (ageLoss (value s), Some (move s))
      else
        '(_, s, _) <- minimizeLoop (minimax_rec fuel') b depth a beta ;;
        Some (ageLoss (value s), Some (move s))
  end.

(** Every level of the recursion fills one cell. *)
Definition minimax (b : board_t) (depth a beta isMaximizePlayer : Z)
  : option (Z * option cursor) :=
  minimax_rec scanFuel b depth a beta isMaximizePlayer.

(** The search that visits every child of every node: [minimax] without the
    two [break] statements (and hence without a window). *)
Fixpoint minimax_full_rec (fuel : nat) (b : board_t) (depth : Z)
    (isMaximizePlayer : Z) : option (Z * option cursor) :=
  match fuel with
  | O => None
  | S fuel' =>
      let winner := checkWin b in
      if winner =? PLAYER_US then Some (EVAL_INF, None)
      else if winner =? PLAYER_THEM then Some (EVAL_N_INF, None)
      else if winner =? PLAYER_TIE then Some (0, None)
      else if depth =? 0 then Some (evaluateBoard b, None)
      else if negb (isMaximizePlayer =? 0) then
        '(_, (value, best), _) <- whileNext scanFuel b
            (fun c '(value, best) =>
               let child := copyWithMove b PLAYER_US (fst c) (snd c) in
               '(nodeValue, _) <- minimax_full_rec fuel' child (to_int (depth - 1)) 0 ;;
               Some (if nodeValue >? value then (nodeValue, c) else (value, best), false))
            (-1, 0) (EVAL_N_INF, (-1, -1)) ;;
        Some (ageLoss value, Some best)
      else
        '(_, (value, best), _) <- whileNext scanFuel b
            (fun c '(value, best) =>
               let child := copyWithMove b PLAYER_THEM (fst c) (snd c) in
               '(nodeValue, _) <- minimax_full_rec fuel' child (to_int (depth - 1)) 1 ;;
               Some (if nodeValue <? value then (nodeValue, c) else (value, best), false))
            (-1, 0) (EVAL_INF, (-1, -1)) ;;
        Some (ageLoss value, Some best)
  end.

Definition minimax_full (b : board_t) (depth isMaximizePlayer : Z)
  : option (Z * option cursor) :=
  minimax_full_rec scanFuel b depth isMaximizePlayer.

(** [minimaxMove b (x, y) depth]: the returned truth value and the final
    [*x], [*y]. *)
Definition minimaxMove (b : board_t) (c : cursor) (depth : Z) : option (bool * cursor) :=
  '(_, written) <- minimax b depth EVAL_N_INF EVAL_INF 1 ;;
  let c := match written with Some c' => c' | None => c end in
  Some (negb (fst c =? -1) && negb (snd c =? -1), c).

(** ** The cascade of main *)

(** One round of the loop of [main] on a loaded board.  [y] is the local
    [y] of [main] on entry ([x] is overwritten before it is read).  The
    answer is the move handed to [postMove] with the stage that found it,
    or [None] for "Giving Up". *)
Definition solveBoard (b : board_t) (y : Z) : option (option (stage * cursor)) :=
  '(r, c) <- basicSolve b y ;;
  if negb (r =? 0) then Some (Some (ByBasicSolve, c)) else
  let depth := calculateDepth (countEmpty b) MAX_MINIMAX_SEARCH_NODES in
  '(r, c) <- minimaxMove b c depth ;;
  if r : bool then Some (Some (ByMinimax, c)) else
  '(r, c) <- higestScoredMove b (snd c) ;;
  if r : bool then Some (Some (ByHigestScore, c)) else
  '(r, c) <- backUpMove b (snd c) ;;
  if r : bool then Some (Some (ByBackUp, c)) else
  Some None.

(** ** Vocabulary of the statements *)

(** The active region of the board. *)
Definition inRegion (x y : Z) : Prop := 0 <= x < M /\ 0 <= y < N.

(** The cell [c] carries a stone of [p] (its bit is set). *)
Definition stone (b : board_t) (p : player_t) (c : cursor) : Prop :=
  owns (b (fst c) (snd c)) p = true.

(** Every cell of the region holds one of the four values of board.h. *)
Definition validBoard (b : board_t) : Prop :=
  forall x y, inRegion x y ->
    b x y = PLAYER_NONE \/ b x y = PLAYER_US \/ b x y = PLAYER_THEM \/ b x y = PLAYER_TIE.

(** K stones of [p] in the region, from (x, y) in steps of (dx, dy). *)
Definition runFrom (b : board_t) (p : player_t) (x y dx dy : Z) : Prop :=
  forall t, 0 <= t < K ->
    inRegion (x + t * dx) (y + t * dy) /\ stone b p (x + t * dx, y + t * dy).

(** K consecutive stones of [p] along a row, a column or a diagonal of
    either family. *)
Definition hasRun (b : board_t) (p : player_t) : Prop :=
  exists x y,
    runFrom b p x y 1 0 \/ runFrom b p x y 0 1 \/
    runFrom b p x y (-1) 1 \/ runFrom b p x y 1 1.

(** The lines in the order in which [checkWin] scans them. *)
Definition scanOrder : list (list cursor) :=
  rows ++ columns ++ diagsDownLeft ++ diagsDownRight.

(** The K cells of [line] that end at index [i] are stones of [p]. *)
Definition runEndsAt (b : board_t) (p : player_t) (line : list cursor) (i : nat) : Prop :=
  exists pre run post,
    line = pre ++ run ++ post /\ Z.of_nat (length run) = K /\
    length (pre ++ run) = S i /\ Forall (stone b p) run.

(** [p] completes a run at cell [i] of the [l]-th scanned line. *)
Definition completesAt (b : board_t) (p : player_t) (l i : nat) : Prop :=
  exists line, nth_error scanOrder l = Some line /\ runEndsAt b p line i.

(** Scan order on the cells of the lines. *)
Definition earlier (l' i' l i : nat) : Prop :=
  (l' < l)%nat \/ (l' = l /\ (i' < i)%nat).

(** The number of stones of [p] at the head of [cells] (the cells scanned
    so far, last one first). *)
Fixpoint streak (b : board_t) (p : player_t) (cells : list cursor) : Z :=
  match cells with
  | [] => 0
  | (x, y) :: rest => if owns (b x y) p then streak b p rest + 1 else 0
  end.

(** The cells of the region in the order of [nextPosition]: x runs fastest. *)
Definition scanCells : list cursor :=
  flat_map (fun y => map (fun x => (x, y)) (range 0 M)) (range 0 N).

(** Scan order on cells: first by y, then by x. *)
Definition scanBefore (c c' : cursor) : Prop :=
  snd c < snd c' \/ (snd c = snd c' /\ fst c < fst c').

Definition isEmpty (b : board_t) (c : cursor) : bool :=
  b (fst c) (snd c) =? PLAYER_NONE.

(** The blank cells of the region, in scan order. *)
Definition emptyCells (b : board_t) : list cursor := filter (isEmpty b) scanCells.

(** The cells that follow (x, y) in scan order. *)
Definition cellsAfter (x y : Z) : list cursor :=
  map (fun x' => (x', y)) (range (x + 1) M) ++
  flat_map (fun y' => map (fun x' => (x', y')) (range 0 M)) (range (y + 1) N).

(** The blank cells still to come for a cursor. *)
Definition pending (b : board_t) (c : cursor) : list cursor :=
  if fst c =? -1 then emptyCells b else filter (isEmpty b) (cellsAfter (fst c) (snd c)).

(** A cursor is the sentinel or a cell of the region. *)
Definition goodCursor (c : cursor) : Prop := fst c = -1 \/ inRegion (fst c) (snd c).

(** All the answers of [nextPosition] from the sentinel. *)
Definition allPositions (b : board_t) (y : Z) : option (list cursor) :=
  enumerate scanFuel b (-1, y).

(** A [while(nextPosition(...))] loop run over a given list of cells. *)
Fixpoint foldCells {S : Type} (body : cursor -> S -> option (S * bool))
    (cells : list cursor) (c : cursor) (s : S) : option (cursor * S * bool) :=
  match cells with
  | [] => Some (c, s, false)
  | c' :: rest =>
      match body c' s with
      | None => None
      | Some (s', true) => Some (c', s', true)
      | Some (s', false) => foldCells body rest c' s'
      end
  end.

(** The board with the stones of the two players exchanged. *)
Definition swapPlayers (b : board_t) : board_t :=
  fun x y =>
    if b x y =? PLAYER_US then PLAYER_THEM
    else if b x y =? PLAYER_THEM then PLAYER_US
    else b x y.

(** The counters of the two players exchanged. *)
Definition swapCounters (st : counters) : counters :=
  mkCounters (runLen2 st) (pieces2 st) (runScore2 st)
             (runLen1 st) (pieces1 st) (runScore1 st).

(** Twice the score of a run of n stones: 2 * (2 + 3 + ... + (n + 1)). *)
Definition runWeight (n : Z) : Z := n * (n + 3).

(** What holds of the counters after [n] cells of a line, [acc] being what
    the line has added to [finalScore] so far. *)
Definition runInv (n : Z) (st : counters) (acc : Z) : Prop :=
  0 <= pieces1 st <= n /\ 0 <= pieces2 st <= n /\
  2 * runScore1 st = runWeight (pieces1 st) /\
  2 * runScore2 st = runWeight (pieces2 st) /\
  - runWeight (n - pieces2 st) <= 2 * acc <= runWeight (n - pieces1 st).

(** Twice the largest score the lines can add. *)
Definition lineBound (lines : list (list cursor)) : Z :=
  fold_right (fun line acc => runWeight (Z.of_nat (length line)) + acc) 0 lines.

(** The largest score the first loop nest can add. *)
Definition pieceBound (cells : list cursor) : Z :=
  fold_right (fun c acc => cellValue (fst c) (snd c) + acc) 0 cells.

(** Twice the largest magnitude of the evaluation. *)
Definition evalBound : Z := 2 * pieceBound cellsByColumn + lineBound scanOrder.

(** The stage [st] of the cascade found [c] after every stage before it
    had answered "no move". *)
Definition triedInOrder (b : board_t) (y : Z) (st : stage) (c : cursor) : Prop :=
  let depth := calculateDepth (countEmpty b) MAX_MINIMAX_SEARCH_NODES in
  match st with
  | ByBasicSolve => basicSolve b y = Some (1, c)
  | ByMinimax =>
      exists c0, basicSolve b y = Some (0, c0) /\
                 minimaxMove b c0 depth = Some (true, c)
  | ByHigestScore =>
      exists c0 c1, basicSolve b y = Some (0, c0) /\
                    minimaxMove b c0 depth = Some (false, c1) /\
                    higestScoredMove b (snd c1) = Some (true, c)
  | ByBackUp =>
      exists c0 c1 c2, basicSolve b y = Some (0, c0) /\
                       minimaxMove b c0 depth = Some (false, c1) /\
                       higestScoredMove b (snd c1) = Some (false, c2) /\
                       backUpMove b (snd c2) = Some (true, c)
  end.

(** A stone of [p] at [c] makes [checkWin] answer [p]. *)
Definition winsAt (b : board_t) (p : player_t) (c : cursor) : bool :=
  checkWin (copyWithMove b p (fst c) (snd c)) =? p.

(** The number of blank cells at which [p] wins at once. *)
Definition winCount (b : board_t) (p : player_t) : Z :=
  Z.of_nat (length (filter (winsAt b p) (emptyCells b))).

(** A stone of [p] at [c] leaves [p] at least two winning cells. *)
Definition forksAt (b : board_t) (p : player_t) (c : cursor) : bool :=
  winCount (copyWithMove b p (fst c) (snd c)) p >=? 2.

(** The test of the last two loops of [basicSolve] at [c]. *)
Definition blockForkAt (b : board_t) (replier : player_t) (c : cursor) : bool :=
  let s0 := copyWithMove b PLAYER_THEM (fst c) (snd c) in
  let n := winCount s0 PLAYER_THEM in
  (if n =? 1
   then n + Z.of_nat (length (filter (forksAt s0 replier) (emptyCells s0)))
   else n) >=? 2.

(** The tests of the six loops of [basicSolve], in the order of the code. *)
Definition tiers (b : board_t) : list (cursor -> bool) :=
  [winsAt b PLAYER_US; winsAt b PLAYER_THEM;
   forksAt b PLAYER_US; forksAt b PLAYER_US;
   blockForkAt b PLAYER_US; blockForkAt b PLAYER_THEM].

(** The first cell accepted by the first test that accepts one. *)
Fixpoint firstFound (tests : list (cursor -> bool)) (cells : list cursor) : option cursor :=
  match tests with
  | [] => None
  | t :: rest =>
      match find t cells with
      | Some c => Some c
      | None => firstFound rest cells
      end
  end.

(** [c] is the first blank cell in scan order that passes [t]. *)
Definition firstBlank (b : board_t) (t : cursor -> bool) (c : cursor) : Prop :=
  In c (emptyCells b) /\ t c = true /\
  forall c', In c' (emptyCells b) -> scanBefore c' c -> t c' = false.

(** No blank cell passes [t]. *)
Definition noBlank (b : board_t) (t : cursor -> bool) : Prop :=
  forall c, In c (emptyCells b) -> t c = false.

(** The evaluation of the board after our stone at [c]. *)
Definition moveScore (b : board_t) (c : cursor) : Z :=
  evaluateBoard (copyWithMove b PLAYER_US (fst c) (snd c)).

(** The score after the first loop nest of [evaluateBoard] ("score piece
    location"). *)
Definition pieceScore (b : board_t) : Z :=
  fold_left (evalPiece to_int b) cellsByColumn 0.

(** The number of cells of the region that carry a stone of [p]. *)
Definition stoneCount (b : board_t) (p : player_t) : Z :=
  Z.of_nat (length (filter (fun c => owns (b (fst c) (snd c)) p) scanCells)).

(** * Properties *)

(** ** Loop ranges *)

Lemma range_nil lo hi : hi <= lo -> range lo hi = [].
Proof.
  intros H. unfold range. replace (Z.to_nat (hi - lo)) with 0%nat by lia. reflexivity.
Qed.

Lemma range_cons lo hi : lo < hi -> range lo hi = lo :: range (lo + 1) hi.
Proof.
  intros H. unfold range.
  replace (Z.to_nat (hi - lo)) with (S (Z.to_nat (hi - (lo + 1)))) by lia.
  cbn [seq map]. f_equal; [lia|].
  rewrite <- seq_shift, map_map. apply map_ext. intros; lia.
Qed.

Lemma range_app lo mid hi :
  lo <= mid <= hi -> range lo hi = range lo mid ++ range mid hi.
Proof.
  remember (Z.to_nat (mid - lo)) as n eqn:Hn. revert lo Hn.
  induction n as [|n IH]; intros lo Hn H.
  - replace mid with lo by lia. now rewrite (range_nil lo lo) by lia.
  - rewrite (range_cons lo hi), (range_cons lo mid) by lia.
    cbn [app]. f_equal. apply IH; lia.
Qed.

Lemma in_range lo hi i : In i (range lo hi) <-> lo <= i < hi.
Proof.
  unfold range. rewrite in_map_iff. split.
  - intros (n & <- & Hn). apply in_seq in Hn. lia.
  - intros H. exists (Z.to_nat (i - lo)). split; [lia|]. apply in_seq. lia.
Qed.

Lemma range_length lo hi : length (range lo hi) = Z.to_nat (hi - lo).
Proof. unfold range. now rewrite length_map, length_seq. Qed.

Lemma NoDup_range lo hi : NoDup (range lo hi).
Proof.
  remember (Z.to_nat (hi - lo)) as n eqn:Hn. revert lo Hn.
  induction n as [|n IH]; intros lo Hn.
  - rewrite range_nil by lia. constructor.
  - rewrite range_cons by lia. constructor.
    + rewrite in_range. lia.
    + apply IH. lia.
Qed.

(** Two splits of a list at the same position are the same split. *)
Lemma app_split_at {A} (xs us ys vs : list A) :
  length xs = length us -> xs ++ ys = us ++ vs -> xs = us /\ ys = vs.
Proof.
  revert us. induction xs as [|a xs IH]; intros [|a' us] Hlen H;
    cbn [length] in Hlen; try discriminate.
  - now split.
  - cbn [app] in H. injection H as -> H.
    destruct (IH us ltac:(lia) H) as [-> ->]. now split.
Qed.

(** A window of a mapped range is the image of a sub-range. *)
Lemma map_range_split {A} (f : Z -> A) lo hi pre run post :
  map f (range lo hi) = pre ++ run ++ post ->
  let a := lo + Z.of_nat (length pre) in
  let e := a + Z.of_nat (length run) in
  lo <= a /\ e <= Z.max lo hi /\
  pre = map f (range lo a) /\ run = map f (range a e) /\ post = map f (range e hi).
Proof.
  intros H a e.
  assert (Hlen : Z.to_nat (hi - lo) = (length pre + (length run + length post))%nat).
  { rewrite <- range_length, <- (length_map f), H, !length_app. reflexivity. }
  assert (Ha : lo <= a <= e /\ e <= Z.max lo hi) by lia.
  assert (He : hi <= lo \/ e <= hi) by lia.
  split; [lia|]. split; [lia|].
  destruct He as [He | He].
  - assert (length pre = 0%nat /\ length run = 0%nat /\ length post = 0%nat)
      as (Hp & Hr & Hq) by lia.
    apply length_zero_iff_nil in Hp, Hr, Hq. subst pre run post.
    cbn [length] in *.
    now rewrite (range_nil lo a), (range_nil a e), (range_nil e hi) by lia.
  - rewrite (range_app lo a hi), (range_app a e hi), !map_app in H by lia.
    apply app_split_at in H as [Hp H];
      [|rewrite length_map, range_length; lia].
    apply app_split_at in H as [Hr Hq];
      [|rewrite length_map, range_length; lia].
    now repeat split.
Qed.

(** ** checkWin: the counters are streaks *)

Lemma streak_nonneg b p l : 0 <= streak b p l.
Proof.
  induction l as [|[x y] l IH]; cbn [streak]; [lia|].
  destruct (owns (b x y) p); lia.
Qed.

Lemma bump_streak b p x y l :
  bump (b x y) p (streak b p l) = streak b p ((x, y) :: l).
Proof. reflexivity. Qed.

Lemma streak_ge_iff b p (k : nat) l :
  Z.of_nat k <= streak b p l <->
  (k <= length l)%nat /\ Forall (stone b p) (firstn k l).
Proof.
  revert l. induction k as [|k IH]; intros l.
  - cbn [firstn]. pose proof (streak_nonneg b p l).
    split; [intros _; split; [lia | constructor] | intros _; cbn; lia].
  - destruct l as [|[x y] l]; cbn [streak firstn length].
    + split; [lia | intros [H _]; lia].
    + specialize (IH l). destruct (owns (b x y) p) eqn:E.
      * split.
        -- intros H. assert (H' : Z.of_nat k <= streak b p l) by lia.
           apply IH in H' as [H1 H2]. split; [lia|].
           constructor; [exact E | exact H2].
        -- intros [H1 H2]. inversion H2; subst.
           assert (Z.of_nat k <= streak b p l) by (apply IH; split; [lia|assumption]).
           lia.
      * split; [lia|]. intros [_ H2]. inversion H2; subst.
        unfold stone in H1. cbn [fst snd] in H1. congruence.
Qed.

(** A run ends at cell [i] exactly when the streak there has reached K. *)
Lemma runEndsAt_streak b p line i :
  0 <= K ->
  runEndsAt b p line i <->
  (i < length line)%nat /\ K <= streak b p (rev (firstn (S i) line)).
Proof.
  intros HK. split.
  - intros (pre & run & post & Hl & Hk & Hi & Hrun).
    assert (Hf : firstn (S i) line = pre ++ run).
    { rewrite Hl, app_assoc, <- Hi.
      replace (length (pre ++ run)) with (length (pre ++ run) + 0)%nat by lia.
      rewrite firstn_app_2. cbn [firstn]. now rewrite app_nil_r. }
    split.
    + rewrite Hl, app_assoc, length_app. lia.
    + rewrite Hf, rev_app_distr, <- Hk. apply streak_ge_iff. split.
      * rewrite length_app, length_rev. lia.
      * replace (length run) with (length (rev run) + 0)%nat
          by (rewrite length_rev; lia).
        rewrite firstn_app_2. cbn [firstn]. rewrite app_nil_r.
        now apply Forall_rev.
  - intros [Hi Hs].
    set (k := Z.to_nat K). set (P := firstn (S i) line) in *.
    assert (HP : length P = S i) by (unfold P; rewrite length_firstn; lia).
    replace K with (Z.of_nat k) in Hs by (unfold k; lia).
    apply streak_ge_iff in Hs as [Hk Hall].
    rewrite length_rev, HP in Hk.
    rewrite firstn_rev, HP in Hall.
    apply Forall_rev in Hall. rewrite rev_involutive in Hall.
    exists (firstn (S i - k) P), (skipn (S i - k) P), (skipn (S i) line).
    rewrite app_assoc, !firstn_skipn. repeat split.
    + unfold P. now rewrite firstn_skipn.
    + rewrite length_skipn, HP. unfold k. lia.
    + exact HP.
    + exact Hall.
Qed.

(** What the inner loop answers, in terms of the streaks of the cells
    scanned so far ([seen], last one first). *)
Lemma scanLine_streaks b cells : forall seen,
  streak b PLAYER_US seen < K -> streak b PLAYER_THEM seen < K ->
  match scanLine b cells (streak b PLAYER_US seen) (streak b PLAYER_THEM seen) with
  | None =>
      forall n, (n < length cells)%nat ->
        streak b PLAYER_US (rev (firstn (S n) cells) ++ seen) < K /\
        streak b PLAYER_THEM (rev (firstn (S n) cells) ++ seen) < K
  | Some w =>
      exists n, (n < length cells)%nat /\
        (forall n', (n' < n)%nat ->
           streak b PLAYER_US (rev (firstn (S n') cells) ++ seen) < K /\
           streak b PLAYER_THEM (rev (firstn (S n') cells) ++ seen) < K) /\
        ((w = PLAYER_US /\ K <= streak b PLAYER_US (rev (firstn (S n) cells) ++ seen)) \/
         (w = PLAYER_THEM /\
          streak b PLAYER_US (rev (firstn (S n) cells) ++ seen) < K /\
          K <= streak b PLAYER_THEM (rev (firstn (S n) cells) ++ seen)))
  end.
Proof.
  induction cells as [|[x y] rest IH]; intros seen H1 H2.
  - cbn [scanLine length]. intros n Hn. lia.
  - cbn [scanLine]. rewrite !bump_streak.
    rewrite !Z.geb_leb.
    destruct (K <=? streak b PLAYER_US ((x, y) :: seen)) eqn:E1.
    { exists 0%nat. cbn [length firstn rev app]. split; [lia|]. split; [intros; lia|].
      left. split; [reflexivity | lia]. }
    destruct (K <=? streak b PLAYER_THEM ((x, y) :: seen)) eqn:E2.
    { exists 0%nat. cbn [length firstn rev app]. split; [lia|]. split; [intros; lia|].
      right. split; [reflexivity | lia]. }
    specialize (IH ((x, y) :: seen) ltac:(lia) ltac:(lia)).
    assert (Hshift : forall n, rev (firstn (S (S n)) ((x, y) :: rest)) ++ seen
                         = rev (firstn (S n) rest) ++ (x, y) :: seen).
    { intros n. cbn [firstn rev]. now rewrite <- app_assoc. }
    destruct (scanLine b rest _ _) as [w|].
    + destruct IH as (n & Hn & Hbefore & Hat).
      exists (S n). cbn [length]. split; [lia|]. split.
      * intros [|n'] Hn'.
        -- cbn [firstn rev app]. lia.
        -- rewrite Hshift. apply Hbefore. lia.
      * rewrite Hshift. exact Hat.
    + intros [|n] Hn.
      * cbn [firstn rev app]. lia.
      * rewrite Hshift. apply IH. cbn [length] in Hn. lia.
Qed.

(** Neither player completes a run at cell [i] of [line]. *)
Local Abbreviation quiet b line i :=
  (~ runEndsAt b PLAYER_US line i /\ ~ runEndsAt b PLAYER_THEM line i).

Lemma scanLine_spec b line :
  1 <= K ->
  match scanLine b line 0 0 with
  | None => forall i, quiet b line i
  | Some w =>
      exists i, (forall i', (i' < i)%nat -> quiet b line i') /\
        ((w = PLAYER_US /\ runEndsAt b PLAYER_US line i) \/
         (w = PLAYER_THEM /\ ~ runEndsAt b PLAYER_US line i /\
          runEndsAt b PLAYER_THEM line i))
  end.
Proof.
  intros HK.
  pose proof (scanLine_streaks b line [] ltac:(cbn; lia) ltac:(cbn; lia)) as H.
  cbn [streak] in H.
  destruct (scanLine b line 0 0) as [w|].
  - destruct H as (n & Hn & Hbefore & Hat). exists n. split.
    + intros i' Hi'. specialize (Hbefore i' Hi'). rewrite !app_nil_r in Hbefore.
      rewrite !runEndsAt_streak by lia. split; intros [_ ?]; lia.
    + rewrite !app_nil_r in Hat. rewrite !runEndsAt_streak by lia.
      destruct Hat as [[-> H1] | (-> & H1 & H2)]; [left | right]; repeat split; trivial.
      intros [_ ?]; lia.
  - intros i. rewrite !runEndsAt_streak by lia.
    destruct (Nat.lt_ge_cases i (length line)) as [Hi | Hi].
    + specialize (H i Hi). rewrite !app_nil_r in H. split; intros [_ ?]; lia.
    + split; intros [? _]; lia.
Qed.

Lemma scanLines_spec b lines :
  1 <= K ->
  match scanLines b lines with
  | None => forall l line i, nth_error lines l = Some line -> quiet b line i
  | Some w =>
      exists l line i, nth_error lines l = Some line /\
        (forall l' line' i', earlier l' i' l i ->
           nth_error lines l' = Some line' -> quiet b line' i') /\
        ((w = PLAYER_US /\ runEndsAt b PLAYER_US line i) \/
         (w = PLAYER_THEM /\ ~ runEndsAt b PLAYER_US line i /\
          runEndsAt b PLAYER_THEM line i))
  end.
Proof.
  intros HK. induction lines as [|line rest IH]; cbn [scanLines].
  - intros [|l] line i Hl; discriminate Hl.
  - pose proof (scanLine_spec b line HK) as Hline.
    destruct (scanLine b line 0 0) as [w|].
    + destruct Hline as (i & Hbefore & Hat).
      exists 0%nat, line, i. split; [reflexivity|]. split; [|exact Hat].
      intros l' line' i' [Hlt | [-> Hlt]] Hl'; [lia|].
      cbn in Hl'. injection Hl' as <-. now apply Hbefore.
    + destruct (scanLines b rest) as [w|].
      * destruct IH as (l & line0 & i & Hl & Hbefore & Hat).
        exists (S l), line0, i. split; [exact Hl|]. split; [|exact Hat].
        intros [|l'] line' i' Hearlier Hl'.
        -- cbn in Hl'. injection Hl' as <-. apply Hline.
        -- cbn in Hl'. apply (Hbefore l' line' i'); [|exact Hl'].
           destruct Hearlier as [? | [? ?]]; [left | right]; lia.
      * intros [|l] line0 i Hl; cbn in Hl.
        -- injection Hl as <-. apply Hline.
        -- now apply (IH l).
Qed.

Lemma scanLines_app b l1 l2 :
  scanLines b (l1 ++ l2) =
  match scanLines b l1 with Some w => Some w | None => scanLines b l2 end.
Proof.
  induction l1 as [|line l1 IH]; cbn [scanLines app]; [reflexivity|].
  destruct (scanLine b line 0 0); [reflexivity | exact IH].
Qed.

(** The last loop nest answers like the others and, in addition, sets
    [hasEmpty] when one of its cells is blank. *)
Lemma scanLineEmpty_scanLine b cells : forall c1 c2 h,
  scanLineEmpty b cells c1 c2 h =
  match scanLine b cells c1 c2 with
  | Some w => inl w
  | None => inr (if existsb (fun c => b (fst c) (snd c) =? 0) cells then 1 else h)
  end.
Proof.
  induction cells as [|[x y] rest IH]; intros c1 c2 h; cbn [scanLineEmpty scanLine existsb];
    [reflexivity|].
  destruct (bump (b x y) PLAYER_US c1 >=? K); [reflexivity|].
  destruct (bump (b x y) PLAYER_THEM c2 >=? K); [reflexivity|].
  rewrite IH. cbn [fst snd].
  destruct (scanLine b rest _ _); [reflexivity|].
  destruct (b x y =? 0); cbn [orb]; [|reflexivity].
  now destruct (existsb _ rest).
Qed.

Lemma scanLinesEmpty_scanLines b lines : forall h,
  scanLinesEmpty b lines h =
  match scanLines b lines with
  | Some w => inl w
  | None => inr (if existsb (fun c => b (fst c) (snd c) =? 0) (concat lines) then 1 else h)
  end.
Proof.
  induction lines as [|line rest IH]; intros h; cbn [scanLinesEmpty scanLines concat];
    [reflexivity|].
  rewrite scanLineEmpty_scanLine.
  destruct (scanLine b line 0 0); [reflexivity|].
  rewrite IH, existsb_app.
  destruct (scanLines b rest); [reflexivity|].
  destruct (existsb _ line); cbn [orb]; [|reflexivity].
  now destruct (existsb _ (concat rest)).
Qed.

(** [checkWin] scans the lines of [scanOrder] one after the other. *)
Lemma checkWin_scanOrder b :
  checkWin b =
  match scanLines b scanOrder with
  | Some w => w
  | None =>
      if existsb (fun c => b (fst c) (snd c) =? 0) (concat diagsDownRight)
      then PLAYER_NONE else PLAYER_TIE
  end.
Proof.
  unfold checkWin, scanOrder. rewrite !scanLines_app, scanLinesEmpty_scanLines.
  destruct (scanLines b rows); [reflexivity|].
  destruct (scanLines b columns); [reflexivity|].
  destruct (scanLines b diagsDownLeft); [reflexivity|].
  destruct (scanLines b diagsDownRight); [reflexivity|].
  now destruct (existsb _ _).
Qed.

(** ** checkWin: the scanned lines are the lines of the board *)

Lemma range_shift lo hi : range lo hi = map (Z.add lo) (range 0 (hi - lo)).
Proof.
  unfold range. rewrite map_map, Z.sub_0_r. apply map_ext. intros; lia.
Qed.

(** K stones in a window of a scanned line complete a run. *)
Lemma runEndsAt_window b p (f : Z -> cursor) lo hi a :
  1 <= K -> lo <= a -> a + K <= hi ->
  (forall t, a <= t < a + K -> stone b p (f t)) ->
  exists i, runEndsAt b p (map f (range lo hi)) i.
Proof.
  intros HK Hlo Hhi Hst.
  exists (Z.to_nat (a + K - lo - 1)), (map f (range lo a)), (map f (range a (a + K))),
    (map f (range (a + K) hi)).
  repeat split.
  - rewrite <- !map_app, <- !range_app by lia. reflexivity.
  - rewrite length_map, range_length. lia.
  - rewrite length_app, !length_map, !range_length. lia.
  - apply Forall_forall. intros c Hc. apply in_map_iff in Hc as (t & <- & Ht).
    apply in_range in Ht. now apply Hst.
Qed.

(** Conversely the cells of a completed run are a window of the line. *)
Lemma runEndsAt_cells b p (f : Z -> cursor) lo hi i :
  1 <= K ->
  runEndsAt b p (map f (range lo hi)) i ->
  exists a, lo <= a /\ a + K <= hi /\ forall t, a <= t < a + K -> stone b p (f t).
Proof.
  intros HK (pre & run & post & Hl & Hk & Hi & Hrun).
  apply map_range_split in Hl. cbv zeta in Hl.
  destruct Hl as (Ha & He & _ & Hr & _).
  exists (lo + Z.of_nat (length pre)). split; [lia|]. split; [lia|].
  intros t Ht. rewrite Forall_forall in Hrun. apply Hrun.
  rewrite Hr. apply in_map, in_range. lia.
Qed.

Lemma in_rows line :
  In line rows <-> exists y, 0 <= y < N /\ line = map (fun x => (x, y)) (range 0 M).
Proof.
  unfold rows. rewrite in_map_iff. split.
  - intros (y & <- & Hy). apply in_range in Hy. eauto.
  - intros (y & Hy & ->). exists y. split; [reflexivity | now apply in_range].
Qed.

Lemma in_columns line :
  In line columns <-> exists x, 0 <= x < M /\ line = map (fun y => (x, y)) (range 0 N).
Proof.
  unfold columns. rewrite in_map_iff. split.
  - intros (x & <- & Hx). apply in_range in Hx. eauto.
  - intros (x & Hx & ->). exists x. split; [reflexivity | now apply in_range].
Qed.

Lemma in_diagsDownLeft line :
  In line diagsDownLeft <->
  exists i, 0 <= i < M + N - 1 /\
    line = map (fun y => (i - y, y))
               (range (if i <? M then 0 else i - M + 1) (if i <? N then i + 1 else N)).
Proof.
  unfold diagsDownLeft. rewrite in_map_iff. split.
  - intros (i & <- & Hi). apply in_range in Hi. eauto.
  - intros (i & Hi & ->). exists i. split; [reflexivity | now apply in_range].
Qed.

Lemma in_diagsDownRight line :
  In line diagsDownRight <->
  exists i, 0 <= i < M + N - 1 /\
    line = map (fun y => (i + y - N + 1, y))
               (range (if i <? N then N - i - 1 else 0) (if i <? M then N else M + N - i - 1)).
Proof.
  unfold diagsDownRight. rewrite in_map_iff. split.
  - intros (i & <- & Hi). apply in_range in Hi. eauto.
  - intros (i & Hi & ->). exists i. split; [reflexivity | now apply in_range].
Qed.

Lemma in_scanOrder line :
  In line scanOrder <->
  In line rows \/ In line columns \/ In line diagsDownLeft \/ In line diagsDownRight.
Proof. unfold scanOrder. rewrite !in_app_iff. tauto. Qed.

(** The last loop nest visits exactly the cells of the region. *)
Lemma in_concat_diagsDownRight x y :
  In (x, y) (concat diagsDownRight) <-> inRegion x y.
Proof.
  rewrite in_concat. unfold inRegion. split.
  - intros (line & Hline & Hc). apply in_diagsDownRight in Hline as (i & Hi & ->).
    apply in_map_iff in Hc as (y' & Heq & Hy'). injection Heq as <- <-.
    apply in_range in Hy'.
    destruct (Z.ltb_spec i N), (Z.ltb_spec i M); lia.
  - intros [Hx Hy]. set (i := x - y + N - 1).
    exists (map (fun y => (i + y - N + 1, y))
              (range (if i <? N then N - i - 1 else 0) (if i <? M then N else M + N - i - 1))).
    split.
    + apply in_diagsDownRight. exists i. split; [unfold i; lia | reflexivity].
    + apply in_map_iff. exists y. split; [f_equal; unfold i; lia|].
      apply in_range. unfold i. destruct (Z.ltb_spec (x - y + N - 1) N),
        (Z.ltb_spec (x - y + N - 1) M); lia.
Qed.

(** A run of the board is a run of some scanned line ... *)
Lemma hasRun_scanned b p :
  1 <= K -> hasRun b p -> exists line i, In line scanOrder /\ runEndsAt b p line i.
Proof.
  intros HK (x & y & Hrun).
  assert (Hends : forall dx dy, runFrom b p x y dx dy ->
            inRegion x y /\ inRegion (x + (K - 1) * dx) (y + (K - 1) * dy)).
  { intros dx dy H. split.
    - destruct (H 0 ltac:(lia)) as [Hr _]. now rewrite !Z.mul_0_l, !Z.add_0_r in Hr.
    - now destruct (H (K - 1) ltac:(lia)). }
  unfold inRegion in Hends.
  destruct Hrun as [H | [H | [H | H]]]; destruct (Hends _ _ H) as [[? ?] [? ?]].
  - destruct (runEndsAt_window b p (fun x' => (x', y)) 0 M x HK) as [i Hi]; try lia.
    { intros t Ht. destruct (H (t - x) ltac:(lia)) as [_ Hs].
      replace (x + (t - x) * 1) with t in Hs by lia.
      now replace (y + (t - x) * 0) with y in Hs by lia. }
    eexists _, i. split; [|exact Hi].
    apply in_scanOrder. left. apply in_rows. exists y. split; [lia | reflexivity].
  - destruct (runEndsAt_window b p (fun y' => (x, y')) 0 N y HK) as [i Hi]; try lia.
    { intros t Ht. destruct (H (t - y) ltac:(lia)) as [_ Hs].
      replace (y + (t - y) * 1) with t in Hs by lia.
      now replace (x + (t - y) * 0) with x in Hs by lia. }
    eexists _, i. split; [|exact Hi].
    apply in_scanOrder. right; left. apply in_columns. exists x. split; [lia | reflexivity].
  - set (i := x + y).
    destruct (runEndsAt_window b p (fun y' => (i - y', y'))
                (if i <? M then 0 else i - M + 1) (if i <? N then i + 1 else N) y HK)
      as [n Hn].
    { unfold i. destruct (Z.ltb_spec (x + y) M); lia. }
    { unfold i. destruct (Z.ltb_spec (x + y) N); lia. }
    { intros t Ht. destruct (H (t - y) ltac:(lia)) as [_ Hs].
      replace (y + (t - y) * 1) with t in Hs by lia.
      now replace (x + (t - y) * -1) with (i - t) in Hs by (unfold i; lia). }
    eexists _, n. split; [|exact Hn].
    apply in_scanOrder. right; right; left. apply in_diagsDownLeft.
    exists i. split; [unfold i; lia | reflexivity].
  - set (i := x - y + N - 1).
    destruct (runEndsAt_window b p (fun y' => (i + y' - N + 1, y'))
                (if i <? N then N - i - 1 else 0) (if i <? M then N else M + N - i - 1) y HK)
      as [n Hn].
    { unfold i. destruct (Z.ltb_spec (x - y + N - 1) N); lia. }
    { unfold i. destruct (Z.ltb_spec (x - y + N - 1) M); lia. }
    { intros t Ht. destruct (H (t - y) ltac:(lia)) as [_ Hs].
      replace (y + (t - y) * 1) with t in Hs by lia.
      now replace (x + (t - y) * 1) with (i + t - N + 1) in Hs by (unfold i; lia). }
    eexists _, n. split; [|exact Hn].
    apply in_scanOrder. right; right; right. apply in_diagsDownRight.
    exists i. split; [unfold i; lia | reflexivity].
Qed.

(** ... and a run of a scanned line is a run of the board. *)
Lemma scanned_hasRun b p line i :
  1 <= K -> In line scanOrder -> runEndsAt b p line i -> hasRun b p.
Proof.
  intros HK Hline Hrun. apply in_scanOrder in Hline.
  destruct Hline as [H | [H | [H | H]]].
  - apply in_rows in H as (y & Hy & ->).
    apply runEndsAt_cells in Hrun as (a & Ha & He & Hst); [|exact HK].
    exists a, y. left. intros t Ht. unfold inRegion.
    replace (a + t * 1) with (a + t) by lia. replace (y + t * 0) with y by lia.
    split; [lia|]. apply Hst. lia.
  - apply in_columns in H as (x & Hx & ->).
    apply runEndsAt_cells in Hrun as (a & Ha & He & Hst); [|exact HK].
    exists x, a. right; left. intros t Ht. unfold inRegion.
    replace (a + t * 1) with (a + t) by lia. replace (x + t * 0) with x by lia.
    split; [lia|]. apply Hst. lia.
  - apply in_diagsDownLeft in H as (d & Hd & ->).
    apply runEndsAt_cells in Hrun as (a & Ha & He & Hst); [|exact HK].
    exists (d - a), a. right; right; left. intros t Ht. unfold inRegion.
    replace (d - a + t * -1) with (d - (a + t)) by lia.
    replace (a + t * 1) with (a + t) by lia.
    split; [|apply Hst; lia].
    destruct (Z.ltb_spec d M), (Z.ltb_spec d N); lia.
  - apply in_diagsDownRight in H as (d & Hd & ->).
    apply runEndsAt_cells in Hrun as (a & Ha & He & Hst); [|exact HK].
    exists (d + a - N + 1), a. right; right; right. intros t Ht. unfold inRegion.
    replace (d + a - N + 1 + t * 1) with (d + (a + t) - N + 1) by lia.
    replace (a + t * 1) with (a + t) by lia.
    split; [|apply Hst; lia].
    destruct (Z.ltb_spec d M), (Z.ltb_spec d N); lia.
Qed.

Lemma hasRun_completesAt b p :
  1 <= K -> hasRun b p <-> exists l i, completesAt b p l i.
Proof.
  intros HK. split.
  - intros H. apply hasRun_scanned in H as (line & i & Hin & Hrun); [|exact HK].
    apply In_nth_error in Hin as [l Hl]. exists l, i, line. now split.
  - intros (l & i & line & Hl & Hrun).
    apply nth_error_In in Hl. now apply (scanned_hasRun b p line i).
Qed.

Lemma in_scanOrder_region line x y :
  In line scanOrder -> In (x, y) line -> inRegion x y.
Proof.
  intros Hline Hc. apply in_scanOrder in Hline. unfold inRegion.
  destruct Hline as [H | [H | [H | H]]].
  - apply in_rows in H as (y0 & Hy & ->).
    apply in_map_iff in Hc as (t & Heq & Ht). injection Heq as <- <-.
    apply in_range in Ht. lia.
  - apply in_columns in H as (x0 & Hx & ->).
    apply in_map_iff in Hc as (t & Heq & Ht). injection Heq as <- <-.
    apply in_range in Ht. lia.
  - apply in_diagsDownLeft in H as (d & Hd & ->).
    apply in_map_iff in Hc as (t & Heq & Ht). injection Heq as <- <-.
    apply in_range in Ht. destruct (Z.ltb_spec d M), (Z.ltb_spec d N); lia.
  - apply in_concat_diagsDownRight. apply in_concat. eauto.
Qed.

(** On a valid board the two players cannot complete a run on the same
    cell of the same line. *)
Lemma runs_exclusive b line i :
  1 <= K -> validBoard b -> In line scanOrder ->
  runEndsAt b PLAYER_US line i -> runEndsAt b PLAYER_THEM line i -> False.
Proof.
  intros HK Hvalid Hline H1 H2.
  apply runEndsAt_streak in H1 as [_ H1]; [|lia].
  apply runEndsAt_streak in H2 as [_ H2]; [|lia].
  destruct (rev (firstn (S i) line)) as [|[x y] r] eqn:E; cbn [streak] in H1, H2; [lia|].
  assert (Hin : In (x, y) line).
  { rewrite <- (firstn_skipn (S i) line). apply in_or_app. left.
    apply in_rev. rewrite E. now left. }
  apply (in_scanOrder_region line x y Hline) in Hin.
  destruct (owns (b x y) PLAYER_US) eqn:E1; [|lia].
  destruct (owns (b x y) PLAYER_THEM) eqn:E2; [|lia].
  destruct (Hvalid x y Hin) as [Hv | [Hv | [Hv | Hv]]];
    rewrite Hv in E1, E2; discriminate.
Qed.

Lemma earlier_trichotomy l' i' l i :
  earlier l' i' l i \/ (l' = l /\ i' = i) \/ earlier l i l' i'.
Proof. unfold earlier. lia. Qed.

(** C1. [checkWin] returns PLAYER_US when a run of K stones of ours along a
    row, a column or a diagonal of either family is completed with no run of
    theirs completed earlier in scan order, and symmetrically PLAYER_THEM;
    without a run of either player it returns PLAYER_TIE when no cell of the
    region is blank and PLAYER_NONE otherwise.  The runs of the board are the
    runs completed on the scanned lines. *)
Theorem checkWin_outcome b :
  1 <= K -> validBoard b ->
  (forall p, hasRun b p <-> exists l i, completesAt b p l i) /\
  (forall l i, completesAt b PLAYER_US l i ->
     (forall l' i', earlier l' i' l i -> ~ completesAt b PLAYER_THEM l' i') ->
     checkWin b = PLAYER_US) /\
  (forall l i, completesAt b PLAYER_THEM l i ->
     (forall l' i', earlier l' i' l i -> ~ completesAt b PLAYER_US l' i') ->
     checkWin b = PLAYER_THEM) /\
  (~ hasRun b PLAYER_US -> ~ hasRun b PLAYER_THEM ->
     (forall x y, inRegion x y -> b x y <> PLAYER_NONE) ->
     checkWin b = PLAYER_TIE) /\
  (~ hasRun b PLAYER_US -> ~ hasRun b PLAYER_THEM ->
     (exists x y, inRegion x y /\ b x y = PLAYER_NONE) ->
     checkWin b = PLAYER_NONE).
Proof.
  intros HK Hvalid.
  pose proof (scanLines_spec b scanOrder HK) as Hscan.
  split; [intros p; now apply hasRun_completesAt|].
  rewrite checkWin_scanOrder.
  split; [|split]; [| |split].
  - intros l i (line & Hl & Hus) Hnone.
    destruct (scanLines b scanOrder) as [w|].
    + destruct Hscan as (l0 & line0 & i0 & Hl0 & Hbefore & [[-> _] | (-> & Hnus & Hthem)]);
        [reflexivity|].
      exfalso. destruct (earlier_trichotomy l0 i0 l i) as [He | [[-> ->] | He]].
      * apply (Hnone l0 i0 He). now exists line0.
      * rewrite Hl in Hl0. injection Hl0 as <-. contradiction.
      * destruct (Hbefore l line i He Hl); contradiction.
    + exfalso. destruct (Hscan l line i Hl); contradiction.
  - intros l i (line & Hl & Hthem) Hnone.
    destruct (scanLines b scanOrder) as [w|].
    + destruct Hscan as (l0 & line0 & i0 & Hl0 & Hbefore & [[-> Hus] | (-> & _)]);
        [|reflexivity].
      exfalso. destruct (earlier_trichotomy l0 i0 l i) as [He | [[-> ->] | He]].
      * apply (Hnone l0 i0 He). now exists line0.
      * rewrite Hl in Hl0. injection Hl0 as <-.
        apply (runs_exclusive b line i HK Hvalid); trivial.
        now apply nth_error_In in Hl.
      * destruct (Hbefore l line i He Hl); contradiction.
    + exfalso. destruct (Hscan l line i Hl); contradiction.
  - intros Hnus Hnthem Hfull.
    destruct (scanLines b scanOrder) as [w|].
    + exfalso.
      destruct Hscan as (l0 & line0 & i0 & Hl0 & _ & [[_ Hus] | (_ & _ & Hthem)]);
        [apply Hnus | apply Hnthem]; apply hasRun_completesAt; trivial;
        exists l0, i0, line0; now split.
    + destruct (existsb _ _) eqn:E; [|reflexivity].
      apply existsb_exists in E as ([x y] & Hin & Hzero). cbn [fst snd] in Hzero.
      apply in_concat_diagsDownRight in Hin. apply Hfull in Hin.
      unfold PLAYER_NONE in Hin. lia.
  - intros Hnus Hnthem (x & y & Hin & Hzero).
    destruct (scanLines b scanOrder) as [w|].
    + exfalso.
      destruct Hscan as (l0 & line0 & i0 & Hl0 & _ & [[_ Hus] | (_ & _ & Hthem)]);
        [apply Hnus | apply Hnthem]; apply hasRun_completesAt; trivial;
        exists l0, i0, line0; now split.
    + destruct (existsb _ _) eqn:E; [reflexivity|].
      exfalso. apply Bool.not_true_iff_false in E. apply E.
      apply existsb_exists. exists (x, y). split.
      * now apply in_concat_diagsDownRight.
      * cbn [fst snd]. unfold PLAYER_NONE in Hzero. lia.
Qed.

(** ** nextPosition *)

Lemma length_flat_map_rows lo hi :
  length (flat_map (fun y' => map (fun x' : Z => (x', y')) (range 0 M)) (range lo hi))
  = (Z.to_nat (hi - lo) * Z.to_nat M)%nat.
Proof.
  remember (Z.to_nat (hi - lo)) as n eqn:Hn. revert lo Hn.
  induction n as [|n IH]; intros lo Hn.
  - now rewrite (range_nil lo hi) by lia.
  - rewrite (range_cons lo hi) by lia. cbn [flat_map].
    rewrite length_app, (IH (lo + 1)) by lia.
    rewrite length_map, range_length. cbn [Nat.mul]. f_equal. f_equal. lia.
Qed.

Lemma length_scanCells : length scanCells = (Z.to_nat N * Z.to_nat M)%nat.
Proof. unfold scanCells. rewrite length_flat_map_rows. f_equal. lia. Qed.

Lemma length_cellsAfter x y :
  0 <= x < M -> 0 <= y < N ->
  (length (cellsAfter x y) < Z.to_nat (M * N))%nat.
Proof.
  intros Hx Hy. unfold cellsAfter.
  rewrite length_app, length_map, range_length, length_flat_map_rows. nia.
Qed.

Lemma scanCells_first :
  1 <= M -> 1 <= N -> scanCells = (0, 0) :: cellsAfter 0 0.
Proof.
  intros HM HN. unfold scanCells, cellsAfter.
  rewrite (range_cons 0 N) by lia. cbn [flat_map].
  rewrite (range_cons 0 M) by lia. reflexivity.
Qed.

Lemma cellsAfter_next x y :
  cellsAfter x y =
  if x + 1 <? M then (x + 1, y) :: cellsAfter (x + 1) y
  else if (y + 1 <? N) && (0 <? M) then (0, y + 1) :: cellsAfter 0 (y + 1)
  else cellsAfter x y.
Proof.
  unfold cellsAfter.
  destruct (Z.ltb_spec (x + 1) M).
  - now rewrite (range_cons (x + 1) M) by lia.
  - destruct (Z.ltb_spec (y + 1) N); [|reflexivity].
    destruct (Z.ltb_spec 0 M); [|reflexivity]. cbn [andb].
    rewrite (range_nil (x + 1) M) by lia.
    rewrite (range_cons (y + 1) N) by lia. cbn [flat_map app].
    now rewrite (range_cons 0 M) by lia.
Qed.

Lemma cellsAfter_last x y : M <= x + 1 -> N <= y + 1 -> cellsAfter x y = [].
Proof.
  intros Hx Hy. unfold cellsAfter.
  rewrite (range_nil (x + 1) M), (range_nil (y + 1) N) by lia. reflexivity.
Qed.

(** The do-while loop stops at the first blank cell from (x, y) on. *)
Lemma nextPosition_loop_spec b c fuel : forall x y,
  0 <= x < M -> 0 <= y < N ->
  (length (cellsAfter x y) < fuel)%nat ->
  (nextPosition_loop fuel b c x y = Some (false, c) /\
   filter (isEmpty b) ((x, y) :: cellsAfter x y) = []) \/
  (exists x' y',
     nextPosition_loop fuel b c x y = Some (true, (x', y')) /\
     inRegion x' y' /\
     filter (isEmpty b) ((x, y) :: cellsAfter x y)
     = (x', y') :: filter (isEmpty b) (cellsAfter x' y')).
Proof.
  induction fuel as [|fuel IH]; intros x y Hx Hy Hfuel; [lia|].
  cbn [nextPosition_loop filter].
  change (b x y =? PLAYER_NONE) with (isEmpty b (x, y)).
  destruct (isEmpty b (x, y)).
  { right. exists x, y. unfold inRegion. repeat split; trivial; lia. }
  rewrite Z.geb_leb. rewrite (cellsAfter_next x y) in *.
  destruct (Z.leb_spec M (x + 1)) as [Hw | Hw].
  - destruct (Z.ltb_spec (x + 1) M); [lia|].
    destruct (Z.ltb_spec (y + 1) N) as [Hn | Hn].
    + destruct (Z.ltb_spec 0 M); [|lia]. cbn [andb] in *.
      apply IH; [lia | lia | cbn [length] in Hfuel; lia].
    + cbn [andb]. left. split; [reflexivity|].
      now rewrite cellsAfter_last by lia.
  - destruct (Z.ltb_spec (x + 1) M); [|lia].
    destruct (Z.ltb_spec y N); [|lia].
    apply IH; [lia | lia | cbn [length] in Hfuel; lia].
Qed.

Lemma pending_sentinel b y : pending b (-1, y) = emptyCells b.
Proof. reflexivity. Qed.

Lemma pending_cell b x y :
  inRegion x y -> pending b (x, y) = filter (isEmpty b) (cellsAfter x y).
Proof.
  intros [Hx _]. unfold pending. cbn [fst snd].
  destruct (Z.eqb_spec x (-1)); [lia | reflexivity].
Qed.

(** [nextPosition] answers the first pending cell, if there is one. *)
Lemma nextPosition_spec b c :
  1 <= M -> 1 <= N -> goodCursor c ->
  (nextPosition b c = Some (false, c) /\ pending b c = []) \/
  (exists c', nextPosition b c = Some (true, c') /\
              inRegion (fst c') (snd c') /\ pending b c = c' :: pending b c').
Proof.
  intros HM HN Hc. destruct c as [x y]. cbn [fst snd] in Hc.
  unfold nextPosition.
  destruct (Z.eqb_spec x (-1)) as [-> | Hx].
  - rewrite pending_sentinel. unfold emptyCells. rewrite scanCells_first by lia.
    destruct (nextPosition_loop_spec b (-1, y) scanFuel 0 0) as [[E1 E2] | (x' & y' & E1 & E2 & E3)];
      try lia.
    { unfold scanFuel. pose proof (length_cellsAfter 0 0). lia. }
    + left. now split.
    + right. exists (x', y'). cbn [fst snd]. rewrite pending_cell by exact E2. auto.
  - destruct Hc as [Hc | Hc]; [contradiction|].
    rewrite pending_cell by exact Hc. destruct Hc as [Hcx Hcy].
    cbn [fst snd] in Hcx, Hcy.
    rewrite !Z.geb_leb. rewrite (cellsAfter_next x y).
    destruct (Z.leb_spec M (x + 1)) as [Hw | Hw].
    + destruct (Z.ltb_spec (x + 1) M); [lia|].
      destruct (Z.leb_spec N (y + 1)) as [Hn | Hn].
      * left. split; [reflexivity|].
        destruct (Z.ltb_spec (y + 1) N); [lia|]. cbn [andb].
        now rewrite cellsAfter_last by lia.
      * destruct (Z.ltb_spec (y + 1) N); [|lia]. destruct (Z.ltb_spec 0 M); [|lia].
        cbn [andb].
        destruct (nextPosition_loop_spec b (x, y) scanFuel 0 (y + 1))
          as [[E1 E2] | (x' & y' & E1 & E2 & E3)]; try lia.
        { unfold scanFuel. pose proof (length_cellsAfter 0 (y + 1)). lia. }
        -- left. now split.
        -- right. exists (x', y'). cbn [fst snd]. rewrite pending_cell by exact E2. auto.
    + destruct (Z.ltb_spec (x + 1) M); [|lia].
      destruct (nextPosition_loop_spec b (x, y) scanFuel (x + 1) y)
        as [[E1 E2] | (x' & y' & E1 & E2 & E3)]; try lia.
      { unfold scanFuel. pose proof (length_cellsAfter (x + 1) y). lia. }
      * left. now split.
      * right. exists (x', y'). cbn [fst snd]. rewrite pending_cell by exact E2. auto.
Qed.

Lemma length_pending b c :
  1 <= M -> 1 <= N -> goodCursor c -> (length (pending b c) < scanFuel)%nat.
Proof.
  intros HM HN Hc. unfold pending, scanFuel.
  destruct (Z.eqb_spec (fst c) (-1)) as [E | E].
  - unfold emptyCells. pose proof (filter_length_le (isEmpty b) scanCells) as H.
    rewrite length_scanCells in H. nia.
  - destruct Hc as [Hc | [Hx Hy]]; [contradiction|].
    pose proof (filter_length_le (isEmpty b) (cellsAfter (fst c) (snd c))) as H.
    pose proof (length_cellsAfter (fst c) (snd c) Hx Hy). lia.
Qed.

(** A [while(nextPosition(...))] loop visits the pending cells in order. *)
Lemma whileNext_foldCells {S : Type} b (body : cursor -> S -> option (S * bool)) :
  1 <= M -> 1 <= N ->
  forall fuel c s, goodCursor c -> (length (pending b c) < fuel)%nat ->
    whileNext fuel b body c s = foldCells body (pending b c) c s.
Proof.
  intros HM HN. induction fuel as [|fuel IH]; intros c s Hc Hfuel; [lia|].
  cbn [whileNext].
  destruct (nextPosition_spec b c HM HN Hc) as [[E1 E2] | (c' & E1 & E2 & E3)].
  - rewrite E1, E2. reflexivity.
  - rewrite E1, E3. cbn [foldCells].
    destruct (body c' s) as [[s' [|]]|]; try reflexivity.
    apply IH; [now right|]. rewrite E3 in Hfuel. cbn [length] in Hfuel. lia.
Qed.

Lemma whileNext_sentinel {S : Type} b (body : cursor -> S -> option (S * bool)) y s :
  1 <= M -> 1 <= N ->
  whileNext scanFuel b body (-1, y) s = foldCells body (emptyCells b) (-1, y) s.
Proof.
  intros HM HN. rewrite whileNext_foldCells; trivial.
  - now left.
  - apply length_pending; trivial. now left.
Qed.

Lemma enumerate_pending b :
  1 <= M -> 1 <= N ->
  forall fuel c, goodCursor c -> (length (pending b c) < fuel)%nat ->
    enumerate fuel b c = Some (pending b c).
Proof.
  intros HM HN. induction fuel as [|fuel IH]; intros c Hc Hfuel; [lia|].
  cbn [enumerate].
  destruct (nextPosition_spec b c HM HN Hc) as [[E1 E2] | (c' & E1 & E2 & E3)].
  - rewrite E1, E2. reflexivity.
  - rewrite E1, E3. rewrite IH; [reflexivity | now right |].
    rewrite E3 in Hfuel. cbn [length] in Hfuel. lia.
Qed.

Lemma last_cons {A} (a : A) l d : last (a :: l) d = last l a.
Proof.
  revert a d. induction l as [|a' l IH]; intros a d; [reflexivity|].
  change (last (a :: a' :: l) d) with (last (a' :: l) d).
  now rewrite (IH a' d), (IH a' a).
Qed.

(** After the last pending cell nothing is pending. *)
Lemma pending_last b :
  1 <= M -> 1 <= N ->
  forall n c, goodCursor c -> length (pending b c) = n ->
    goodCursor (last (pending b c) c) /\ pending b (last (pending b c) c) = [].
Proof.
  intros HM HN. induction n as [|n IH]; intros c Hc Hn.
  - apply length_zero_iff_nil in Hn. rewrite Hn. cbn [last]. now split.
  - destruct (nextPosition_spec b c HM HN Hc) as [[E1 E2] | (c' & E1 & E2 & E3)].
    + rewrite E2 in Hn. discriminate.
    + rewrite E3 in *. rewrite last_cons. cbn [length] in Hn.
      apply IH; [now right | lia].
Qed.

Lemma in_scanCells x y : In (x, y) scanCells <-> inRegion x y.
Proof.
  unfold scanCells, inRegion. rewrite in_flat_map. split.
  - intros (y' & Hy & Hc). apply in_map_iff in Hc as (x' & Heq & Hx).
    injection Heq as <- <-. apply in_range in Hx, Hy. lia.
  - intros [Hx Hy]. exists y. split; [now apply in_range|].
    apply in_map_iff. exists x. split; [reflexivity | now apply in_range].
Qed.

Lemma in_emptyCells b x y :
  In (x, y) (emptyCells b) <-> inRegion x y /\ b x y = PLAYER_NONE.
Proof.
  unfold emptyCells. rewrite filter_In, in_scanCells. unfold isEmpty. cbn [fst snd].
  rewrite Z.eqb_eq. tauto.
Qed.

Lemma StronglySorted_app {A} (R : A -> A -> Prop) l1 l2 :
  StronglySorted R l1 -> StronglySorted R l2 ->
  (forall a c, In a l1 -> In c l2 -> R a c) ->
  StronglySorted R (l1 ++ l2).
Proof.
  intros H1 H2 H. induction H1 as [|a l1 Hs IH Ha]; cbn [app]; [exact H2|].
  constructor.
  - apply IH. intros; apply H; [now right | assumption].
  - apply Forall_app. split; [exact Ha|].
    apply Forall_forall. intros c Hc. apply H; [now left | assumption].
Qed.

Lemma StronglySorted_filter {A} (R : A -> A -> Prop) f l :
  StronglySorted R l -> StronglySorted R (filter f l).
Proof.
  induction 1 as [|a l Hs IH Ha]; cbn [filter]; [constructor|].
  destruct (f a); [|exact IH]. constructor; [exact IH|].
  rewrite Forall_forall in *. intros c Hc. apply Ha. now apply filter_In in Hc.
Qed.

Lemma sorted_row y lo hi :
  StronglySorted scanBefore (map (fun x => (x, y)) (range lo hi)).
Proof.
  remember (Z.to_nat (hi - lo)) as n eqn:Hn. revert lo Hn.
  induction n as [|n IH]; intros lo Hn.
  - rewrite range_nil by lia. constructor.
  - rewrite range_cons by lia. cbn [map]. constructor; [apply IH; lia|].
    apply Forall_forall. intros c Hc. apply in_map_iff in Hc as (x & <- & Hx).
    apply in_range in Hx. right. cbn [fst snd]. lia.
Qed.

Lemma sorted_rows lo hi :
  StronglySorted scanBefore
    (flat_map (fun y => map (fun x => (x, y)) (range 0 M)) (range lo hi)).
Proof.
  remember (Z.to_nat (hi - lo)) as n eqn:Hn. revert lo Hn.
  induction n as [|n IH]; intros lo Hn.
  - rewrite (range_nil lo hi) by lia. constructor.
  - rewrite (range_cons lo hi) by lia. cbn [flat_map].
    apply StronglySorted_app; [apply sorted_row | apply IH; lia |].
    intros a c Ha Hc. apply in_map_iff in Ha as (x & <- & Hx).
    apply in_flat_map in Hc as (y' & Hy' & Hc). apply in_map_iff in Hc as (x' & <- & Hx').
    apply in_range in Hy'. left. cbn [fst snd]. lia.
Qed.

Lemma StronglySorted_NoDup {A} (R : A -> A -> Prop) l :
  (forall a, ~ R a a) -> StronglySorted R l -> NoDup l.
Proof.
  intros Hirr. induction 1 as [|a l Hs IH Ha]; constructor; [|exact IH].
  intros Hin. rewrite Forall_forall in Ha. exact (Hirr a (Ha a Hin)).
Qed.

Lemma sorted_emptyCells b : StronglySorted scanBefore (emptyCells b).
Proof. apply StronglySorted_filter, sorted_rows. Qed.

(** C7. Started at the sentinel, [nextPosition] answers the blank cells of
    the region and nothing else, each once, x running fastest and y
    increasing, and returns 0 after the last of them. *)
Theorem nextPosition_enumerates b y0 :
  1 <= M -> 1 <= N ->
  allPositions b y0 = Some (emptyCells b) /\
  (forall x y, In (x, y) (emptyCells b) <-> inRegion x y /\ b x y = PLAYER_NONE) /\
  NoDup (emptyCells b) /\
  StronglySorted scanBefore (emptyCells b) /\
  nextPosition b (last (emptyCells b) (-1, y0))
  = Some (false, last (emptyCells b) (-1, y0)).
Proof.
  intros HM HN.
  assert (Hs : goodCursor (-1, y0)) by now left.
  split; [|split; [|split; [|split]]].
  - unfold allPositions. rewrite enumerate_pending; trivial.
    now apply length_pending.
  - apply in_emptyCells.
  - apply (StronglySorted_NoDup scanBefore); [|apply sorted_emptyCells].
    intros a [H | [_ H]]; lia.
  - apply sorted_emptyCells.
  - destruct (pending_last b HM HN _ (-1, y0) Hs eq_refl) as [Hg Hp].
    rewrite pending_sentinel in Hg, Hp.
    destruct (nextPosition_spec b _ HM HN Hg) as [[E1 _] | (c' & _ & _ & E3)];
      [exact E1|].
    rewrite Hp in E3. discriminate.
Qed.

(** ** basicSolve *)

(** The cursor handed to the do-while loop only comes back when the loop
    finds nothing. *)
Lemma nextPosition_loop_cursor b c c2 fuel : forall x y,
  nextPosition_loop fuel b c2 x y =
  match nextPosition_loop fuel b c x y with
  | Some (false, _) => Some (false, c2)
  | r => r
  end.
Proof.
  induction fuel as [|fuel IH]; intros x y; cbn [nextPosition_loop]; [reflexivity|].
  destruct (b x y =? PLAYER_NONE); [reflexivity|].
  destruct (x + 1 >=? M).
  - destruct (y + 1 <? N); [apply IH | reflexivity].
  - destruct (y <? N); [apply IH | reflexivity].
Qed.

Lemma nextPosition_loop_false b c c' fuel : forall x y,
  nextPosition_loop fuel b c x y = Some (false, c') -> c' = c.
Proof.
  induction fuel as [|fuel IH]; intros x y; cbn [nextPosition_loop]; [discriminate|].
  destruct (b x y =? PLAYER_NONE); [discriminate|].
  destruct (x + 1 >=? M).
  - destruct (y + 1 <? N); [apply IH | congruence].
  - destruct (y <? N); [apply IH | congruence].
Qed.

(** When [nextPosition] returns 0 the cursor is as it was. *)
Lemma nextPosition_false b c c' : nextPosition b c = Some (false, c') -> c' = c.
Proof.
  destruct c as [x y]. unfold nextPosition.
  destruct (x =? -1); [apply nextPosition_loop_false|].
  destruct (x + 1 >=? M); [|apply nextPosition_loop_false].
  destruct (y + 1 >=? N); [congruence | apply nextPosition_loop_false].
Qed.

(** At the sentinel [nextPosition] does not read [*y]. *)
Lemma nextPosition_sentinel b y y2 :
  nextPosition b (-1, y2) =
  match nextPosition b (-1, y) with
  | Some (false, _) => Some (false, (-1, y2))
  | r => r
  end.
Proof. exact (nextPosition_loop_cursor b (-1, y) (-1, y2) scanFuel 0 0). Qed.

(** A loop that ran from the sentinel runs the same way again when it is
    restarted with the [*y] it left behind. *)
Lemma whileNext_restart {S : Type} b (body : cursor -> S -> option (S * bool)) fuel y s r :
  whileNext fuel b body (-1, y) s = Some r ->
  whileNext fuel b body (-1, snd (fst (fst r))) s = Some r.
Proof.
  destruct fuel as [|fuel]; cbn [whileNext]; [discriminate|].
  rewrite (nextPosition_sentinel b y (snd (fst (fst r)))).
  destruct (nextPosition b (-1, y)) as [[[|] c']|] eqn:E; try discriminate.
  - trivial.
  - apply nextPosition_false in E. subst c'.
    intros H. injection H as <-. reflexivity.
Qed.

Lemma searchMove_restart b test y found c :
  searchMove b test y = Some (found, c) ->
  searchMove b test (snd c) = Some (found, c).
Proof.
  unfold searchMove. intros H.
  destruct (whileNext scanFuel b _ (-1, y) tt) as [[[c0 u] f]|] eqn:E; [|discriminate].
  injection H as -> ->.
  apply whileNext_restart in E. cbn [fst snd] in E. now rewrite E.
Qed.

Lemma foldCells_total {S : Type} (body : cursor -> S -> option (S * bool)) cells :
  (forall c s, body c s <> None) ->
  forall c s, foldCells body cells c s <> None.
Proof.
  intros Hbody. induction cells as [|c' rest IH]; intros c s; cbn [foldCells];
    [discriminate|].
  specialize (Hbody c' s). destruct (body c' s) as [[s' [|]]|];
    [discriminate | apply IH | contradiction].
Qed.

Lemma whileNext_total {S : Type} b (body : cursor -> S -> option (S * bool)) y s :
  1 <= M -> 1 <= N ->
  (forall c s, body c s <> None) ->
  whileNext scanFuel b body (-1, y) s <> None.
Proof.
  intros HM HN Hbody. rewrite whileNext_sentinel by trivial.
  now apply foldCells_total.
Qed.

Lemma searchMove_total b test y :
  1 <= M -> 1 <= N -> (forall c, test c <> None) -> searchMove b test y <> None.
Proof.
  intros HM HN Htest. unfold searchMove.
  destruct (whileNext scanFuel b _ (-1, y) tt) as [[[c u] f]|] eqn:E; [discriminate|].
  exfalso. revert E. apply whileNext_total; trivial.
  intros c s. specialize (Htest c). now destruct (test c).
Qed.

Lemma countWins_total s0 player : 1 <= M -> 1 <= N -> countWins s0 player <> None.
Proof.
  intros HM HN. unfold countWins.
  destruct (whileNext scanFuel s0 _ (-1, 0) 0) as [[[c w] f]|] eqn:E; [discriminate|].
  exfalso. revert E. apply whileNext_total; trivial.
  intros [sx sy] w. discriminate.
Qed.

Lemma thirdLevel_total s0 replier w :
  1 <= M -> 1 <= N -> thirdLevel s0 replier w <> None.
Proof.
  intros HM HN. unfold thirdLevel.
  destruct (whileNext scanFuel s0 _ (-1, 0) w) as [[[c w'] f]|] eqn:E; [discriminate|].
  exfalso. revert E. apply whileNext_total; trivial.
  intros [sx sy] w0.
  pose proof (countWins_total (copyWithMove s0 replier sx sy) replier HM HN) as H.
  now destruct (countWins _ replier).
Qed.

Lemma forkTest_total b c : 1 <= M -> 1 <= N -> forkTest b c <> None.
Proof.
  intros HM HN. unfold forkTest.
  pose proof (countWins_total (copyWithMove b PLAYER_US (fst c) (snd c)) PLAYER_US HM HN).
  now destruct (countWins _ PLAYER_US).
Qed.

Lemma blockForkTest_total b replier c :
  1 <= M -> 1 <= N -> blockForkTest b replier c <> None.
Proof.
  intros HM HN. unfold blockForkTest.
  set (s0 := copyWithMove b PLAYER_THEM (fst c) (snd c)).
  pose proof (countWins_total s0 PLAYER_THEM HM HN).
  destruct (countWins s0 PLAYER_THEM) as [w|]; [|contradiction].
  destruct (w =? 1); [|discriminate].
  pose proof (thirdLevel_total s0 replier w HM HN).
  now destruct (thirdLevel s0 replier w).
Qed.

Lemma basicSolve_total b y : 1 <= M -> 1 <= N -> exists r, basicSolve b y = Some r.
Proof.
  intros HM HN. unfold basicSolve.
  repeat match goal with
  | |- context [searchMove b ?t ?y0] =>
      let H := fresh in
      let r := fresh "r" in
      assert (H : searchMove b t y0 <> None)
        by (apply searchMove_total; trivial; intros; first
              [ discriminate | now apply forkTest_total | now apply blockForkTest_total ]);
      destruct (searchMove b t y0) as [[[|] r]|]; [eauto | | contradiction]; clear H
  end.
  eauto.
Qed.

(** C6. The fourth loop of [basicSolve] tests what the third one tests; when
    control reaches it, it finds nothing and leaves the cursor where the
    third loop left it; and [basicSolve] answers the same flag and the same
    x, y without it. *)
Theorem basicSolve_fourth_loop_redundant b y :
  (forall c, forkTestThird b c = forkTest b c) /\
  (forall y0 c, searchMove b (forkTest b) y0 = Some (false, c) ->
                searchMove b (forkTestThird b) (snd c) = Some (false, c)) /\
  basicSolve b y = basicSolve_without_fourth b y /\
  (1 <= M -> 1 <= N -> exists r, basicSolve b y = Some r).
Proof.
  split; [reflexivity|]. split; [|split].
  - intros y0 c H. change (forkTestThird b) with (forkTest b).
    now apply searchMove_restart in H.
  - unfold basicSolve, basicSolve_without_fourth.
    destruct (searchMove b (winTest b PLAYER_US) y) as [[[|] c1]|]; try reflexivity.
    destruct (searchMove b (winTest b PLAYER_THEM) (snd c1)) as [[[|] c2]|]; try reflexivity.
    destruct (searchMove b (forkTest b) (snd c2)) as [[[|] c3]|] eqn:E; try reflexivity.
    apply searchMove_restart in E.
    change (forkTestThird b) with (forkTest b). rewrite E. reflexivity.
  - apply basicSolve_total.
Qed.

(** ** evaluateBoard: no sum leaves the range of an int *)

Lemma to_int_small z : -2147483648 <= z <= 2147483647 -> to_int z = z.
Proof. intros H. unfold to_int. rewrite Z.mod_small; lia. Qed.

Lemma runWeight_super a c : 0 <= a -> 0 <= c -> runWeight a + runWeight c <= runWeight (a + c).
Proof. unfold runWeight. nia. Qed.

Lemma runWeight_mono a c : 0 <= a <= c -> runWeight a <= runWeight c.
Proof. unfold runWeight. nia. Qed.

Lemma runWeight_nonneg a : 0 <= a -> 0 <= runWeight a.
Proof. unfold runWeight. nia. Qed.

Section EvaluatorRange.

Variable cast : Z -> Z.
Variable B : Z.
Hypothesis cast_small : forall z, - B <= z <= B -> cast z = z.

(** One cell more: the sums stay within [B] of the score at the start of
    the line ([fs0]) and the invariant moves on. *)
Lemma evalRunBody_inv c n st fs fs0 :
  0 <= n -> runInv n st (fs - fs0) ->
  - (2 * B) <= 2 * fs0 - runWeight (n + 1) -> 2 * fs0 + runWeight (n + 1) <= 2 * B ->
  evalRunBody cast c st fs = evalRunBody (fun z => z) c st fs /\
  runInv (n + 1) (fst (evalRunBody (fun z => z) c st fs))
         (snd (evalRunBody (fun z => z) c st fs) - fs0).
Proof.
  intros Hn (Hp1 & Hp2 & Hs1 & Hs2 & Hacc) Hlo Hhi.
  pose proof (runWeight_super (n - pieces1 st) (pieces1 st) ltac:(lia) ltac:(lia)) as S1.
  pose proof (runWeight_super (n - pieces2 st) (pieces2 st) ltac:(lia) ltac:(lia)) as S2.
  replace (n - pieces1 st + pieces1 st) with n in S1 by lia.
  replace (n - pieces2 st + pieces2 st) with n in S2 by lia.
  pose proof (runWeight_mono n (n + 1) ltac:(lia)) as Mn.
  pose proof (runWeight_mono (n - pieces1 st) (n + 1 - pieces1 st) ltac:(lia)) as M1.
  pose proof (runWeight_mono (n - pieces2 st) (n + 1 - pieces2 st) ltac:(lia)) as M2.
  pose proof (runWeight_mono (n - pieces1 st) n ltac:(lia)) as M3.
  pose proof (runWeight_mono (n - pieces2 st) n ltac:(lia)) as M4.
  pose proof (runWeight_nonneg (pieces1 st) ltac:(lia)) as P1.
  pose proof (runWeight_nonneg (pieces2 st) ltac:(lia)) as P2.
  pose proof (runWeight_nonneg (n - pieces1 st) ltac:(lia)) as P3.
  pose proof (runWeight_nonneg (n - pieces2 st) ltac:(lia)) as P4.
  assert (W0 : runWeight 0 = 0) by reflexivity.
  assert (W1 : runWeight (pieces1 st + 1) = runWeight (pieces1 st) + 2 * (pieces1 st + 1 + 1))
    by (unfold runWeight; lia).
  assert (W2 : runWeight (pieces2 st + 1) = runWeight (pieces2 st) + 2 * (pieces2 st + 1 + 1))
    by (unfold runWeight; lia).
  unfold evalRunBody, runInv.
  destruct (owns c PLAYER_US); [|destruct (owns c PLAYER_THEM)].
  - destruct (runLen2 st >=? K); cbn [fst snd pieces1 pieces2 runScore1 runScore2].
    + rewrite cast_small by lia.
      replace (n + 1 - (pieces1 st + 1)) with (n - pieces1 st) by lia.
      rewrite Z.sub_0_r. repeat split; try lia.
    + replace (n + 1 - (pieces1 st + 1)) with (n - pieces1 st) by lia.
      rewrite Z.sub_0_r. repeat split; try lia.
  - destruct (runLen1 st >=? K); cbn [fst snd pieces1 pieces2 runScore1 runScore2].
    + rewrite cast_small by lia.
      replace (n + 1 - (pieces2 st + 1)) with (n - pieces2 st) by lia.
      rewrite Z.sub_0_r. repeat split; try lia.
    + replace (n + 1 - (pieces2 st + 1)) with (n - pieces2 st) by lia.
      rewrite Z.sub_0_r. repeat split; try lia.
  - cbn [fst snd pieces1 pieces2 runScore1 runScore2]. repeat split; try lia.
Qed.

Lemma evalCells_inv b cells : forall n st fs fs0,
  0 <= n -> runInv n st (fs - fs0) ->
  - (2 * B) <= 2 * fs0 - runWeight (n + Z.of_nat (length cells)) ->
  2 * fs0 + runWeight (n + Z.of_nat (length cells)) <= 2 * B ->
  evalCells cast b cells st fs = evalCells (fun z => z) b cells st fs /\
  runInv (n + Z.of_nat (length cells)) (fst (evalCells (fun z => z) b cells st fs))
         (snd (evalCells (fun z => z) b cells st fs) - fs0).
Proof.
  induction cells as [|[x y] rest IH]; intros n st fs fs0 Hn Hinv Hlo Hhi.
  - cbn [evalCells length fst snd]. rewrite Z.add_0_r. now split.
  - cbn [evalCells]. cbn [length] in *.
    pose proof (runWeight_mono (n + 1) (n + Z.of_nat (S (length rest))) ltac:(lia)).
    destruct (evalRunBody_inv (b x y) n st fs fs0 Hn Hinv ltac:(lia) ltac:(lia)) as [E Hinv'].
    rewrite E. destruct (evalRunBody (fun z => z) (b x y) st fs) as [st' fs'].
    cbn [fst snd] in Hinv'.
    replace (n + Z.of_nat (S (length rest))) with (n + 1 + Z.of_nat (length rest)) in * by lia.
    apply IH; trivial; lia.
Qed.

(** A whole line: the score moves by at most half the weight of the line. *)
Lemma evalLine_inv b line fs :
  - (2 * B) <= 2 * fs - runWeight (Z.of_nat (length line)) ->
  2 * fs + runWeight (Z.of_nat (length line)) <= 2 * B ->
  evalLine cast b fs line = evalLine (fun z => z) b fs line /\
  - runWeight (Z.of_nat (length line)) <= 2 * (evalLine (fun z => z) b fs line - fs)
    <= runWeight (Z.of_nat (length line)).
Proof.
  intros Hlo Hhi. unfold evalLine.
  pose proof (evalCells_inv b line 0 counters0 fs fs) as H.
  rewrite !Z.add_0_l in H.
  destruct H as [E Hinv]; try lia.
  { unfold runInv, counters0. cbn [pieces1 pieces2 runScore1 runScore2].
    unfold runWeight. lia. }
  rewrite E. destruct (evalCells (fun z => z) b line counters0 fs) as [st fs'].
  cbn [fst snd] in Hinv.
  set (n := Z.of_nat (length line)) in *.
  destruct Hinv as (Hp1 & Hp2 & Hs1 & Hs2 & Hacc).
  pose proof (runWeight_super (n - pieces1 st) (pieces1 st) ltac:(lia) ltac:(lia)) as S1.
  pose proof (runWeight_super (n - pieces2 st) (pieces2 st) ltac:(lia) ltac:(lia)) as S2.
  replace (n - pieces1 st + pieces1 st) with n in S1 by lia.
  replace (n - pieces2 st + pieces2 st) with n in S2 by lia.
  pose proof (runWeight_mono (n - pieces1 st) n ltac:(lia)) as M3.
  pose proof (runWeight_mono (n - pieces2 st) n ltac:(lia)) as M4.
  pose proof (runWeight_nonneg (pieces1 st) ltac:(lia)) as P1.
  pose proof (runWeight_nonneg (pieces2 st) ltac:(lia)) as P2.
  unfold evalEndRun.
  destruct (runLen2 st >=? K);
    [rewrite (cast_small (fs' - runScore2 st)) by lia|];
    (destruct (runLen1 st >=? K); [rewrite cast_small by lia|]); split; lia.
Qed.

Lemma evalLines_inv b lines : forall fs,
  - (2 * B) <= 2 * fs - lineBound lines -> 2 * fs + lineBound lines <= 2 * B ->
  evalLines cast b lines fs = evalLines (fun z => z) b lines fs /\
  - lineBound lines <= 2 * (evalLines (fun z => z) b lines fs - fs) <= lineBound lines.
Proof.
  induction lines as [|line rest IH]; intros fs Hlo Hhi.
  - unfold evalLines, lineBound. cbn [fold_left fold_right]. split; [reflexivity | lia].
  - unfold evalLines, lineBound in *. cbn [fold_left fold_right] in *.
    fold (lineBound rest) in *.
    assert (0 <= lineBound rest).
    { clear. induction rest as [|l r IHr]; cbn [lineBound fold_right]; [lia|].
      fold (lineBound r). pose proof (runWeight_nonneg (Z.of_nat (length l))). lia. }
    pose proof (runWeight_nonneg (Z.of_nat (length line)) ltac:(lia)).
    destruct (evalLine_inv b line fs ltac:(lia) ltac:(lia)) as [E Hd].
    rewrite E.
    destruct (IH (evalLine (fun z => z) b fs line) ltac:(lia) ltac:(lia)) as [E' Hd'].
    rewrite E'. split; [reflexivity | lia].
Qed.

Lemma cellValue_range x y : 1 <= cellValue x y <= 2.
Proof. unfold cellValue. destruct (_ && _); lia. Qed.

Lemma evalPieces_inv b cells : forall fs,
  - B <= fs - pieceBound cells -> fs + pieceBound cells <= B ->
  fold_left (evalPiece cast b) cells fs = fold_left (evalPiece (fun z => z) b) cells fs /\
  - pieceBound cells <= fold_left (evalPiece (fun z => z) b) cells fs - fs <= pieceBound cells.
Proof.
  induction cells as [|[x y] rest IH]; intros fs Hlo Hhi.
  - unfold pieceBound. cbn [fold_left fold_right]. split; [reflexivity | lia].
  - unfold pieceBound in *. cbn [fold_left fold_right fst snd] in *.
    fold (pieceBound rest) in *.
    assert (0 <= pieceBound rest).
    { clear. induction rest as [|c r IHr]; cbn [pieceBound fold_right]; [lia|].
      fold (pieceBound r). pose proof (cellValue_range (fst c) (snd c)). lia. }
    pose proof (cellValue_range x y).
    assert (E : evalPiece cast b fs (x, y) = evalPiece (fun z => z) b fs (x, y)).
    { unfold evalPiece. destruct (owns (b x y) PLAYER_US); [apply cast_small; lia|].
      destruct (owns (b x y) PLAYER_THEM); [apply cast_small; lia | reflexivity]. }
    assert (Hd : - cellValue x y <= evalPiece (fun z => z) b fs (x, y) - fs <= cellValue x y).
    { unfold evalPiece. destruct (owns (b x y) PLAYER_US); [lia|].
      destruct (owns (b x y) PLAYER_THEM); lia. }
    rewrite E.
    destruct (IH (evalPiece (fun z => z) b fs (x, y)) ltac:(lia) ltac:(lia)) as [E' Hd'].
    rewrite E'. split; [reflexivity | lia].
Qed.

Lemma lineBound_app l1 l2 : lineBound (l1 ++ l2) = lineBound l1 + lineBound l2.
Proof.
  induction l1 as [|l r IH]; cbn [app lineBound fold_right]; [reflexivity|].
  fold (lineBound (r ++ l2)) (lineBound r). lia.
Qed.

Lemma lineBound_nonneg lines : 0 <= lineBound lines.
Proof.
  induction lines as [|l r IH]; cbn [lineBound fold_right]; [lia|].
  fold (lineBound r). pose proof (runWeight_nonneg (Z.of_nat (length l))). lia.
Qed.

Lemma pieceBound_nonneg cells : 0 <= pieceBound cells.
Proof.
  induction cells as [|c r IH]; cbn [pieceBound fold_right]; [lia|].
  fold (pieceBound r). pose proof (cellValue_range (fst c) (snd c)). lia.
Qed.

(** The whole evaluation, when twice [B] covers [evalBound]. *)
Lemma evaluateBoard_gen_inv b :
  evalBound <= 2 * B ->
  evaluateBoard_gen cast b = evaluateBoard_gen (fun z => z) b /\
  - evalBound <= 2 * evaluateBoard_gen (fun z => z) b <= evalBound.
Proof.
  unfold evalBound, scanOrder, evaluateBoard_gen. rewrite !lineBound_app. intros HB.
  pose proof (pieceBound_nonneg cellsByColumn).
  pose proof (lineBound_nonneg rows). pose proof (lineBound_nonneg columns).
  pose proof (lineBound_nonneg diagsDownLeft). pose proof (lineBound_nonneg diagsDownRight).
  destruct (evalPieces_inv b cellsByColumn 0 ltac:(lia) ltac:(lia)) as [E0 D0].
  rewrite E0. set (f0 := fold_left (evalPiece (fun z => z) b) cellsByColumn 0) in *.
  destruct (evalLines_inv b rows f0 ltac:(lia) ltac:(lia)) as [E1 D1].
  rewrite E1. set (f1 := evalLines (fun z => z) b rows f0) in *.
  destruct (evalLines_inv b columns f1 ltac:(lia) ltac:(lia)) as [E2 D2].
  rewrite E2. set (f2 := evalLines (fun z => z) b columns f1) in *.
  destruct (evalLines_inv b diagsDownLeft f2 ltac:(lia) ltac:(lia)) as [E3 D3].
  rewrite E3. set (f3 := evalLines (fun z => z) b diagsDownLeft f2) in *.
  destruct (evalLines_inv b diagsDownRight f3 ltac:(lia) ltac:(lia)) as [E4 D4].
  rewrite E4. split; [reflexivity | lia].
Qed.

End EvaluatorRange.

(** On boards of at most 15 by 15 cells the bound is that of board.h. *)
Lemma evalBound_small : 0 <= M <= 15 -> 0 <= N <= 15 -> evalBound <= 2 * EVAL_MAX.
Proof.
  intros HM HN.
  assert (HM' : In M (range 0 16)) by (apply in_range; lia).
  assert (HN' : In N (range 0 16)) by (apply in_range; lia).
  clear HM HN.
  cbv delta [evalBound pieceBound lineBound scanOrder rows columns diagsDownLeft
             diagsDownRight cellsByColumn cellValue].
  vm_compute in HM'.
  repeat (destruct HM' as [HM' | HM']; [rewrite <- HM'; clear HM' |]); [..|contradiction];
    vm_compute in HN';
    repeat (destruct HN' as [HN' | HN']; [rewrite <- HN'; clear HN' |]);
    try contradiction; vm_compute; intros E; discriminate E.
Qed.

Lemma evaluateBoard_range b :
  0 <= M <= 15 -> 0 <= N <= 15 ->
  evaluateBoard b = evaluateBoard_ideal b /\ - EVAL_MAX <= evaluateBoard b <= EVAL_MAX.
Proof.
  intros HM HN. pose proof (evalBound_small HM HN) as Hb. unfold EVAL_MAX in *.
  destruct (evaluateBoard_gen_inv to_int 2147483647
              (fun z H => to_int_small z ltac:(lia)) b ltac:(lia)) as [E Hr].
  unfold evaluateBoard, evaluateBoard_ideal. rewrite E. split; [reflexivity | lia].
Qed.

(** ** evaluateBoard: exchanging the players negates the score *)

Lemma swapCounters0 : swapCounters counters0 = counters0.
Proof. reflexivity. Qed.

Ltac decide_cells :=
  repeat match goal with
  | |- context [?a =? ?c] =>
      let v := eval vm_compute in (a =? c) in
      match v with true => idtac | false => idtac end;
      change (a =? c) with v
  | |- context [owns ?a ?p] =>
      let v := eval vm_compute in (owns a p) in
      match v with true => idtac | false => idtac end;
      change (owns a p) with v
  end; cbv iota.

Lemma evalRunBody_swap b x y st fs :
  (b x y = PLAYER_NONE \/ b x y = PLAYER_US \/ b x y = PLAYER_THEM \/ b x y = PLAYER_TIE) ->
  evalRunBody (fun z => z) (swapPlayers b x y) (swapCounters st) (- fs)
  = (swapCounters (fst (evalRunBody (fun z => z) (b x y) st fs)),
     - snd (evalRunBody (fun z => z) (b x y) st fs)).
Proof.
  intros Hc. unfold swapPlayers, evalRunBody.
  destruct st as [l1 p1 s1 l2 p2 s2].
  destruct Hc as [E | [E | [E | E]]]; rewrite E; decide_cells;
    cbn [swapCounters runLen1 pieces1 runScore1 runLen2 pieces2 runScore2 fst snd].
  - f_equal.
  - destruct (l2 >=? K); cbn [fst snd swapCounters runLen1 pieces1 runScore1 runLen2 pieces2
                                runScore2]; f_equal; lia.
  - destruct (l1 >=? K); cbn [fst snd swapCounters runLen1 pieces1 runScore1 runLen2 pieces2
                                runScore2]; f_equal; lia.
  - f_equal.
Qed.

Lemma evalCells_swap b cells : forall st fs,
  validBoard b -> (forall x y, In (x, y) cells -> inRegion x y) ->
  evalCells (fun z => z) (swapPlayers b) cells (swapCounters st) (- fs)
  = (swapCounters (fst (evalCells (fun z => z) b cells st fs)),
     - snd (evalCells (fun z => z) b cells st fs)).
Proof.
  intros st fs Hvalid. revert st fs.
  induction cells as [|[x y] rest IH]; intros st fs Hin; cbn [evalCells]; [reflexivity|].
  rewrite evalRunBody_swap by (apply Hvalid, Hin; now left).
  destruct (evalRunBody (fun z => z) (b x y) st fs) as [st' fs']. cbn [fst snd].
  apply IH. intros; apply Hin; now right.
Qed.

Lemma evalEndRun_swap st fs :
  evalEndRun (fun z => z) (swapCounters st) (- fs) = - evalEndRun (fun z => z) st fs.
Proof.
  unfold evalEndRun. destruct st as [l1 p1 s1 l2 p2 s2].
  cbn [swapCounters runLen1 pieces1 runScore1 runLen2 pieces2 runScore2].
  destruct (l1 >=? K), (l2 >=? K); lia.
Qed.

Lemma evalLine_swap b line fs :
  validBoard b -> (forall x y, In (x, y) line -> inRegion x y) ->
  evalLine (fun z => z) (swapPlayers b) (- fs) line = - evalLine (fun z => z) b fs line.
Proof.
  intros Hvalid Hin. unfold evalLine.
  rewrite <- swapCounters0 at 1. rewrite evalCells_swap by assumption.
  destruct (evalCells (fun z => z) b line counters0 fs) as [st fs']. cbn [fst snd].
  apply evalEndRun_swap.
Qed.

Lemma evalLines_swap b lines : forall fs,
  validBoard b -> (forall line x y, In line lines -> In (x, y) line -> inRegion x y) ->
  evalLines (fun z => z) (swapPlayers b) lines (- fs) = - evalLines (fun z => z) b lines fs.
Proof.
  unfold evalLines. induction lines as [|line rest IH]; intros fs Hvalid Hin;
    cbn [fold_left]; [reflexivity|].
  rewrite evalLine_swap; trivial.
  - apply IH; trivial. intros l x y Hl. apply Hin. now right.
  - intros x y. apply Hin. now left.
Qed.

Lemma evalPieces_swap b cells : forall fs,
  validBoard b -> (forall x y, In (x, y) cells -> inRegion x y) ->
  fold_left (evalPiece (fun z => z) (swapPlayers b)) cells (- fs)
  = - fold_left (evalPiece (fun z => z) b) cells fs.
Proof.
  induction cells as [|[x y] rest IH]; intros fs Hvalid Hin; cbn [fold_left]; [reflexivity|].
  assert (E : evalPiece (fun z => z) (swapPlayers b) (- fs) (x, y)
              = - evalPiece (fun z => z) b fs (x, y)).
  { unfold evalPiece, swapPlayers.
    destruct (Hvalid x y (Hin x y (or_introl eq_refl))) as [E | [E | [E | E]]];
      rewrite E; decide_cells; lia. }
  rewrite E. apply IH; trivial. intros; apply Hin; now right.
Qed.

Lemma in_cellsByColumn x y : In (x, y) cellsByColumn <-> inRegion x y.
Proof.
  unfold cellsByColumn, inRegion. rewrite in_flat_map. split.
  - intros (x' & Hx & Hc). apply in_map_iff in Hc as (y' & Heq & Hy).
    injection Heq as <- <-. apply in_range in Hx, Hy. lia.
  - intros [Hx Hy]. exists x. split; [now apply in_range|].
    apply in_map_iff. exists y. split; [reflexivity | now apply in_range].
Qed.

Lemma evaluateBoard_ideal_swap b :
  validBoard b -> evaluateBoard_ideal (swapPlayers b) = - evaluateBoard_ideal b.
Proof.
  intros Hvalid. unfold evaluateBoard_ideal, evaluateBoard_gen.
  assert (Hl : forall line x y, In line scanOrder -> In (x, y) line -> inRegion x y).
  { intros line x y. apply in_scanOrder_region. }
  change 0 with (- 0) at 1.
  rewrite evalPieces_swap by (trivial; intros x y; apply in_cellsByColumn).
  rewrite !evalLines_swap; trivial; intros line x y H; apply Hl, in_scanOrder; auto.
Qed.

(** C2. The evaluation of the board with the stones of the two players
    exchanged is the exact negation of the evaluation of the board. *)
Theorem evaluateBoard_antisymmetric b :
  0 <= M <= 15 -> 0 <= N <= 15 -> validBoard b ->
  evaluateBoard (swapPlayers b) = - evaluateBoard b.
Proof.
  intros HM HN Hvalid.
  destruct (evaluateBoard_range b HM HN) as [-> _].
  destruct (evaluateBoard_range (swapPlayers b) HM HN) as [-> _].
  now apply evaluateBoard_ideal_swap.
Qed.

(** ** minimax at terminal nodes *)

Lemma minimax_rec_terminal fuel b depth a beta isMax :
  minimax_rec (S fuel) b depth a beta isMax =
  if checkWin b =? PLAYER_US then Some (EVAL_INF, None)
  else if checkWin b =? PLAYER_THEM then Some (EVAL_N_INF, None)
  else if checkWin b =? PLAYER_TIE then Some (0, None)
  else if depth =? 0 then Some (evaluateBoard b, None)
  else minimax_rec (S fuel) b depth a beta isMax.
Proof.
  cbn [minimax_rec].
  destruct (checkWin b =? PLAYER_US); [reflexivity|].
  destruct (checkWin b =? PLAYER_THEM); [reflexivity|].
  destruct (checkWin b =? PLAYER_TIE); [reflexivity|].
  destruct (depth =? 0); reflexivity.
Qed.

(** C5. On a board of at most 15 by 15 cells the evaluation has magnitude at
    most EVAL_MAX, strictly inside the scores EVAL_N_INF and EVAL_INF that
    [minimax] returns for a lost and a won board; a tied board scores 0. *)
Theorem evaluateBoard_within_sentinels b :
  0 <= M <= 15 -> 0 <= N <= 15 ->
  (EVAL_N_INF < - EVAL_MAX /\ - EVAL_MAX <= evaluateBoard b <= EVAL_MAX /\
   EVAL_MAX < EVAL_INF) /\
  (forall depth a beta isMaximizePlayer,
     (checkWin b = PLAYER_US ->
      minimax b depth a beta isMaximizePlayer = Some (EVAL_INF, None)) /\
     (checkWin b = PLAYER_THEM ->
      minimax b depth a beta isMaximizePlayer = Some (EVAL_N_INF, None)) /\
     (checkWin b = PLAYER_TIE ->
      minimax b depth a beta isMaximizePlayer = Some (0, None))).
Proof.
  intros HM HN. split.
  - destruct (evaluateBoard_range b HM HN) as [_ H].
    unfold EVAL_N_INF, EVAL_INF, EVAL_MAX in *. lia.
  - intros depth a beta isMax. unfold minimax, scanFuel.
    repeat split; intros H; rewrite minimax_rec_terminal, H; reflexivity.
Qed.

(** ** minimax: every move fills a blank cell *)

Lemma filter_length_impl {A} (f g : A -> bool) l :
  (forall a, g a = true -> f a = true) ->
  (length (filter g l) <= length (filter f l))%nat.
Proof.
  intros H. induction l as [|a l IH]; cbn [filter]; [lia|].
  specialize (H a). destruct (g a), (f a); cbn [length]; try lia.
Qed.

Lemma filter_length_lt {A} (f g : A -> bool) l x :
  (forall a, g a = true -> f a = true) ->
  In x l -> f x = true -> g x = false ->
  (length (filter g l) < length (filter f l))%nat.
Proof.
  intros H Hin Hf Hg. induction l as [|a l IH]; [contradiction|].
  cbn [filter]. destruct Hin as [-> | Hin].
  - rewrite Hf, Hg. cbn [length]. pose proof (filter_length_impl f g l H). lia.
  - specialize (IH Hin). pose proof (H a) as Ha.
    destruct (g a), (f a); cbn [length]; try lia.
Qed.

Lemma emptyCells_move b p x y :
  In (x, y) (emptyCells b) -> p <> 0 ->
  (length (emptyCells (copyWithMove b p x y)) < length (emptyCells b))%nat.
Proof.
  intros Hin Hp. unfold emptyCells in *. apply filter_In in Hin as [Hin He].
  apply (filter_length_lt _ _ _ (x, y)); trivial.
  - intros [x' y']. unfold isEmpty, copyWithMove. cbn [fst snd].
    destruct ((x' =? x) && (y' =? y)); [|trivial]. unfold PLAYER_NONE. lia.
  - unfold isEmpty, copyWithMove. cbn [fst snd]. rewrite !Z.eqb_refl. cbn [andb].
    unfold PLAYER_NONE. lia.
Qed.

Lemma length_emptyCells b : 1 <= M -> 1 <= N -> (length (emptyCells b) < scanFuel)%nat.
Proof.
  intros HM HN. rewrite <- (pending_sentinel b 0). apply length_pending; trivial. now left.
Qed.

Lemma ageLoss_le v : v <= EVAL_INF -> ageLoss v <= EVAL_INF.
Proof. unfold ageLoss, EVAL_INF, EVAL_MIN. destruct (v <? -7230) eqn:E; lia. Qed.

(** ** minimax: the loops of the full search *)

Section FullLoops.

(** What the recursive call answers for the move to [c]. *)
Variable childF : cursor -> option (Z * option cursor).
Variable cells : list cursor.
Hypothesis childF_total :
  forall c, In c cells -> exists v w, childF c = Some (v, w) /\ v <= EVAL_INF.

Let fullMax : cursor -> Z * cursor -> option (Z * cursor * bool) :=
  fun c '(value, best) =>
    '(nodeValue, _) <- childF c ;;
    Some (if nodeValue >? value then (nodeValue, c) else (value, best), false).

Let fullMin : cursor -> Z * cursor -> option (Z * cursor * bool) :=
  fun c '(value, best) =>
    '(nodeValue, _) <- childF c ;;
    Some (if nodeValue <? value then (nodeValue, c) else (value, best), false).

Lemma fullMax_total : forall rest cur v m,
  incl rest cells -> v <= EVAL_INF ->
  exists cur' v' m',
    foldCells fullMax rest cur (v, m) = Some (cur', (v', m'), false) /\ v' <= EVAL_INF /\
    (m' = m \/ In m' rest).
Proof.
  induction rest as [|c rest IH]; intros cur v m Hincl Hv; cbn [foldCells].
  - exists cur, v, m. auto.
  - destruct (childF_total c (Hincl c (or_introl eq_refl))) as (nv & w & E & Hnv).
    unfold fullMax at 1. rewrite E.
    assert (Hrest : incl rest cells) by (intros a Ha; apply Hincl; now right).
    destruct (nv >? v).
    + destruct (IH c nv c Hrest Hnv) as (cur' & v' & m' & E' & Hv' & Hm').
      exists cur', v', m'. repeat split; trivial. right. destruct Hm'; [left; congruence | now right].
    + destruct (IH c v m Hrest Hv) as (cur' & v' & m' & E' & Hv' & Hm').
      exists cur', v', m'. repeat split; trivial. destruct Hm'; [now left | right; now right].
Qed.

Lemma fullMin_total : forall rest cur v m,
  incl rest cells -> v <= EVAL_INF ->
  exists cur' v' m',
    foldCells fullMin rest cur (v, m) = Some (cur', (v', m'), false) /\ v' <= EVAL_INF /\
    (m' = m \/ In m' rest).
Proof.
  induction rest as [|c rest IH]; intros cur v m Hincl Hv; cbn [foldCells].
  - exists cur, v, m. auto.
  - destruct (childF_total c (Hincl c (or_introl eq_refl))) as (nv & w & E & Hnv).
    unfold fullMin at 1. rewrite E.
    assert (Hrest : incl rest cells) by (intros a Ha; apply Hincl; now right).
    destruct (nv <? v).
    + destruct (IH c nv c Hrest Hnv) as (cur' & v' & m' & E' & Hv' & Hm').
      exists cur', v', m'. repeat split; trivial. right. destruct Hm'; [left; congruence | now right].
    + destruct (IH c v m Hrest Hv) as (cur' & v' & m' & E' & Hv' & Hm').
      exists cur', v', m'. repeat split; trivial. destruct Hm'; [now left | right; now right].
Qed.

(** Once the value is EVAL_INF no later child changes value or move. *)
Lemma fullMax_saturated : forall rest cur m,
  incl rest cells ->
  exists cur', foldCells fullMax rest cur (EVAL_INF, m) = Some (cur', (EVAL_INF, m), false).
Proof.
  induction rest as [|c rest IH]; intros cur m Hincl; cbn [foldCells].
  - now exists cur.
  - destruct (childF_total c (Hincl c (or_introl eq_refl))) as (nv & w & E & Hnv).
    unfold fullMax at 1. rewrite E.
    destruct (Z.gtb_spec nv EVAL_INF); [lia|].
    apply IH. intros a Ha; apply Hincl; now right.
Qed.

(** What the recursive call of the pruned search answers for the move to
    [c] under the lower bound [a]; below EVAL_INF it agrees with [childF]. *)
Variable child : cursor -> Z -> option (Z * option cursor).
Hypothesis child_agrees :
  forall c a, In c cells -> a < EVAL_INF -> child c a = childF c.

Let prunedMax : cursor -> search -> option (search * bool) :=
  fun c s => '(nodeValue, _) <- child c (alpha s) ;; Some (maxStep EVAL_INF nodeValue c s).

Let prunedMin : cursor -> search -> option (search * bool) :=
  fun c s => '(nodeValue, _) <- child c (alpha s) ;; Some (minStep EVAL_INF nodeValue c s).

Lemma prunedMax_agrees : forall rest cur v m a,
  incl rest cells -> v <= EVAL_INF -> a < EVAL_INF ->
  exists cur1 s f1 cur2 f2,
    foldCells prunedMax rest cur (mkSearch v m a) = Some (cur1, s, f1) /\
    foldCells fullMax rest cur (v, m) = Some (cur2, (value s, move s), f2).
Proof.
  induction rest as [|c rest IH]; intros cur v m a Hincl Hv Ha; cbn [foldCells].
  - exists cur, (mkSearch v m a), false, cur, false. now split.
  - assert (Hc : In c cells) by (apply Hincl; now left).
    assert (Hrest : incl rest cells) by (intros x Hx; apply Hincl; now right).
    destruct (childF_total c Hc) as (nv & w & E & Hnv).
    unfold prunedMax at 1, fullMax at 1. cbn [alpha].
    rewrite (child_agrees c a Hc Ha), E.
    unfold maxStep. cbn [value move alpha].
    destruct (nv >? v) eqn:Egt; cbn [value move alpha].
    + destruct (Z.geb_spec (Z.max a nv) EVAL_INF) as [Hb | Hb].
      * assert (nv = EVAL_INF) by lia. subst nv.
        destruct (fullMax_saturated rest c c Hrest) as (cur' & E').
        exists c, (mkSearch EVAL_INF c (Z.max a EVAL_INF)), true, cur', false.
        now split.
      * apply IH; trivial; lia.
    + destruct (Z.geb_spec (Z.max a v) EVAL_INF) as [Hb | Hb].
      * assert (v = EVAL_INF) by lia. subst v.
        destruct (fullMax_saturated rest c m Hrest) as (cur' & E').
        exists c, (mkSearch EVAL_INF m (Z.max a EVAL_INF)), true, cur', false.
        now split.
      * apply IH; trivial; lia.
Qed.

Lemma prunedMin_agrees : forall rest cur v m a,
  incl rest cells -> a < EVAL_INF ->
  exists cur1 s f1 cur2 f2,
    foldCells prunedMin rest cur (mkSearch v m a) = Some (cur1, s, f1) /\
    foldCells fullMin rest cur (v, m) = Some (cur2, (value s, move s), f2).
Proof.
  induction rest as [|c rest IH]; intros cur v m a Hincl Ha; cbn [foldCells].
  - exists cur, (mkSearch v m a), false, cur, false. now split.
  - assert (Hc : In c cells) by (apply Hincl; now left).
    assert (Hrest : incl rest cells) by (intros x Hx; apply Hincl; now right).
    destruct (childF_total c Hc) as (nv & w & E & Hnv).
    unfold prunedMin at 1, fullMin at 1. cbn [alpha].
    rewrite (child_agrees c a Hc Ha), E.
    unfold minStep. cbn [value move alpha].
    destruct (nv <? v) eqn:Elt; cbn [value move alpha].
    + destruct (Z.geb_spec (Z.min a nv) EVAL_INF) as [Hb | Hb]; [lia|].
      apply IH; trivial; lia.
    + destruct (Z.geb_spec (Z.min a v) EVAL_INF) as [Hb | Hb]; [lia|].
      apply IH; trivial; lia.
Qed.

End FullLoops.

(** ** minimax: the pruned search and the full search *)

(** With fuel for every blank cell the full search answers, and never
    above EVAL_INF. *)
Lemma minimax_full_rec_total :
  1 <= M <= 15 -> 1 <= N <= 15 ->
  forall fuel b depth isMax,
    (length (emptyCells b) < fuel)%nat ->
    exists v w, minimax_full_rec fuel b depth isMax = Some (v, w) /\ v <= EVAL_INF.
Proof.
  intros HM HN. induction fuel as [|fuel IH]; intros b depth isMax Hfuel; [lia|].
  cbn [minimax_full_rec].
  destruct (checkWin b =? PLAYER_US);
    [eexists _, _; split; [reflexivity | unfold EVAL_INF; lia]|].
  destruct (checkWin b =? PLAYER_THEM);
    [eexists _, _; split; [reflexivity | unfold EVAL_INF, EVAL_N_INF; lia]|].
  destruct (checkWin b =? PLAYER_TIE);
    [eexists _, _; split; [reflexivity | unfold EVAL_INF; lia]|].
  destruct (depth =? 0).
  { eexists _, _; split; [reflexivity|].
    destruct (evaluateBoard_range b ltac:(lia) ltac:(lia)) as [_ H].
    unfold EVAL_INF, EVAL_MAX in *. lia. }
  assert (Hchild : forall p isM, p <> 0 -> forall c, In c (emptyCells b) ->
            exists v w,
              minimax_full_rec fuel (copyWithMove b p (fst c) (snd c))
                (to_int (depth - 1)) isM = Some (v, w) /\ v <= EVAL_INF).
  { intros p isM Hp [x y] Hc. apply IH.
    pose proof (emptyCells_move b p x y Hc Hp). cbn [fst snd]. lia. }
  destruct (negb (isMax =? 0)); rewrite whileNext_sentinel by lia.
  - destruct (fullMax_total _ (emptyCells b)
                (Hchild PLAYER_US 0 ltac:(discriminate)) (emptyCells b) (-1, 0)
                EVAL_N_INF (-1, -1) (incl_refl _) ltac:(unfold EVAL_INF, EVAL_N_INF; lia))
      as (cur' & v' & m' & E & Hv & Hm).
    cbv beta in E. cbv zeta. rewrite E.
    eexists _, _. split; [reflexivity | now apply ageLoss_le].
  - destruct (fullMin_total _ (emptyCells b)
                (Hchild PLAYER_THEM 1 ltac:(discriminate)) (emptyCells b) (-1, 0)
                EVAL_INF (-1, -1) (incl_refl _) ltac:(lia))
      as (cur' & v' & m' & E & Hv & Hm).
    cbv beta in E. cbv zeta. rewrite E.
    eexists _, _. split; [reflexivity | now apply ageLoss_le].
Qed.

(** Under a window that ends at EVAL_INF and starts below it the pruned
    search answers what the full search answers. *)
Lemma minimax_rec_agrees :
  1 <= M <= 15 -> 1 <= N <= 15 ->
  forall fuel b depth a isMax,
    a < EVAL_INF -> (length (emptyCells b) < fuel)%nat ->
    minimax_rec fuel b depth a EVAL_INF isMax = minimax_full_rec fuel b depth isMax.
Proof.
  intros HM HN. induction fuel as [|fuel IH]; intros b depth a isMax Ha Hfuel; [lia|].
  cbn [minimax_rec minimax_full_rec].
  destruct (checkWin b =? PLAYER_US); [reflexivity|].
  destruct (checkWin b =? PLAYER_THEM); [reflexivity|].
  destruct (checkWin b =? PLAYER_TIE); [reflexivity|].
  destruct (depth =? 0); [reflexivity|].
  assert (Hless : forall p, p <> 0 -> forall c, In c (emptyCells b) ->
            (length (emptyCells (copyWithMove b p (fst c) (snd c))) < fuel)%nat).
  { intros p Hp [x y] Hc. pose proof (emptyCells_move b p x y Hc Hp). cbn [fst snd]. lia. }
  unfold maximizeLoop, minimizeLoop.
  destruct (negb (isMax =? 0)); rewrite !whileNext_sentinel by lia.
  - destruct (prunedMax_agrees
                (fun c => minimax_full_rec fuel (copyWithMove b PLAYER_US (fst c) (snd c))
                            (to_int (depth - 1)) 0)
                (emptyCells b)
                (fun c Hc => minimax_full_rec_total HM HN fuel _ _ _
                               (Hless PLAYER_US ltac:(discriminate) c Hc))
                (fun c a' => minimax_rec fuel (copyWithMove b PLAYER_US (fst c) (snd c))
                               (to_int (depth - 1)) a' EVAL_INF 0)
                (fun c a' Hc Ha' => IH _ _ a' 0 Ha'
                               (Hless PLAYER_US ltac:(discriminate) c Hc))
                (emptyCells b) (-1, 0) EVAL_N_INF (-1, -1) a (incl_refl _)
                ltac:(unfold EVAL_INF, EVAL_N_INF; lia) Ha)
      as (cur1 & s & f1 & cur2 & f2 & E1 & E2).
    cbv beta in E1, E2. cbv zeta. rewrite E1, E2. reflexivity.
  - destruct (prunedMin_agrees
                (fun c => minimax_full_rec fuel (copyWithMove b PLAYER_THEM (fst c) (snd c))
                            (to_int (depth - 1)) 1)
                (emptyCells b)
                (fun c Hc => minimax_full_rec_total HM HN fuel _ _ _
                               (Hless PLAYER_THEM ltac:(discriminate) c Hc))
                (fun c a' => minimax_rec fuel (copyWithMove b PLAYER_THEM (fst c) (snd c))
                               (to_int (depth - 1)) a' EVAL_INF 1)
                (fun c a' Hc Ha' => IH _ _ a' 1 Ha'
                               (Hless PLAYER_THEM ltac:(discriminate) c Hc))
                (emptyCells b) (-1, 0) EVAL_INF (-1, -1) a (incl_refl _) Ha)
      as (cur1 & s & f1 & cur2 & f2 & E1 & E2).
    cbv beta in E1, E2. cbv zeta. rewrite E1, E2. reflexivity.
Qed.

(** C3. Started with the window (EVAL_N_INF, EVAL_INF), the search with
    alpha-beta cuts answers the score and the move of the search that visits
    every child of every node, whatever the board and the depth; and that
    search does answer. *)
Theorem minimax_agrees_with_full_search b depth isMaximizePlayer :
  1 <= M <= 15 -> 1 <= N <= 15 ->
  minimax b depth EVAL_N_INF EVAL_INF isMaximizePlayer
  = minimax_full b depth isMaximizePlayer /\
  exists score written, minimax_full b depth isMaximizePlayer = Some (score, written).
Proof.
  intros HM HN. unfold minimax, minimax_full.
  pose proof (length_emptyCells b ltac:(lia) ltac:(lia)) as Hfuel. split.
  - apply minimax_rec_agrees; trivial. unfold EVAL_INF, EVAL_N_INF. lia.
  - destruct (minimax_full_rec_total HM HN scanFuel b depth isMaximizePlayer Hfuel)
      as (v & w & E & _). eauto.
Qed.

Lemma minimax_full_rec_move :
  1 <= M <= 15 -> 1 <= N <= 15 ->
  forall fuel b depth isMax v w,
    (length (emptyCells b) < fuel)%nat ->
    minimax_full_rec fuel b depth isMax = Some (v, w) ->
    w = None \/ w = Some (-1, -1) \/ exists m, w = Some m /\ In m (emptyCells b).
Proof.
  intros HM HN [|fuel] b depth isMax v w Hfuel; [lia|].
  cbn [minimax_full_rec].
  destruct (checkWin b =? PLAYER_US); [intros H; injection H as <- <-; now left|].
  destruct (checkWin b =? PLAYER_THEM); [intros H; injection H as <- <-; now left|].
  destruct (checkWin b =? PLAYER_TIE); [intros H; injection H as <- <-; now left|].
  destruct (depth =? 0); [intros H; injection H as <- <-; now left|].
  assert (Hchild : forall p isM, p <> 0 -> forall c, In c (emptyCells b) ->
            exists v w,
              minimax_full_rec fuel (copyWithMove b p (fst c) (snd c))
                (to_int (depth - 1)) isM = Some (v, w) /\ v <= EVAL_INF).
  { intros p isM Hp [x y] Hc. apply minimax_full_rec_total; trivial.
    pose proof (emptyCells_move b p x y Hc Hp). cbn [fst snd]. lia. }
  destruct (negb (isMax =? 0)); rewrite whileNext_sentinel by lia.
  - destruct (fullMax_total _ (emptyCells b)
                (Hchild PLAYER_US 0 ltac:(discriminate)) (emptyCells b) (-1, 0)
                EVAL_N_INF (-1, -1) (incl_refl _) ltac:(unfold EVAL_INF, EVAL_N_INF; lia))
      as (cur' & v' & m' & E & Hv & Hm).
    cbv beta in E. cbv zeta. rewrite E. intros H. injection H as <- <-.
    right. destruct Hm as [-> | Hm]; [now left | right; eauto].
  - destruct (fullMin_total _ (emptyCells b)
                (Hchild PLAYER_THEM 1 ltac:(discriminate)) (emptyCells b) (-1, 0)
                EVAL_INF (-1, -1) (incl_refl _) ltac:(lia))
      as (cur' & v' & m' & E & Hv & Hm).
    cbv beta in E. cbv zeta. rewrite E. intros H. injection H as <- <-.
    right. destruct Hm as [-> | Hm]; [now left | right; eauto].
Qed.

(** ** The cascade of main *)

(** Where a loop over [cells] leaves the cursor. *)
Lemma foldCells_cursor {S : Type} (body : cursor -> S -> option (S * bool)) cells :
  forall cur s c s' f,
    foldCells body cells cur s = Some (c, s', f) ->
    if f then In c cells else c = last cells cur.
Proof.
  induction cells as [|c0 rest IH]; intros cur s c s' f; cbn [foldCells].
  - intros H. injection H as <- <- <-. reflexivity.
  - destruct (body c0 s) as [[s0 [|]]|]; [| |discriminate].
    + intros H. injection H as <- <- <-. now left.
    + intros H. apply IH in H. rewrite last_cons.
      destruct f; [now right | exact H].
Qed.

Lemma last_in {A} (l : list A) : forall d, l <> [] -> In (last l d) l.
Proof.
  induction l as [|a l IH]; intros d H; [contradiction|].
  rewrite last_cons. destruct l as [|a' l]; [now left|].
  right. apply IH. discriminate.
Qed.

Lemma searchMove_spec b test y :
  1 <= M -> 1 <= N -> (forall c, test c <> None) ->
  exists found c,
    searchMove b test y = Some (found, c) /\
    if found then In c (emptyCells b) else c = last (emptyCells b) (-1, y).
Proof.
  intros HM HN Htest.
  pose proof (searchMove_total b test y HM HN Htest) as Ht.
  unfold searchMove in *. rewrite whileNext_sentinel in * by trivial.
  destruct (foldCells _ (emptyCells b) (-1, y) tt) as [[[c u] f]|] eqn:E; [|contradiction].
  exists f, c. split; [reflexivity|]. now apply foldCells_cursor in E.
Qed.

(** After a failed search the cursor is the last blank cell, or the
    sentinel with the [*y] of the caller when the board is full. *)
Lemma last_emptyCells_again b y :
  last (emptyCells b) (-1, snd (last (emptyCells b) (-1, y))) = last (emptyCells b) (-1, y).
Proof.
  destruct (emptyCells b) as [|a l]; [reflexivity|]. now rewrite !last_cons.
Qed.

Lemma basicSolve_spec b y :
  1 <= M -> 1 <= N ->
  exists r c,
    basicSolve b y = Some (r, c) /\
    ((r = 1 /\ In c (emptyCells b)) \/ (r = 0 /\ c = last (emptyCells b) (-1, y))).
Proof.
  intros HM HN. unfold basicSolve.
  assert (T1 : forall p c, winTest b p c <> None) by discriminate.
  assert (T2 : forall c, forkTest b c <> None) by (intros; now apply forkTest_total).
  assert (T3 : forall c, forkTestThird b c <> None) by (intros; now apply forkTest_total).
  assert (T4 : forall p c, blockForkTest b p c <> None)
    by (intros; now apply blockForkTest_total).
  do 6 (match goal with
        | |- context [searchMove b ?t ?y0] =>
            let c := fresh "c" in
            let H := fresh "H" in
            destruct (searchMove_spec b t y0 HM HN ltac:(auto)) as ([|] & c & -> & H);
            [exists 1, c; auto | rewrite ?last_emptyCells_again in H; subst c]
        end).
  eexists 0, _. split; [reflexivity | right; auto].
Qed.

Lemma minimaxMove_spec b c0 depth :
  1 <= M <= 15 -> 1 <= N <= 15 ->
  exists c,
    minimaxMove b c0 depth = Some (negb (fst c =? -1) && negb (snd c =? -1), c) /\
    (c = c0 \/ c = (-1, -1) \/ In c (emptyCells b)).
Proof.
  intros HM HN. unfold minimaxMove, minimax.
  pose proof (length_emptyCells b ltac:(lia) ltac:(lia)) as Hfuel.
  rewrite minimax_rec_agrees by (trivial; unfold EVAL_INF, EVAL_N_INF; lia).
  destruct (minimax_full_rec_total HM HN scanFuel b depth 1 Hfuel) as (v & w & E & _).
  rewrite E.
  destruct (minimax_full_rec_move HM HN scanFuel b depth 1 v w Hfuel E)
    as [-> | [-> | (m & -> & Hm)]]; eexists; split; try reflexivity; auto.
Qed.

Lemma higestScoredMove_spec b y :
  1 <= M -> 1 <= N ->
  exists c,
    higestScoredMove b y = Some (negb (fst c =? -1), c) /\
    (c = (-1, -1) \/ In c (emptyCells b)).
Proof.
  intros HM HN. unfold higestScoredMove. rewrite whileNext_sentinel by trivial.
  generalize (-1, y) as cur. generalize EVAL_N_INF as maxScore.
  assert (H : forall cells cur maxScore m, (m = (-1, -1) \/ In m (emptyCells b)) ->
            incl cells (emptyCells b) ->
            exists c,
              ('(_, (_, max_x, max_y), _) <- foldCells
                 (fun '(x, y) '(maxScore, max_x, max_y) =>
                    let scratch := copyWithMove b PLAYER_US x y in
                    let score := evaluateBoard scratch in
                    Some (if score >? maxScore then (score, x, y)
                          else (maxScore, max_x, max_y), false))
                 cells cur (maxScore, fst m, snd m) ;;
               Some (negb (max_x =? -1), (max_x, max_y)))
              = Some (negb (fst c =? -1), c) /\
              (c = (-1, -1) \/ In c (emptyCells b))).
  { induction cells as [|[x0 y0] rest IH]; intros cur maxScore m Hm Hincl; cbn [foldCells].
    - exists m. destruct m as [mx my]. cbn [fst snd]. now split.
    - assert (Hrest : incl rest (emptyCells b)) by (intros a Ha; apply Hincl; now right).
      destruct (evaluateBoard (copyWithMove b PLAYER_US x0 y0) >? maxScore).
      + apply (IH (x0, y0) _ (x0, y0)); trivial. right. apply Hincl. now left.
      + now apply IH. }
  intros maxScore cur.
  apply (H (emptyCells b) cur maxScore (-1, -1)); [now left | apply incl_refl].
Qed.

Lemma backUpMove_spec b y :
  1 <= M -> 1 <= N ->
  (emptyCells b = [] /\ backUpMove b y = Some (false, (-1, y))) \/
  (exists c, backUpMove b y = Some (true, c) /\ In c (emptyCells b)).
Proof.
  intros HM HN. unfold backUpMove.
  destruct (nextPosition_spec b (-1, y) HM HN ltac:(now left)) as [[E1 E2] | (c & E1 & _ & E3)];
    rewrite pending_sentinel in *.
  - left. now split.
  - right. exists c. split; [exact E1|]. rewrite E3. now left.
Qed.

Lemma emptyCells_nil b :
  (forall x y, inRegion x y -> b x y <> PLAYER_NONE) -> emptyCells b = [].
Proof.
  intros H. destruct (emptyCells b) as [|[x y] l] eqn:E; [reflexivity|].
  assert (Hin : In (x, y) (emptyCells b)) by (rewrite E; now left).
  apply in_emptyCells in Hin as [Hr Hz]. now apply H in Hr.
Qed.

Lemma emptyCells_not_nil b :
  (exists x y, inRegion x y /\ b x y = PLAYER_NONE) -> emptyCells b <> [].
Proof.
  intros (x & y & H) E. apply in_emptyCells in H. now rewrite E in H.
Qed.

(** C9. On a board with a blank cell the cascade of [main] posts a move,
    which is a blank cell of the region; a stage is only tried after all the
    stages before it have answered "no move"; on a board without a blank
    cell every stage answers "no move" and nothing is posted. *)
Theorem solveBoard_cascade b y :
  1 <= M <= 15 -> 1 <= N <= 15 ->
  ((exists x y, inRegion x y /\ b x y = PLAYER_NONE) ->
   exists st x' y',
     solveBoard b y = Some (Some (st, (x', y'))) /\
     inRegion x' y' /\ b x' y' = PLAYER_NONE) /\
  (forall st c, solveBoard b y = Some (Some (st, c)) -> triedInOrder b y st c) /\
  ((forall x y, inRegion x y -> b x y <> PLAYER_NONE) ->
   solveBoard b y = Some None /\
   basicSolve b y = Some (0, (-1, y)) /\
   exists c1 c2 c3,
     minimaxMove b (-1, y)
       (calculateDepth (countEmpty b) MAX_MINIMAX_SEARCH_NODES) = Some (false, c1) /\
     higestScoredMove b (snd c1) = Some (false, c2) /\
     backUpMove b (snd c2) = Some (false, c3)).
Proof.
  intros HM HN.
  set (depth := calculateDepth (countEmpty b) MAX_MINIMAX_SEARCH_NODES).
  destruct (basicSolve_spec b y ltac:(lia) ltac:(lia)) as (r & c0 & Eb & Hb).
  destruct (minimaxMove_spec b c0 depth HM HN) as (c1 & Em & Hm).
  destruct (higestScoredMove_spec b (snd c1) ltac:(lia) ltac:(lia)) as (c2 & Eh & Hh).
  pose proof (backUpMove_spec b (snd c2) ltac:(lia) ltac:(lia)) as Hu.
  assert (Hcell : forall c, In c (emptyCells b) ->
            inRegion (fst c) (snd c) /\ b (fst c) (snd c) = PLAYER_NONE).
  { intros [x0 y0] Hc. now apply in_emptyCells. }
  assert (Hsentinel : forall c, In c (emptyCells b) -> (fst c =? -1) = false).
  { intros c Hc. destruct (Hcell c Hc) as [[Hx _] _]. lia. }
  assert (Hsentinel2 : forall c, In c (emptyCells b) -> (snd c =? -1) = false).
  { intros c Hc. destruct (Hcell c Hc) as [[_ Hy] _]. lia. }
  unfold solveBoard, triedInOrder. fold depth. rewrite Eb.
  split; [|split].
  - intros Hsome. apply emptyCells_not_nil in Hsome.
    destruct Hb as [[-> Hc0] | [-> Hc0]]; cbn [Z.eqb negb].
    { exists ByBasicSolve, (fst c0), (snd c0). rewrite <- surjective_pairing.
      split; [reflexivity | now apply Hcell]. }
    assert (Hin0 : In c0 (emptyCells b)) by (subst c0; now apply last_in).
    rewrite Em.
    destruct (negb (fst c1 =? -1) && negb (snd c1 =? -1)) eqn:F1.
    { exists ByMinimax, (fst c1), (snd c1). rewrite <- surjective_pairing.
      split; [reflexivity|]. apply Hcell.
      destruct Hm as [-> | [-> | Hm]]; trivial. discriminate F1. }
    rewrite Eh.
    destruct (negb (fst c2 =? -1)) eqn:F2.
    { exists ByHigestScore, (fst c2), (snd c2). rewrite <- surjective_pairing.
      split; [reflexivity|]. apply Hcell.
      destruct Hh as [-> | Hh]; trivial. discriminate F2. }
    destruct Hu as [[Hnil _] | (c3 & -> & Hc3)]; [contradiction|].
    exists ByBackUp, (fst c3), (snd c3). rewrite <- surjective_pairing.
    split; [reflexivity | now apply Hcell].
  - intros st c.
    destruct Hb as [[-> Hc0] | [-> Hc0]]; cbn [Z.eqb negb].
    { intros H. injection H as <- <-. reflexivity. }
    rewrite Em.
    destruct (negb (fst c1 =? -1) && negb (snd c1 =? -1)) eqn:F1.
    { intros H. injection H as <- <-. exists c0; auto. }
    rewrite Eh.
    destruct (negb (fst c2 =? -1)) eqn:F2.
    { intros H. injection H as <- <-. exists c0, c1; auto. }
    destruct Hu as [[_ Eu] | (c3 & Eu & _)]; rewrite Eu; [discriminate|].
    intros H. injection H as <- <-. exists c0, c1, c2; auto.
  - intros Hfull. apply emptyCells_nil in Hfull. rewrite Hfull in *. cbn [last] in Hb.
    destruct Hb as [[_ []] | [-> ->]]. cbn [Z.eqb negb].
    rewrite Em.
    assert (F1 : negb (fst c1 =? -1) && negb (snd c1 =? -1) = false).
    { destruct Hm as [-> | [-> | []]]; reflexivity. }
    rewrite F1 in *. rewrite Eh.
    assert (F2 : negb (fst c2 =? -1) = false).
    { destruct Hh as [-> | []]; reflexivity. }
    rewrite F2 in *.
    destruct Hu as [[_ Eu] | (c3 & _ & [])]. rewrite Eu.
    split; [reflexivity|]. split; [reflexivity|].
    exists c1, c2, (-1, snd c2). auto.
Qed.

(** * Further properties *)

(** ** checkWin answers only what the board shows *)

Lemma scanLines_none_no_run b p :
  1 <= K -> (p = PLAYER_US \/ p = PLAYER_THEM) ->
  scanLines b scanOrder = None -> ~ hasRun b p.
Proof.
  intros HK Hp Hnone Hrun.
  apply hasRun_scanned in Hrun as (line & i & Hin & Hends); [|exact HK].
  apply In_nth_error in Hin as [l Hl].
  pose proof (scanLines_spec b scanOrder HK) as Hscan. rewrite Hnone in Hscan.
  destruct (Hscan l line i Hl) as [H1 H2]. destruct Hp as [-> | ->]; contradiction.
Qed.

Lemma scanLines_some_run b w :
  1 <= K -> scanLines b scanOrder = Some w ->
  (w = PLAYER_US \/ w = PLAYER_THEM) /\ hasRun b w.
Proof.
  intros HK Hsome.
  pose proof (scanLines_spec b scanOrder HK) as Hscan. rewrite Hsome in Hscan.
  destruct Hscan as (l & line & i & Hl & _ & [[-> Hr] | (-> & _ & Hr)]);
    (split; [auto|]); apply nth_error_In in Hl;
    now apply (scanned_hasRun b _ line i).
Qed.

Lemma blank_in_region_iff b :
  existsb (fun c => b (fst c) (snd c) =? 0) (concat diagsDownRight) = true <->
  exists x y, inRegion x y /\ b x y = PLAYER_NONE.
Proof.
  rewrite existsb_exists. split.
  - intros ([x y] & Hin & Hz). cbn [fst snd] in Hz.
    exists x, y. split; [now apply in_concat_diagsDownRight|]. unfold PLAYER_NONE. lia.
  - intros (x & y & Hin & Hz). exists (x, y). split.
    + now apply in_concat_diagsDownRight.
    + cbn [fst snd]. unfold PLAYER_NONE in Hz. lia.
Qed.

(** The four answers of [checkWin] and what each one says of the board. *)
Lemma checkWin_cases b :
  1 <= K ->
  (checkWin b = PLAYER_US /\ hasRun b PLAYER_US) \/
  (checkWin b = PLAYER_THEM /\ hasRun b PLAYER_THEM) \/
  (checkWin b = PLAYER_TIE /\ ~ hasRun b PLAYER_US /\ ~ hasRun b PLAYER_THEM /\
   forall x y, inRegion x y -> b x y <> PLAYER_NONE) \/
  (checkWin b = PLAYER_NONE /\ ~ hasRun b PLAYER_US /\ ~ hasRun b PLAYER_THEM /\
   exists x y, inRegion x y /\ b x y = PLAYER_NONE).
Proof.
  intros HK. rewrite checkWin_scanOrder.
  destruct (scanLines b scanOrder) as [w|] eqn:E.
  - destruct (scanLines_some_run b w HK E) as [[-> | ->] Hr]; auto.
  - pose proof (scanLines_none_no_run b PLAYER_US HK ltac:(auto) E).
    pose proof (scanLines_none_no_run b PLAYER_THEM HK ltac:(auto) E).
    destruct (existsb _ _) eqn:Eb.
    + right; right; right. repeat split; trivial. now apply blank_in_region_iff.
    + right; right; left. repeat split; trivial.
      intros x y Hin Hz. apply Bool.not_true_iff_false in Eb. apply Eb.
      apply blank_in_region_iff. eauto.
Qed.

(** X1. [checkWin] returns one of the four values of board.h.  It names a
    winner only when that player has K stones in a line, PLAYER_TIE only when
    nobody has and no cell of the region is blank, and PLAYER_NONE only when
    nobody has and some cell is blank. *)
Theorem checkWin_sound b :
  1 <= K ->
  (checkWin b = PLAYER_US \/ checkWin b = PLAYER_THEM \/
   checkWin b = PLAYER_TIE \/ checkWin b = PLAYER_NONE) /\
  (checkWin b = PLAYER_US -> hasRun b PLAYER_US) /\
  (checkWin b = PLAYER_THEM -> hasRun b PLAYER_THEM) /\
  (checkWin b = PLAYER_TIE ->
   ~ hasRun b PLAYER_US /\ ~ hasRun b PLAYER_THEM /\
   forall x y, inRegion x y -> b x y <> PLAYER_NONE) /\
  (checkWin b = PLAYER_NONE ->
   ~ hasRun b PLAYER_US /\ ~ hasRun b PLAYER_THEM /\
   exists x y, inRegion x y /\ b x y = PLAYER_NONE).
Proof.
  intros HK.
  destruct (checkWin_cases b HK) as [[E H] | [[E H] | [[E H] | [E H]]]]; rewrite E;
    (split; [auto|]);
    (split; [|split; [|split]]); first [discriminate | intros _; exact H].
Qed.

(** ** A move and the runs of the two players *)

Lemma stone_move_other b p q x y c :
  b x y = PLAYER_NONE -> owns p q = false ->
  stone (copyWithMove b p x y) q c <-> stone b q c.
Proof.
  intros Hblank Hpq. unfold stone, copyWithMove.
  destruct ((fst c =? x) && (snd c =? y)) eqn:E; [|tauto].
  assert (fst c = x /\ snd c = y) as [-> ->] by lia.
  rewrite Hpq, Hblank. cbn. split; discriminate.
Qed.

Lemma stone_move_own b p x y c :
  owns p p = true -> stone b p c -> stone (copyWithMove b p x y) p c.
Proof.
  intros Hp. unfold stone, copyWithMove.
  destruct ((fst c =? x) && (snd c =? y)); trivial.
Qed.

Lemma hasRun_ext b b' p :
  (forall c, stone b p c -> stone b' p c) -> hasRun b p -> hasRun b' p.
Proof.
  intros H (x & y & Hr). exists x, y.
  destruct Hr as [Hr | [Hr | [Hr | Hr]]]; [left | right; left | right; right; left | right; right; right];
    intros t Ht; destruct (Hr t Ht) as [Hin Hs]; split; auto.
Qed.

Lemma hasRun_move_other b p q x y :
  b x y = PLAYER_NONE -> owns p q = false ->
  hasRun (copyWithMove b p x y) q <-> hasRun b q.
Proof.
  intros Hblank Hpq. split; apply hasRun_ext; intros c; now apply stone_move_other.
Qed.

(** X2. A stone put on a blank cell leaves the runs of the other player as
    they were and keeps the runs of the mover. *)
Theorem move_keeps_runs b x y :
  b x y = PLAYER_NONE ->
  (hasRun (copyWithMove b PLAYER_US x y) PLAYER_THEM <-> hasRun b PLAYER_THEM) /\
  (hasRun (copyWithMove b PLAYER_THEM x y) PLAYER_US <-> hasRun b PLAYER_US) /\
  (hasRun b PLAYER_US -> hasRun (copyWithMove b PLAYER_US x y) PLAYER_US) /\
  (hasRun b PLAYER_THEM -> hasRun (copyWithMove b PLAYER_THEM x y) PLAYER_THEM).
Proof.
  intros Hblank. repeat split.
  - now apply hasRun_move_other.
  - now apply hasRun_move_other.
  - now apply hasRun_move_other.
  - now apply hasRun_move_other.
  - apply hasRun_ext. intros c. now apply stone_move_own.
  - apply hasRun_ext. intros c. now apply stone_move_own.
Qed.

(** ** Only the region is read *)











Lemma in_cellsAfter_region x y c :
  inRegion x y -> In c (cellsAfter x y) -> inRegion (fst c) (snd c).
Proof.
  intros [Hx Hy] Hc. unfold cellsAfter in Hc. apply in_app_or in Hc as [Hc | Hc].
  - apply in_map_iff in Hc as (x' & <- & Hx'). apply in_range in Hx'.
    unfold inRegion. cbn [fst snd]. lia.
  - apply in_flat_map in Hc as (y' & Hy' & Hc). apply in_map_iff in Hc as (x' & <- & Hx').
    apply in_range in Hx', Hy'. unfold inRegion. cbn [fst snd]. lia.
Qed.




(** ** countEmpty *)

Lemma countEmpty_fold b cells : forall res,
  fold_left (fun res '(x, y) => if b x y =? PLAYER_NONE then res + 1 else res) cells res
  = res + Z.of_nat (length (filter (isEmpty b) cells)).
Proof.
  induction cells as [|[x y] rest IH]; intros res; cbn [fold_left filter]; [cbn; lia|].
  rewrite IH. unfold isEmpty at 2. cbn [fst snd].
  destruct (b x y =? PLAYER_NONE); cbn [length]; lia.
Qed.

Lemma NoDup_cellsByColumn : NoDup cellsByColumn.
Proof.
  apply (StronglySorted_NoDup
           (fun c c' : Z * Z => fst c < fst c' \/ (fst c = fst c' /\ snd c < snd c'))).
  { intros a [H | [_ H]]; lia. }
  unfold cellsByColumn. generalize 0 at 2 as lo. intros lo.
  remember (Z.to_nat (M - lo)) as n eqn:Hn. revert lo Hn.
  induction n as [|n IH]; intros lo Hn.
  - rewrite (range_nil lo M) by lia. constructor.
  - rewrite (range_cons lo M) by lia. cbn [flat_map].
    apply StronglySorted_app; [|apply IH; lia|].
    + generalize 0 as l0. intros l0.
      remember (Z.to_nat (N - l0)) as k eqn:Hk. revert l0 Hk.
      induction k as [|k IHk]; intros l0 Hk.
      * rewrite (range_nil l0 N) by lia. constructor.
      * rewrite (range_cons l0 N) by lia. cbn [map]. constructor; [apply IHk; lia|].
        apply Forall_forall. intros c Hc. apply in_map_iff in Hc as (y & <- & Hy).
        apply in_range in Hy. right. cbn [fst snd]. lia.
    + intros a c Ha Hc. apply in_map_iff in Ha as (y & <- & Hy).
      apply in_flat_map in Hc as (x' & Hx' & Hc). apply in_map_iff in Hc as (y' & <- & Hy').
      apply in_range in Hx'. left. cbn [fst snd]. lia.
Qed.

(** The two loop nests over the region visit the same cells. *)
Lemma emptyCells_by_column b :
  Permutation (filter (isEmpty b) cellsByColumn) (emptyCells b).
Proof.
  apply NoDup_Permutation.
  - apply NoDup_filter, NoDup_cellsByColumn.
  - apply (StronglySorted_NoDup scanBefore); [|apply sorted_emptyCells].
    intros a [H | [_ H]]; lia.
  - intros [x y]. unfold emptyCells. rewrite !filter_In, in_cellsByColumn, in_scanCells.
    tauto.
Qed.

Lemma countEmpty_length b : countEmpty b = Z.of_nat (length (emptyCells b)).
Proof.
  unfold countEmpty. rewrite countEmpty_fold.
  now rewrite (Permutation_length (emptyCells_by_column b)).
Qed.

Lemma filter_length_remove {A} (f g : A -> bool) l x :
  NoDup l -> In x l -> f x = true -> g x = false ->
  (forall a, a <> x -> g a = f a) ->
  length (filter f l) = S (length (filter g l)).
Proof.
  intros Hnd Hin Hf Hg Hrest. induction Hnd as [|a l Hnotin Hnd IH]; [contradiction|].
  cbn [filter]. destruct Hin as [-> | Hin].
  - rewrite Hf, Hg. cbn [length]. f_equal. f_equal.
    apply filter_ext_in. intros a Ha. symmetry. apply Hrest. congruence.
  - assert (a <> x) by congruence.
    rewrite (Hrest a) by assumption. specialize (IH Hin).
    destruct (f a); cbn [length]; lia.
Qed.

Lemma emptyCells_move_length b p x y :
  In (x, y) (emptyCells b) -> p <> PLAYER_NONE ->
  length (emptyCells b) = S (length (emptyCells (copyWithMove b p x y))).
Proof.
  intros Hin Hp. unfold emptyCells in *. apply filter_In in Hin as [Hin He].
  apply (filter_length_remove _ _ _ (x, y)); trivial.
  - apply (StronglySorted_NoDup scanBefore); [|apply sorted_rows].
    intros a [H | [_ H]]; lia.
  - unfold isEmpty, copyWithMove. cbn [fst snd]. rewrite !Z.eqb_refl. cbn [andb].
    unfold PLAYER_NONE in *. lia.
  - intros [x' y'] Hne. unfold isEmpty, copyWithMove. cbn [fst snd].
    destruct ((x' =? x) && (y' =? y)) eqn:E; [|reflexivity].
    exfalso. apply Hne. f_equal; lia.
Qed.

(** X4. [countEmpty] is the number of blank cells of the region, and a
    stone put on a blank cell of the region lowers it by exactly one. *)
Theorem countEmpty_counts b :
  countEmpty b = Z.of_nat (length (emptyCells b)) /\
  (forall p x y, inRegion x y -> b x y = PLAYER_NONE -> p <> PLAYER_NONE ->
     countEmpty (copyWithMove b p x y) = countEmpty b - 1).
Proof.
  split; [apply countEmpty_length|].
  intros p x y Hin Hblank Hp. rewrite !countEmpty_length.
  rewrite (emptyCells_move_length b p x y); [lia | | exact Hp].
  now apply in_emptyCells.
Qed.

(** ** nextPosition from a cell *)

Lemma in_cellsAfter x y c :
  inRegion x y ->
  In c (cellsAfter x y) <-> inRegion (fst c) (snd c) /\ scanBefore (x, y) c.
Proof.
  intros Hxy. split.
  - intros Hc. split; [now apply (in_cellsAfter_region x y)|].
    unfold cellsAfter in Hc. apply in_app_or in Hc as [Hc | Hc].
    + apply in_map_iff in Hc as (x' & <- & Hx'). apply in_range in Hx'.
      right. cbn [fst snd]. lia.
    + apply in_flat_map in Hc as (y' & Hy' & Hc). apply in_map_iff in Hc as (x' & <- & Hx').
      apply in_range in Hy'. left. cbn [fst snd]. lia.
  - destruct c as [cx cy]. unfold inRegion, scanBefore. cbn [fst snd].
    intros [[Hcx Hcy] Hlt]. unfold cellsAfter. apply in_or_app.
    destruct (Z.eq_dec cy y) as [-> | Hne].
    + left. apply in_map_iff. exists cx. split; [reflexivity|]. apply in_range. lia.
    + right. apply in_flat_map. exists cy. split; [apply in_range; lia|].
      apply in_map_iff. exists cx. split; [reflexivity|]. apply in_range. lia.
Qed.

Lemma sorted_cellsAfter x y : StronglySorted scanBefore (cellsAfter x y).
Proof.
  unfold cellsAfter. apply StronglySorted_app; [apply sorted_row | apply sorted_rows |].
  intros a c Ha Hc. apply in_map_iff in Ha as (x' & <- & Hx').
  apply in_flat_map in Hc as (y' & Hy' & Hc). apply in_map_iff in Hc as (x'' & <- & Hx'').
  apply in_range in Hy'. left. cbn [fst snd]. lia.
Qed.

(** X5. Called with the cursor on a cell of the region, [nextPosition]
    moves it to the first blank cell of the region that comes strictly later
    in scan order and returns 1; when no later cell is blank it returns 0 and
    leaves the cursor where it was.  The cell under the cursor is never the
    answer. *)
Theorem nextPosition_from_cell b x y :
  1 <= M -> 1 <= N -> inRegion x y ->
  (nextPosition b (x, y) = Some (false, (x, y)) /\
   forall c, inRegion (fst c) (snd c) -> scanBefore (x, y) c ->
             b (fst c) (snd c) <> PLAYER_NONE) \/
  (exists c', nextPosition b (x, y) = Some (true, c') /\
     inRegion (fst c') (snd c') /\ b (fst c') (snd c') = PLAYER_NONE /\
     scanBefore (x, y) c' /\
     forall c, inRegion (fst c) (snd c) -> scanBefore (x, y) c -> scanBefore c c' ->
               b (fst c) (snd c) <> PLAYER_NONE).
Proof.
  intros HM HN Hxy.
  assert (Hgood : goodCursor (x, y)) by now right.
  assert (Hpend : forall c, In c (pending b (x, y)) <->
            (inRegion (fst c) (snd c) /\ scanBefore (x, y) c) /\
            b (fst c) (snd c) = PLAYER_NONE).
  { intros c. rewrite pending_cell by exact Hxy.
    rewrite filter_In, (in_cellsAfter x y c Hxy). unfold isEmpty.
    rewrite Z.eqb_eq. reflexivity. }
  assert (Hsorted : StronglySorted scanBefore (pending b (x, y))).
  { rewrite pending_cell by exact Hxy. apply StronglySorted_filter, sorted_cellsAfter. }
  destruct (nextPosition_spec b (x, y) HM HN Hgood) as [[E1 E2] | (c' & E1 & E2 & E3)].
  - left. split; [exact E1|]. intros c Hc Hlt Hblank.
    assert (Hin : In c (pending b (x, y))) by (apply Hpend; auto).
    rewrite E2 in Hin. contradiction.
  - right. exists c'. rewrite E3 in Hsorted.
    assert (Hin : In c' (pending b (x, y))) by (rewrite E3; now left).
    apply Hpend in Hin as [[_ Hlt] Hblank].
    repeat split; trivial; try apply E2.
    intros c Hc Hlt1 Hlt2 Hb.
    assert (Hin : In c (pending b (x, y))) by (apply Hpend; auto).
    rewrite E3 in Hin. destruct Hin as [<- | Hin].
    + unfold scanBefore in Hlt2. lia.
    + apply StronglySorted_inv in Hsorted as [_ Hall].
      rewrite Forall_forall in Hall. specialize (Hall c Hin).
      unfold scanBefore in Hall, Hlt2. lia.
Qed.

(** ** The tiers of basicSolve *)

Lemma searchMove_find b test (t : cursor -> bool) y :
  1 <= M -> 1 <= N -> (forall c, test c = Some (t c)) ->
  searchMove b test y =
  Some (match find t (emptyCells b) with
        | Some c => (true, c)
        | None => (false, last (emptyCells b) (-1, y))
        end).
Proof.
  intros HM HN Ht. unfold searchMove. rewrite whileNext_sentinel by assumption.
  generalize (-1, y) as cur. induction (emptyCells b) as [|c rest IH]; intros cur.
  - reflexivity.
  - cbn [foldCells find]. rewrite Ht. destruct (t c); [reflexivity|].
    rewrite last_cons. apply IH.
Qed.

Lemma foldCells_count {S : Type} (body : cursor -> S -> option (S * bool))
    (g : cursor -> bool) (proj : S -> Z) cells :
  (forall c s, exists s', body c s = Some (s', false) /\
                          proj s' = if g c then proj s + 1 else proj s) ->
  forall cur s, exists cur' s',
    foldCells body cells cur s = Some (cur', s', false) /\
    proj s' = proj s + Z.of_nat (length (filter g cells)).
Proof.
  intros Hbody. induction cells as [|c rest IH]; intros cur s.
  - exists cur, s. split; [reflexivity | cbn; lia].
  - cbn [foldCells filter]. destruct (Hbody c s) as (s1 & -> & Hs1).
    destruct (IH c s1) as (cur' & s' & -> & Hs'). exists cur', s'.
    split; [reflexivity|]. rewrite Hs', Hs1. destruct (g c); cbn [length]; lia.
Qed.

Lemma countWins_count s0 player :
  1 <= M -> 1 <= N -> countWins s0 player = Some (winCount s0 player).
Proof.
  intros HM HN. unfold countWins. rewrite whileNext_sentinel by assumption.
  match goal with
  | |- context [foldCells ?body ?cells ?start ?init] =>
      destruct (foldCells_count body (winsAt s0 player) (fun z => z) cells)
        with (cur := start) (s := init) as (cur' & s' & -> & Hs')
  end.
  - intros [sx sy] s. eexists. split; [reflexivity|]. reflexivity.
  - unfold winCount. now rewrite Hs'.
Qed.

Lemma thirdLevel_count s0 replier n :
  1 <= M -> 1 <= N ->
  thirdLevel s0 replier n =
  Some (n + Z.of_nat (length (filter (forksAt s0 replier) (emptyCells s0)))).
Proof.
  intros HM HN. unfold thirdLevel. rewrite whileNext_sentinel by assumption.
  match goal with
  | |- context [foldCells ?body ?cells ?start ?init] =>
      destruct (foldCells_count body (forksAt s0 replier) (fun z => z) cells)
        with (cur := start) (s := init) as (cur' & s' & -> & Hs')
  end.
  - intros [sx sy] s. cbv zeta. rewrite countWins_count by assumption.
    eexists. split; [reflexivity|]. reflexivity.
  - now rewrite Hs'.
Qed.

Lemma forkTest_forksAt b c :
  1 <= M -> 1 <= N -> forkTest b c = Some (forksAt b PLAYER_US c).
Proof. intros HM HN. unfold forkTest. cbv zeta. now rewrite countWins_count. Qed.

Lemma blockForkTest_blockForkAt b replier c :
  1 <= M -> 1 <= N -> blockForkTest b replier c = Some (blockForkAt b replier c).
Proof.
  intros HM HN. unfold blockForkTest, blockForkAt. cbv zeta.
  rewrite countWins_count by assumption.
  destruct (_ =? 1); [now rewrite thirdLevel_count | reflexivity].
Qed.

Lemma basicSolve_firstFound b y :
  1 <= M -> 1 <= N ->
  basicSolve b y =
  Some (match firstFound (tiers b) (emptyCells b) with
        | Some c => (1, c)
        | None => (0, last (emptyCells b) (-1, y))
        end).
Proof.
  intros HM HN. unfold basicSolve, tiers. cbn [firstFound].
  rewrite (searchMove_find b _ (winsAt b PLAYER_US)) by auto.
  destruct (find (winsAt b PLAYER_US) _); [reflexivity|]. cbn [snd].
  rewrite (searchMove_find b _ (winsAt b PLAYER_THEM)) by auto.
  destruct (find (winsAt b PLAYER_THEM) _); [reflexivity|].
  rewrite last_emptyCells_again. cbn [snd].
  rewrite (searchMove_find b _ (forksAt b PLAYER_US))
    by (try assumption; intros; now apply forkTest_forksAt).
  destruct (find (forksAt b PLAYER_US) _) eqn:Efork; [reflexivity|].
  rewrite last_emptyCells_again. cbn [snd].
  rewrite (searchMove_find b (forkTestThird b) (forksAt b PLAYER_US))
    by (try assumption; intros; now apply forkTest_forksAt).
  rewrite Efork.
  rewrite last_emptyCells_again. cbn [snd].
  rewrite (searchMove_find b _ (blockForkAt b PLAYER_US))
    by (try assumption; intros; now apply blockForkTest_blockForkAt).
  destruct (find (blockForkAt b PLAYER_US) _); [reflexivity|].
  rewrite last_emptyCells_again. cbn [snd].
  rewrite (searchMove_find b _ (blockForkAt b PLAYER_THEM))
    by (try assumption; intros; now apply blockForkTest_blockForkAt).
  destruct (find (blockForkAt b PLAYER_THEM) _); [reflexivity|].
  now rewrite last_emptyCells_again.
Qed.

Lemma find_firstBlank b t c : firstBlank b t c -> find t (emptyCells b) = Some c.
Proof.
  unfold firstBlank. generalize (sorted_emptyCells b).
  induction 1 as [|a l Hs IH Ha]; intros (Hin & Ht & Hfirst); [contradiction|].
  cbn [find]. destruct (t a) eqn:Eta.
  - destruct Hin as [-> | Hin]; [reflexivity|].
    rewrite Forall_forall in Ha. rewrite (Hfirst a) in Eta; [discriminate | now left | auto].
  - apply IH. destruct Hin as [-> | Hin]; [congruence|].
    repeat split; trivial. intros c' Hc'. apply Hfirst. now right.
Qed.

Lemma find_noBlank b t : noBlank b t <-> find t (emptyCells b) = None.
Proof.
  split.
  - intros H. destruct (find t (emptyCells b)) as [c|] eqn:E; [|reflexivity].
    apply find_some in E as [Hin Ht]. rewrite (H c Hin) in Ht. discriminate.
  - intros H c Hc. exact (find_none _ _ H c Hc).
Qed.

(** X6. [basicSolve] wins before it blocks: when some blank cell gives us
    a win, it returns 1 with the first such cell in scan order; when none
    does but some blank cell would give the opponent a win, it returns 1 with
    the first of those.  When it returns 0, no blank cell wins for either
    player, and the cursor is left on the last blank cell of the board (or
    keeps x = -1 and the caller's y on a full board). *)
Theorem basicSolve_win_before_block b y :
  1 <= M -> 1 <= N ->
  (forall c, firstBlank b (winsAt b PLAYER_US) c -> basicSolve b y = Some (1, c)) /\
  (forall c, noBlank b (winsAt b PLAYER_US) -> firstBlank b (winsAt b PLAYER_THEM) c ->
             basicSolve b y = Some (1, c)) /\
  (forall c, basicSolve b y = Some (0, c) ->
             noBlank b (winsAt b PLAYER_US) /\ noBlank b (winsAt b PLAYER_THEM) /\
             c = last (emptyCells b) (-1, y)).
Proof.
  intros HM HN. rewrite (basicSolve_firstFound b y HM HN). unfold tiers.
  cbn [firstFound]. split; [|split].
  - intros c Hc. now rewrite (find_firstBlank b _ c Hc).
  - intros c Hno Hc. apply find_noBlank in Hno. rewrite Hno.
    now rewrite (find_firstBlank b _ c Hc).
  - intros c. rewrite !find_noBlank.
    destruct (find (winsAt b PLAYER_US) _); [discriminate|].
    destruct (find (winsAt b PLAYER_THEM) _); [discriminate|].
    destruct (find (forksAt b PLAYER_US) _); [discriminate|].
    destruct (find (blockForkAt b PLAYER_US) _); [discriminate|].
    destruct (find (blockForkAt b PLAYER_THEM) _); [discriminate|].
    intros H. injection H as <-. auto.
Qed.

(** X7. The six loops of [basicSolve] as tests on the blank cells: the inner
    counting loop counts the blank cells where the player wins at once, and
    [basicSolve] returns 1 with the first blank cell accepted by the first
    loop that accepts one (win, block, fork, fork again, the two fork
    blocks), or 0 with the cursor on the last blank cell. *)
Theorem basicSolve_tiers b y :
  1 <= M -> 1 <= N ->
  (forall s p, countWins s p = Some (winCount s p)) /\
  (forall c, forkTest b c = Some (forksAt b PLAYER_US c)) /\
  (forall replier c, blockForkTest b replier c = Some (blockForkAt b replier c)) /\
  basicSolve b y =
  Some (match firstFound (tiers b) (emptyCells b) with
        | Some c => (1, c)
        | None => (0, last (emptyCells b) (-1, y))
        end).
Proof.
  intros HM HN. split; [|split; [|split]].
  - intros s p. now apply countWins_count.
  - intros c. now apply forkTest_forksAt.
  - intros replier c. now apply blockForkTest_blockForkAt.
  - now apply basicSolve_firstFound.
Qed.

(** ** higestScoredMove and backUpMove *)

Lemma higestScored_fold b : forall cells cur maxScore m,
  StronglySorted scanBefore cells ->
  exists cur' maxScore' m',
    foldCells
      (fun '(x, y) '(maxScore, max_x, max_y) =>
         let scratch := copyWithMove b PLAYER_US x y in
         let score := evaluateBoard scratch in
         Some (if score >? maxScore then (score, x, y) else (maxScore, max_x, max_y),
               false))
      cells cur (maxScore, fst m, snd m)
    = Some (cur', (maxScore', fst m', snd m'), false) /\
    (forall c, In c cells -> moveScore b c <= maxScore') /\
    ((m' = m /\ maxScore' = maxScore) \/
     (In m' cells /\ moveScore b m' = maxScore' /\ maxScore < maxScore' /\
      forall c, In c cells -> scanBefore c m' -> moveScore b c < maxScore')).
Proof.
  induction cells as [|[x0 y0] rest IH]; intros cur maxScore m Hs; cbn [foldCells].
  - exists cur, maxScore, m. split; [reflexivity|]. split; [contradiction | now left].
  - apply StronglySorted_inv in Hs as [Hs Hall]. rewrite Forall_forall in Hall.
    cbv zeta. change (evaluateBoard (copyWithMove b PLAYER_US x0 y0))
      with (moveScore b (x0, y0)).
    destruct (Z.gtb_spec (moveScore b (x0, y0)) maxScore) as [Hgt | Hle].
    + destruct (IH (x0, y0) (moveScore b (x0, y0)) (x0, y0) Hs)
        as (cur' & ms' & m' & E & Hmax & Hm').
      cbn [fst snd] in E. exists cur', ms', m'. split; [exact E|].
      assert (Hge : moveScore b (x0, y0) <= ms') by (destruct Hm' as [[_ ->] | (_ & _ & H & _)]; lia).
      split.
      * intros c [<- | Hc]; [exact Hge | now apply Hmax].
      * right. destruct Hm' as [[-> ->] | (Hin & Hsc & Hlt & Hfirst)].
        -- split; [now left|]. split; [reflexivity|]. split; [lia|].
           intros c [<- | Hc] Hb; unfold scanBefore in Hb; [lia|].
           specialize (Hall c Hc). unfold scanBefore in Hall. lia.
        -- split; [now right|]. split; [exact Hsc|]. split; [lia|].
           intros c [<- | Hc] Hb; [lia | now apply Hfirst].
    + destruct (IH (x0, y0) maxScore m Hs) as (cur' & ms' & m' & E & Hmax & Hm').
      exists cur', ms', m'. split; [exact E|].
      assert (Hge : maxScore <= ms') by (destruct Hm' as [[_ ->] | (_ & _ & H & _)]; lia).
      split.
      * intros c [<- | Hc]; [lia | now apply Hmax].
      * destruct Hm' as [[-> ->] | (Hin & Hsc & Hlt & Hfirst)]; [now left|].
        right. split; [now right|]. split; [exact Hsc|]. split; [lia|].
        intros c [<- | Hc] Hb; [lia | now apply Hfirst].
Qed.

(** X8. On a board of at most 15 by 15 cells with a blank cell,
    [higestScoredMove] returns 1 and leaves the cursor on a blank cell whose
    evaluation after our stone is the largest; among the blank cells with the
    largest evaluation it is the first in scan order.  On a full board it
    returns 0 with the cursor at (-1, -1). *)
Theorem higestScoredMove_first_maximum b y :
  1 <= M <= 15 -> 1 <= N <= 15 ->
  (emptyCells b = [] -> higestScoredMove b y = Some (false, (-1, -1))) /\
  (emptyCells b <> [] ->
   exists c, higestScoredMove b y = Some (true, c) /\ In c (emptyCells b) /\
     (forall c', In c' (emptyCells b) -> moveScore b c' <= moveScore b c) /\
     (forall c', In c' (emptyCells b) -> scanBefore c' c -> moveScore b c' < moveScore b c)).
Proof.
  intros HM HN. unfold higestScoredMove. rewrite whileNext_sentinel by lia.
  destruct (higestScored_fold b (emptyCells b) (-1, y) EVAL_N_INF (-1, -1)
              (sorted_emptyCells b)) as (cur' & ms' & m' & E & Hmax & Hm').
  cbn [fst snd] in E. rewrite E. clear E. split.
  - intros Hnil. rewrite Hnil in Hm'.
    destruct Hm' as [[-> _] | (Hin & _)]; [reflexivity | contradiction].
  - intros Hne. destruct Hm' as [[-> ->] | (Hin & Hsc & Hlt & Hfirst)].
    + exfalso. destruct (emptyCells b) as [|c0 rest]; [congruence|].
      specialize (Hmax c0 (or_introl eq_refl)). unfold moveScore in Hmax.
      destruct (evaluateBoard_range (copyWithMove b PLAYER_US (fst c0) (snd c0)))
        as [_ Hr]; [lia | lia |].
      unfold EVAL_MAX, EVAL_N_INF in *. lia.
    + exists m'. subst ms'. repeat split; trivial.
      destruct m' as [mx my]. apply in_emptyCells in Hin as [[Hx _] _].
      cbn [fst snd]. destruct (Z.eqb_spec mx (-1)); [lia | reflexivity].
Qed.

(** X9. [backUpMove] returns 1 with the cursor on the first blank cell of
    the region in scan order, whatever the caller's cursor was; on a full
    board it returns 0 and leaves x = -1 and the caller's y. *)
Theorem backUpMove_first_blank b y :
  1 <= M -> 1 <= N ->
  backUpMove b y =
  match emptyCells b with
  | [] => Some (false, (-1, y))
  | c :: _ => Some (true, c)
  end.
Proof.
  intros HM HN. unfold backUpMove.
  destruct (nextPosition_spec b (-1, y) HM HN) as [[E1 E2] | (c' & E1 & _ & E3)].
  - now left.
  - rewrite pending_sentinel in E2. now rewrite E2.
  - rewrite pending_sentinel in E3. now rewrite E3.
Qed.

(** ** minimax: the range of the score and the move found *)

Lemma ageLoss_gt v : EVAL_N_INF <= v -> EVAL_N_INF < ageLoss v.
Proof. unfold ageLoss, EVAL_N_INF, EVAL_MIN. destruct (v <? -7230) eqn:E; lia. Qed.

Section ScoreBounds.

Variable childF : cursor -> option (Z * option cursor).
Variable cells : list cursor.
Hypothesis childF_bounds :
  forall c, In c cells ->
    exists v w, childF c = Some (v, w) /\ EVAL_N_INF <= v <= EVAL_INF.

Let stepMax : cursor -> Z * cursor -> option (Z * cursor * bool) :=
  fun c '(value, best) =>
    '(nodeValue, _) <- childF c ;;
    Some (if nodeValue >? value then (nodeValue, c) else (value, best), false).

Let stepMin : cursor -> Z * cursor -> option (Z * cursor * bool) :=
  fun c '(value, best) =>
    '(nodeValue, _) <- childF c ;;
    Some (if nodeValue <? value then (nodeValue, c) else (value, best), false).

(** The maximizing loop keeps the value in range, and keeps the initial
    move only when no child was worth more than the initial value. *)
Lemma stepMax_bounds : forall rest cur v m,
  incl rest cells -> EVAL_N_INF <= v <= EVAL_INF ->
  exists cur' v' m',
    foldCells stepMax rest cur (v, m) = Some (cur', (v', m'), false) /\
    v <= v' <= EVAL_INF /\
    ((m' = m /\ forall c nv w, In c rest -> childF c = Some (nv, w) -> nv <= v) \/
     In m' rest).
Proof.
  induction rest as [|c rest IH]; intros cur v m Hincl Hv; cbn [foldCells].
  - exists cur, v, m. split; [reflexivity|]. split; [lia|]. left. split; [reflexivity|].
    intros c nv w [].
  - destruct (childF_bounds c (Hincl c (or_introl eq_refl))) as (nv & w & E & Hnv).
    unfold stepMax at 1. rewrite E.
    assert (Hrest : incl rest cells) by (intros a Ha; apply Hincl; now right).
    destruct (Z.gtb_spec nv v) as [Hgt | Hle].
    + destruct (IH c nv c Hrest Hnv) as (cur' & v' & m' & E' & Hv' & Hm').
      exists cur', v', m'. split; [exact E'|]. split; [lia|].
      right. destruct Hm' as [[-> _] | Hm']; [now left | now right].
    + destruct (IH c v m Hrest Hv) as (cur' & v' & m' & E' & Hv' & Hm').
      exists cur', v', m'. split; [exact E'|]. split; [lia|].
      destruct Hm' as [[-> Hall] | Hm']; [left | right; now right].
      split; [reflexivity|]. intros c' nv' w' [<- | Hc'] E''.
      * rewrite E in E''. injection E'' as <- _. exact Hle.
      * exact (Hall c' nv' w' Hc' E'').
Qed.

Lemma stepMin_bounds : forall rest cur v m,
  incl rest cells -> EVAL_N_INF <= v <= EVAL_INF ->
  exists cur' v' m',
    foldCells stepMin rest cur (v, m) = Some (cur', (v', m'), false) /\
    EVAL_N_INF <= v' <= v.
Proof.
  induction rest as [|c rest IH]; intros cur v m Hincl Hv; cbn [foldCells].
  - exists cur, v, m. split; [reflexivity | lia].
  - destruct (childF_bounds c (Hincl c (or_introl eq_refl))) as (nv & w & E & Hnv).
    unfold stepMin at 1. rewrite E.
    assert (Hrest : incl rest cells) by (intros a Ha; apply Hincl; now right).
    destruct (Z.ltb_spec nv v) as [Hlt | Hge].
    + destruct (IH c nv c Hrest Hnv) as (cur' & v' & m' & E' & Hv').
      exists cur', v', m'. split; [exact E' | lia].
    + destruct (IH c v m Hrest Hv) as (cur' & v' & m' & E' & Hv').
      exists cur', v', m'. split; [exact E' | lia].
Qed.

End ScoreBounds.

(** The full search answers within the two sentinels, and EVAL_N_INF only
    for a board that [checkWin] gives to the opponent. *)
Lemma minimax_full_rec_bounds :
  1 <= M <= 15 -> 1 <= N <= 15 ->
  forall fuel b depth isMax,
    (length (emptyCells b) < fuel)%nat ->
    exists v w, minimax_full_rec fuel b depth isMax = Some (v, w) /\
                EVAL_N_INF <= v <= EVAL_INF /\
                (v = EVAL_N_INF -> checkWin b = PLAYER_THEM).
Proof.
  intros HM HN. induction fuel as [|fuel IH]; intros b depth isMax Hfuel; [lia|].
  cbn [minimax_full_rec].
  destruct (checkWin b =? PLAYER_US);
    [eexists _, _; split; [reflexivity | unfold EVAL_INF, EVAL_N_INF; split; [lia | discriminate]]|].
  destruct (Z.eqb_spec (checkWin b) PLAYER_THEM) as [Ethem | _];
    [eexists _, _; split; [reflexivity | unfold EVAL_INF, EVAL_N_INF; split; [lia | trivial]]|].
  destruct (checkWin b =? PLAYER_TIE);
    [eexists _, _; split; [reflexivity | unfold EVAL_INF, EVAL_N_INF; split; [lia | discriminate]]|].
  destruct (depth =? 0).
  { eexists _, _; split; [reflexivity|].
    destruct (evaluateBoard_range b ltac:(lia) ltac:(lia)) as [_ H].
    unfold EVAL_INF, EVAL_N_INF, EVAL_MAX in *. split; lia. }
  assert (Hchild : forall p isM, p <> 0 -> forall c, In c (emptyCells b) ->
            exists v w,
              minimax_full_rec fuel (copyWithMove b p (fst c) (snd c))
                (to_int (depth - 1)) isM = Some (v, w) /\ EVAL_N_INF <= v <= EVAL_INF).
  { intros p isM Hp [x y] Hc.
    destruct (IH (copyWithMove b p x y) (to_int (depth - 1)) isM) as (v & w & E & Hv & _).
    - pose proof (emptyCells_move b p x y Hc Hp). lia.
    - exists v, w. now split. }
  destruct (negb (isMax =? 0)); rewrite whileNext_sentinel by lia.
  - destruct (stepMax_bounds _ (emptyCells b)
                (Hchild PLAYER_US 0 ltac:(discriminate)) (emptyCells b) (-1, 0)
                EVAL_N_INF (-1, -1) (incl_refl _) ltac:(unfold EVAL_INF, EVAL_N_INF; lia))
      as (cur' & v' & m' & E & Hv & _).
    cbv beta in E. cbv zeta. rewrite E.
    eexists _, _. split; [reflexivity|].
    pose proof (ageLoss_gt v' ltac:(lia)). pose proof (ageLoss_le v' ltac:(lia)).
    split; lia.
  - destruct (stepMin_bounds _ (emptyCells b)
                (Hchild PLAYER_THEM 1 ltac:(discriminate)) (emptyCells b) (-1, 0)
                EVAL_INF (-1, -1) (incl_refl _) ltac:(unfold EVAL_INF, EVAL_N_INF; lia))
      as (cur' & v' & m' & E & Hv).
    cbv beta in E. cbv zeta. rewrite E.
    eexists _, _. split; [reflexivity|].
    pose proof (ageLoss_gt v' ltac:(lia)). pose proof (ageLoss_le v' ltac:(lia)).
    split; lia.
Qed.

(** On an undecided board the maximizing search of a non-zero depth writes
    a blank cell: our stone cannot complete a run of the opponent. *)
Lemma minimax_full_rec_finds :
  1 <= K -> 1 <= M <= 15 -> 1 <= N <= 15 ->
  forall fuel b depth,
    (length (emptyCells b) < S fuel)%nat ->
    checkWin b = PLAYER_NONE -> depth <> 0 ->
    exists v m, minimax_full_rec (S fuel) b depth 1 = Some (v, Some m) /\
                In m (emptyCells b).
Proof.
  intros HK HM HN fuel b depth Hfuel Hnone Hdepth.
  cbn [minimax_full_rec]. rewrite Hnone.
  change (PLAYER_NONE =? PLAYER_US) with false.
  change (PLAYER_NONE =? PLAYER_THEM) with false.
  change (PLAYER_NONE =? PLAYER_TIE) with false.
  change (negb (1 =? 0)) with true. cbv iota.
  destruct (Z.eqb_spec depth 0) as [|_]; [contradiction|].
  assert (Hless : forall c, In c (emptyCells b) ->
            (length (emptyCells (copyWithMove b PLAYER_US (fst c) (snd c))) < fuel)%nat).
  { intros [x y] Hc.
    pose proof (emptyCells_move b PLAYER_US x y Hc ltac:(discriminate)).
    cbn [fst snd]. lia. }
  assert (Hchild : forall c, In c (emptyCells b) ->
            exists v w,
              minimax_full_rec fuel (copyWithMove b PLAYER_US (fst c) (snd c))
                (to_int (depth - 1)) 0 = Some (v, w) /\ EVAL_N_INF <= v <= EVAL_INF).
  { intros c Hc.
    destruct (minimax_full_rec_bounds HM HN fuel _ (to_int (depth - 1)) 0 (Hless c Hc))
      as (v & w & E & Hv & _).
    exists v, w. now split. }
  rewrite whileNext_sentinel by lia.
  destruct (stepMax_bounds _ (emptyCells b) Hchild (emptyCells b) (-1, 0)
              EVAL_N_INF (-1, -1) (incl_refl _) ltac:(unfold EVAL_INF, EVAL_N_INF; lia))
    as (cur' & v' & m' & E & Hv & [[-> Hall] | Hin]).
  2:{ cbv beta in E. cbv zeta. rewrite E. eexists _, _. split; [reflexivity | exact Hin]. }
  exfalso.
  destruct (checkWin_cases b HK)
    as [[E1 _] | [[E1 _] | [[E1 _] | (_ & _ & Hnorun & x & y & Hreg & Hblank)]]];
    try (rewrite Hnone in E1; discriminate).
  assert (Hc : In (x, y) (emptyCells b)) by now apply in_emptyCells.
  destruct (minimax_full_rec_bounds HM HN fuel _ (to_int (depth - 1)) 0 (Hless _ Hc))
    as (v & w & Ev & Hvr & Hlost).
  cbv beta in Hall. specialize (Hall (x, y) v w Hc Ev).
  assert (Hthem : checkWin (copyWithMove b PLAYER_US x y) = PLAYER_THEM) by (apply Hlost; lia).
  destruct (checkWin_cases (copyWithMove b PLAYER_US x y) HK)
    as [[E1 _] | [[_ Hrun] | [[E1 _] | [E1 _]]]];
    try (rewrite Hthem in E1; discriminate).
  apply Hnorun. now apply (hasRun_move_other b PLAYER_US PLAYER_THEM x y).
Qed.

Lemma minimaxMove_undecided b c0 depth :
  1 <= K -> 1 <= M <= 15 -> 1 <= N <= 15 ->
  checkWin b = PLAYER_NONE -> depth <> 0 ->
  exists m, minimaxMove b c0 depth = Some (true, m) /\ In m (emptyCells b).
Proof.
  intros HK HM HN Hnone Hdepth. unfold minimaxMove, minimax.
  pose proof (length_emptyCells b ltac:(lia) ltac:(lia)) as Hfuel.
  rewrite minimax_rec_agrees by (trivial; unfold EVAL_INF, EVAL_N_INF; lia).
  unfold scanFuel in *.
  destruct (minimax_full_rec_finds HK HM HN _ b depth Hfuel Hnone Hdepth)
    as (v & [mx my] & E & Hin).
  rewrite E. exists (mx, my). split; [|exact Hin].
  apply in_emptyCells in Hin as [[Hx Hy] _]. cbn [fst snd].
  destruct (Z.eqb_spec mx (-1)); [lia|]. destruct (Z.eqb_spec my (-1)); [lia|]. reflexivity.
Qed.

Lemma minimaxMove_decided b c0 depth :
  1 <= K -> checkWin b <> PLAYER_NONE \/ depth = 0 ->
  minimaxMove b c0 depth = Some (negb (fst c0 =? -1) && negb (snd c0 =? -1), c0).
Proof.
  intros HK Hdec. unfold minimaxMove, minimax, scanFuel. cbn [minimax_rec].
  destruct (checkWin b =? PLAYER_US) eqn:E1; [reflexivity|].
  destruct (checkWin b =? PLAYER_THEM) eqn:E2; [reflexivity|].
  destruct (checkWin b =? PLAYER_TIE) eqn:E3; [reflexivity|].
  destruct Hdec as [Hdec | ->]; [|reflexivity].
  exfalso. destruct (checkWin_cases b HK) as [[E _] | [[E _] | [[E _] | [E _]]]];
    rewrite E in *; try discriminate. now apply Hdec.
Qed.

(** X10. Started with the window (EVAL_N_INF, EVAL_INF) on a board of at
    most 15 by 15 cells, [minimax] answers a score between EVAL_N_INF and
    EVAL_INF, and EVAL_N_INF itself only for a board that [checkWin] already
    gives to the opponent: a loss found by looking ahead is worth at least
    EVAL_N_INF + 1. *)
Theorem minimax_score_range b depth isMaximizePlayer :
  1 <= M <= 15 -> 1 <= N <= 15 ->
  exists v w,
    minimax b depth EVAL_N_INF EVAL_INF isMaximizePlayer = Some (v, w) /\
    EVAL_N_INF <= v <= EVAL_INF /\
    (v = EVAL_N_INF -> checkWin b = PLAYER_THEM).
Proof.
  intros HM HN. unfold minimax.
  pose proof (length_emptyCells b ltac:(lia) ltac:(lia)) as Hfuel.
  rewrite minimax_rec_agrees by (trivial; unfold EVAL_INF, EVAL_N_INF; lia).
  now apply minimax_full_rec_bounds.
Qed.

(** X11. On a board that [checkWin] leaves undecided, with a depth other
    than 0, [minimaxMove] returns true with the cursor on a blank cell of the
    region.  On a decided board, or with depth 0, [minimax] writes no move:
    the cursor keeps what the caller left in it, and the returned truth value
    only says that neither coordinate of it is -1. *)
Theorem minimaxMove_moves b c0 depth :
  1 <= K -> 1 <= M <= 15 -> 1 <= N <= 15 ->
  (checkWin b = PLAYER_NONE -> depth <> 0 ->
   exists m, minimaxMove b c0 depth = Some (true, m) /\ In m (emptyCells b)) /\
  (checkWin b <> PLAYER_NONE \/ depth = 0 ->
   minimaxMove b c0 depth = Some (negb (fst c0 =? -1) && negb (snd c0 =? -1), c0)).
Proof.
  intros HK HM HN. split.
  - intros Hnone Hdepth. now apply minimaxMove_undecided.
  - intros Hdec. now apply minimaxMove_decided.
Qed.

(** ** The fallbacks of the cascade *)

(** X12. For K >= 1 on a board of at most 15 by 15 cells the cascade of
    [main] never reaches [higestScoredMove] or [backUpMove] with a move to
    find: on a full board every stage fails, and on a board with a blank
    cell the move comes from [basicSolve] or from [minimaxMove]. *)
Theorem solveBoard_never_falls_back b y :
  1 <= K -> 1 <= M <= 15 -> 1 <= N <= 15 ->
  (emptyCells b = [] -> solveBoard b y = Some None) /\
  (emptyCells b <> [] ->
   exists st c, solveBoard b y = Some (Some (st, c)) /\
                (st = ByBasicSolve \/ st = ByMinimax)).
Proof.
  intros HK HM HN. unfold solveBoard.
  destruct (basicSolve_spec b y ltac:(lia) ltac:(lia)) as (r & c0 & E & Hr).
  rewrite E. clear E. split.
  - intros Hnil. rewrite Hnil in Hr. destruct Hr as [[_ []] | [-> ->]].
    cbn [Z.eqb negb last].
    rewrite minimaxMove_decided; trivial.
    2:{ left. intros Hnone.
        destruct (checkWin_cases b HK)
          as [[E1 _] | [[E1 _] | [[E1 _] | (_ & _ & _ & x & y' & Hreg & Hblank)]]];
          try (rewrite Hnone in E1; discriminate).
        assert (Hin : In (x, y') (emptyCells b)) by now apply in_emptyCells.
        rewrite Hnil in Hin. contradiction. }
    cbn [fst snd]. change (negb (-1 =? -1)) with false. cbn [andb].
    destruct (higestScoredMove_spec b y ltac:(lia) ltac:(lia)) as (c & -> & Hc).
    rewrite Hnil in Hc. destruct Hc as [-> | []]. cbn [fst snd].
    change (negb (-1 =? -1)) with false. cbv iota.
    destruct (backUpMove_spec b (-1) ltac:(lia) ltac:(lia)) as [[_ ->] | (c & _ & Hc)];
      [reflexivity|].
    rewrite Hnil in Hc. contradiction.
  - intros Hne. destruct Hr as [[-> Hin] | [-> ->]].
    + exists ByBasicSolve, c0. split; [reflexivity | now left].
    + cbn [Z.eqb negb].
      pose proof (last_in (emptyCells b) (-1, y) Hne) as Hlast.
      set (c0 := last (emptyCells b) (-1, y)) in *.
      set (depth := calculateDepth (countEmpty b) MAX_MINIMAX_SEARCH_NODES).
      destruct (Z.eq_dec (checkWin b) PLAYER_NONE) as [Hnone | Hdec].
      * destruct (Z.eq_dec depth 0) as [Hzero | Hdepth].
        -- rewrite minimaxMove_decided by auto.
           destruct c0 as [x0 y0]. apply in_emptyCells in Hlast as [[Hx Hy] _].
           cbn [fst snd]. destruct (Z.eqb_spec x0 (-1)); [lia|].
           destruct (Z.eqb_spec y0 (-1)); [lia|]. cbn [negb andb].
           eexists _, _. split; [reflexivity | now right].
        -- destruct (minimaxMove_undecided b c0 depth HK HM HN Hnone Hdepth) as (m & -> & _).
           eexists _, _. split; [reflexivity | now right].
      * rewrite minimaxMove_decided by auto.
        destruct c0 as [x0 y0]. apply in_emptyCells in Hlast as [[Hx Hy] _].
        cbn [fst snd]. destruct (Z.eqb_spec x0 (-1)); [lia|].
        destruct (Z.eqb_spec y0 (-1)); [lia|]. cbn [negb andb].
        eexists _, _. split; [reflexivity | now right].
Qed.

(** ** evaluateBoard: lines shorter than K *)

Lemma evalCells_short cast b : forall cells st fs,
  0 <= runLen1 st -> 0 <= runLen2 st ->
  runLen1 st + Z.of_nat (length cells) < K ->
  runLen2 st + Z.of_nat (length cells) < K ->
  exists st', evalCells cast b cells st fs = (st', fs) /\
              runLen1 st' < K /\ runLen2 st' < K.
Proof.
  induction cells as [|[x y] rest IH]; intros st fs H1 H2 L1 L2; cbn [evalCells].
  - exists st. cbn [length] in *. repeat split; lia.
  - cbn [length] in L1, L2. unfold evalRunBody.
    destruct (Z.geb_spec (runLen1 st) K); [lia|].
    destruct (Z.geb_spec (runLen2 st) K); [lia|].
    destruct (owns (b x y) PLAYER_US); [|destruct (owns (b x y) PLAYER_THEM)];
      cbv zeta; apply IH; cbn [runLen1 runLen2]; lia.
Qed.

Lemma evalLine_short cast b fs line :
  Z.of_nat (length line) < K -> evalLine cast b fs line = fs.
Proof.
  intros Hlen. unfold evalLine.
  destruct (evalCells_short cast b line counters0 fs) as (st' & -> & L1 & L2);
    cbn [counters0 runLen1 runLen2]; try lia.
  unfold evalEndRun.
  destruct (Z.geb_spec (runLen2 st') K); [lia|].
  destruct (Z.geb_spec (runLen1 st') K); [lia|]. reflexivity.
Qed.

Lemma evalLines_short cast b lines : forall fs,
  (forall line, In line lines -> Z.of_nat (length line) < K) ->
  evalLines cast b lines fs = fs.
Proof.
  unfold evalLines. induction lines as [|line rest IH]; intros fs Hshort; cbn [fold_left].
  - reflexivity.
  - rewrite evalLine_short by (apply Hshort; now left).
    apply IH. intros l Hl. apply Hshort. now right.
Qed.

Lemma scanOrder_short :
  1 <= K -> M < K -> N < K ->
  forall line, In line scanOrder -> Z.of_nat (length line) < K.
Proof.
  intros HK HM HN line Hline. unfold scanOrder in Hline.
  rewrite !in_app_iff in Hline. destruct Hline as [H | [H | [H | H]]].
  - apply in_rows in H as (y & _ & ->). rewrite length_map, range_length. lia.
  - apply in_columns in H as (x & _ & ->). rewrite length_map, range_length. lia.
  - apply in_diagsDownLeft in H as (i & Hi & ->). rewrite length_map, range_length.
    destruct (Z.ltb_spec i M); destruct (Z.ltb_spec i N); lia.
  - apply in_diagsDownRight in H as (i & Hi & ->). rewrite length_map, range_length.
    destruct (Z.ltb_spec i M); destruct (Z.ltb_spec i N); lia.
Qed.

(** X15. No sum of [evaluateBoard] leaves the range of an [int] on a board
    of at most 15 by 15 cells: the value is that of the same sums over the
    integers.  And when K >= 1 exceeds both M and N, no line of the board
    can hold K cells, the four line loops add nothing, and the value is the
    position score of the first loop nest alone. *)
Theorem evaluateBoard_no_wrap_short_lines b :
  (0 <= M <= 15 -> 0 <= N <= 15 -> evaluateBoard b = evaluateBoard_ideal b) /\
  (1 <= K -> M < K -> N < K -> evaluateBoard b = pieceScore b).
Proof.
  split.
  - intros HM HN. now destruct (evaluateBoard_range b HM HN) as [E _].
  - intros HK HM HN. unfold evaluateBoard, evaluateBoard_gen, pieceScore. cbv zeta.
    pose proof (scanOrder_short HK HM HN) as Hshort. unfold scanOrder in Hshort.
    rewrite !evalLines_short; [reflexivity | | | |];
      intros line Hline; apply Hshort; rewrite !in_app_iff; auto.
Qed.

(** ** checkWin on degenerate parameters *)

Lemma scanOrder_empty_region line :
  M <= 0 \/ N <= 0 -> In line scanOrder -> line = [].
Proof.
  intros Hempty Hline. destruct line as [|[x y] rest]; [reflexivity|].
  assert (H : inRegion x y) by (apply (in_scanOrder_region _ x y Hline); now left).
  unfold inRegion in H. lia.
Qed.

Lemma scanLines_all_nil b lines :
  (forall line, In line lines -> line = []) ->
  scanLines b lines = None /\ concat lines = [].
Proof.
  induction lines as [|line lines IH]; intros H; cbn [scanLines concat]; [now split|].
  rewrite (H line (or_introl eq_refl)). cbn [scanLine app].
  apply IH. intros l Hl. apply H. now right.
Qed.

(** X23. The parameters come from the document unchecked, and [checkWin]
    does not check them either.  On an empty region (M <= 0 or N <= 0) it
    answers PLAYER_TIE whatever the board and K are; with K <= 0 on a
    region with a cell it answers PLAYER_US for every board, since the count
    of the first cell scanned already reaches K. *)
Theorem checkWin_degenerate b :
  (M <= 0 \/ N <= 0 -> checkWin b = PLAYER_TIE) /\
  (1 <= M -> 1 <= N -> K <= 0 -> checkWin b = PLAYER_US).
Proof.
  split.
  - intros Hempty. rewrite checkWin_scanOrder.
    destruct (scanLines_all_nil b scanOrder) as [-> _];
      [intros line; now apply scanOrder_empty_region|].
    destruct (scanLines_all_nil b diagsDownRight) as [_ ->]; [|reflexivity].
    intros line Hline. apply (scanOrder_empty_region line Hempty).
    unfold scanOrder. rewrite !in_app_iff. auto.
  - intros HM HN HK. unfold checkWin, rows.
    rewrite (range_cons 0 N) by lia. cbn [map].
    rewrite (range_cons 0 M) by lia. cbn [map scanLines scanLine]. cbv zeta.
    assert (H : (bump (b 0 0) PLAYER_US 0 >=? K) = true).
    { unfold bump. destruct (owns (b 0 0) PLAYER_US); lia. }
    now rewrite H.
Qed.

(** ** The prototype of checkWin *)

Lemma checkWin_proto_square b : M = N -> checkWin_proto b = checkWin b.
Proof.
  intros E. unfold checkWin_proto, checkWin, columns_proto, columns.
  rewrite E. reflexivity.
Qed.

(** ** basicSolve of the prototype *)

Lemma countWins_proto_count s0 player :
  M = N -> 1 <= M -> countWins_proto s0 player = Some (winCount s0 player).
Proof.
  intros Hsq HM. unfold countWins_proto. rewrite whileNext_sentinel by lia.
  match goal with
  | |- context [foldCells ?body ?cells ?start ?init] =>
      destruct (foldCells_count body (winsAt s0 player) (fun z => z) cells)
        with (cur := start) (s := init) as (cur' & s' & -> & Hs')
  end.
  - intros [sx sy] s. eexists. split; [reflexivity|].
    unfold winsAt. cbn [fst snd]. now rewrite checkWin_proto_square.
  - unfold winCount. now rewrite Hs'.
Qed.

Lemma basicSolve_proto_firstFound b y :
  M = N -> 1 <= M ->
  basicSolve_proto b y =
  Some (match firstFound [winsAt b PLAYER_US; winsAt b PLAYER_THEM;
                          forksAt b PLAYER_US; forksAt b PLAYER_THEM] (emptyCells b) with
        | Some c => (1, c)
        | None => (0, last (emptyCells b) (-1, y))
        end).
Proof.
  intros Hsq HM.
  assert (HN : 1 <= N) by lia.
  assert (Hwin : forall p c, winTest_proto b p c = Some (winsAt b p c)).
  { intros p c. unfold winTest_proto, winsAt. cbv zeta. now rewrite checkWin_proto_square. }
  assert (Hfork : forall p c, forkTest_proto b p c = Some (forksAt b p c)).
  { intros p c. unfold forkTest_proto, forksAt. cbv zeta.
    now rewrite countWins_proto_count. }
  unfold basicSolve_proto. cbn [firstFound].
  rewrite (searchMove_find b _ (winsAt b PLAYER_US)) by auto.
  destruct (find (winsAt b PLAYER_US) _); [reflexivity|]. cbn [snd].
  rewrite (searchMove_find b _ (winsAt b PLAYER_THEM)) by auto.
  destruct (find (winsAt b PLAYER_THEM) _); [reflexivity|].
  rewrite last_emptyCells_again. cbn [snd].
  rewrite (searchMove_find b _ (forksAt b PLAYER_US)) by auto.
  destruct (find (forksAt b PLAYER_US) _); [reflexivity|].
  rewrite last_emptyCells_again. cbn [snd].
  rewrite (searchMove_find b _ (forksAt b PLAYER_THEM)) by auto.
  destruct (find (forksAt b PLAYER_THEM) _); [reflexivity|].
  now rewrite last_emptyCells_again.
Qed.

Lemma find_implied {A} (t t' : A -> bool) l :
  (forall a, t a = true -> t' a = true) ->
  find t' l = None -> find t l = None.
Proof.
  intros Himp. induction l as [|a l IH]; cbn [find]; [reflexivity|].
  destruct (t a) eqn:Eta.
  - now rewrite (Himp a Eta).
  - destruct (t' a); [discriminate | exact IH].
Qed.

Lemma forksAt_blockForkAt b c :
  forksAt b PLAYER_THEM c = true -> blockForkAt b PLAYER_US c = true.
Proof.
  unfold forksAt, blockForkAt. cbv zeta. intros H.
  destruct (Z.eqb_spec (winCount (copyWithMove b PLAYER_THEM (fst c) (snd c)) PLAYER_THEM) 1)
    as [E | _]; [|exact H].
  rewrite E in H. discriminate.
Qed.

(** X20. On a square board (where the prototype's [checkWin] is that of
    board.c) the prototype's [basicSolve] runs the same first three loops as
    board.c's, so a win, a block or a fork it finds is the move board.c
    finds; its fourth loop accepts a cell only if the opponent gets two
    winning cells there, which the fifth loop of board.c accepts as well.
    Hence whenever board.c's [basicSolve] returns 0, so does the
    prototype's, with the same cursor. *)
Theorem basicSolve_proto_refined b y :
  M = N -> 1 <= M ->
  (forall c, firstFound [winsAt b PLAYER_US; winsAt b PLAYER_THEM; forksAt b PLAYER_US]
               (emptyCells b) = Some c ->
             basicSolve_proto b y = Some (1, c) /\ basicSolve b y = Some (1, c)) /\
  (forall c, basicSolve b y = Some (0, c) -> basicSolve_proto b y = Some (0, c)) /\
  (forall c, basicSolve_proto b y = Some (1, c) -> exists c', basicSolve b y = Some (1, c')).
Proof.
  intros Hsq HM. assert (HN : 1 <= N) by lia.
  rewrite (basicSolve_proto_firstFound b y Hsq HM), (basicSolve_firstFound b y HM HN).
  unfold tiers. cbn [firstFound].
  assert (Hfound : forall c1 : Z * Z,
            (forall c, Some c1 = Some c ->
                       Some (1, c1) = Some (1, c) /\ Some (1, c1) = Some (1, c)) /\
            (forall c, Some (1, c1) = Some (0, c) -> Some (1, c1) = Some (0, c)) /\
            (forall c, Some (1, c1) = Some (1, c) ->
                       exists c', Some (1, c1) = Some (1, c'))).
  { intros c1. split; [|split].
    - intros c E. injection E as <-. now split.
    - intros c E. discriminate E.
    - intros c _. now exists c1. }
  destruct (find (winsAt b PLAYER_US) _) as [c1|]; [apply Hfound|].
  destruct (find (winsAt b PLAYER_THEM) _) as [c1|]; [apply Hfound|].
  destruct (find (forksAt b PLAYER_US) _) as [c1|]; [apply Hfound|].
  clear Hfound. split; [discriminate|].
  destruct (find (blockForkAt b PLAYER_US) (emptyCells b)) as [c5|] eqn:E5.
  - split; [discriminate | eauto].
  - rewrite (find_implied _ _ _ (forksAt_blockForkAt b) E5).
    split; [|discriminate].
    destruct (find (blockForkAt b PLAYER_THEM) _); [discriminate | trivial].
Qed.

(** ** Too few stones for basicSolve *)

Lemma NoDup_map_inj {A B} (f : A -> B) l :
  (forall a a', In a l -> In a' l -> f a = f a' -> a = a') ->
  NoDup l -> NoDup (map f l).
Proof.
  intros Hinj Hnd. induction Hnd as [|a l Hnotin Hnd IH]; cbn [map]; constructor.
  - intros Hin. apply in_map_iff in Hin as (a' & E & Ha').
    apply Hnotin. rewrite (Hinj a a'); auto; [now left | now right].
  - apply IH. intros a1 a2 H1 H2. apply Hinj; now right.
Qed.

(** A run needs K stones. *)
Lemma runFrom_stoneCount b p x y dx dy :
  dx = 1 \/ dy = 1 -> runFrom b p x y dx dy -> K <= stoneCount b p.
Proof.
  intros Hd Hrun. unfold stoneCount.
  set (cells := map (fun t => (x + t * dx, y + t * dy)) (range 0 K)).
  assert (Hlen : length cells = Z.to_nat K).
  { unfold cells. rewrite length_map, range_length. f_equal. lia. }
  assert (Hnd : NoDup cells).
  { apply NoDup_map_inj; [|apply NoDup_range].
    intros t t' _ _ E. injection E as E1 E2. destruct Hd as [-> | ->]; lia. }
  pose proof (NoDup_incl_length Hnd
                (l' := filter (fun c => owns (b (fst c) (snd c)) p) scanCells)) as Hle.
  rewrite Hlen in Hle.
  destruct (Z.le_gt_cases K 0); [lia|].
  assert (Hincl : incl cells (filter (fun c => owns (b (fst c) (snd c)) p) scanCells)).
  { intros c Hc. apply in_map_iff in Hc as (t & <- & Ht). apply in_range in Ht.
    destruct (Hrun t Ht) as [Hreg Hstone]. apply filter_In. split.
    - now apply in_scanCells.
    - exact Hstone. }
  specialize (Hle Hincl). lia.
Qed.

Lemma hasRun_stoneCount b p : hasRun b p -> K <= stoneCount b p.
Proof.
  intros (x & y & [H | [H | [H | H]]]);
    apply (runFrom_stoneCount b p x y _ _) in H; auto.
Qed.

Lemma filter_length_one_more (f g : Z * Z -> bool) l x :
  NoDup l -> (forall a, a <> x -> g a = f a) ->
  (length (filter g l) <= S (length (filter f l)))%nat.
Proof.
  intros Hnd Hrest. induction Hnd as [|a l Hnotin Hnd IH]; cbn [filter length]; [lia|].
  assert (Hdec : a = x \/ a <> x).
  { destruct a as [a1 a2], x as [x1 x2].
    destruct (Z.eq_dec a1 x1) as [-> | H1]; [|right; congruence].
    destruct (Z.eq_dec a2 x2) as [-> | H2]; [now left | right; congruence]. }
  destruct Hdec as [-> | Hne].
  - assert (E : filter g l = filter f l).
    { apply filter_ext_in. intros a Ha. apply Hrest. congruence. }
    rewrite E. destruct (g x), (f x); cbn [length]; lia.
  - rewrite (Hrest a Hne). destruct (f a); cbn [length]; lia.
Qed.

Lemma stoneCount_move b p q x y :
  stoneCount (copyWithMove b p x y) q <= stoneCount b q + 1.
Proof.
  unfold stoneCount.
  pose proof (filter_length_one_more
                (fun c => owns (b (fst c) (snd c)) q)
                (fun c => owns (copyWithMove b p x y (fst c) (snd c)) q)
                scanCells (x, y)) as H.
  assert (Hle : (length (filter (fun c => owns (copyWithMove b p x y (fst c) (snd c)) q)
                                scanCells)
                 <= S (length (filter (fun c => owns (b (fst c) (snd c)) q) scanCells)))%nat).
  { apply H.
    - apply (StronglySorted_NoDup scanBefore); [|apply sorted_rows].
      intros a [Ha | [_ Ha]]; lia.
    - intros [x' y'] Hne. unfold copyWithMove. cbn [fst snd].
      destruct ((x' =? x) && (y' =? y)) eqn:E; [|reflexivity].
      exfalso. apply Hne. f_equal; lia. }
  lia.
Qed.

Lemma winsAt_stones b p c :
  1 <= K -> p = PLAYER_US \/ p = PLAYER_THEM ->
  winsAt b p c = true -> K <= stoneCount b p + 1.
Proof.
  intros HK Hp Hwin. unfold winsAt in Hwin. apply Z.eqb_eq in Hwin.
  pose proof (stoneCount_move b p p (fst c) (snd c)) as Hmove.
  enough (hasRun (copyWithMove b p (fst c) (snd c)) p)
    by (pose proof (hasRun_stoneCount _ _ H); lia).
  destruct (checkWin_cases (copyWithMove b p (fst c) (snd c)) HK)
    as [[E Hr] | [[E Hr] | [[E _] | [E _]]]];
    destruct Hp as [-> | ->]; trivial; rewrite E in Hwin; discriminate.
Qed.

Lemma filter_none {A} (f : A -> bool) l :
  (forall a, In a l -> f a = false) -> filter f l = [].
Proof.
  induction l as [|a l IH]; intros H; cbn [filter]; [reflexivity|].
  rewrite (H a (or_introl eq_refl)). apply IH. intros a' Ha'. apply H. now right.
Qed.

Lemma winCount_few b p :
  1 <= K -> p = PLAYER_US \/ p = PLAYER_THEM ->
  stoneCount b p + 1 < K -> winCount b p = 0.
Proof.
  intros HK Hp Hfew. unfold winCount. rewrite filter_none; [reflexivity|].
  intros c _. destruct (winsAt b p c) eqn:E; [|reflexivity].
  pose proof (winsAt_stones b p c HK Hp E). lia.
Qed.

Lemma forksAt_few b p c :
  1 <= K -> p = PLAYER_US \/ p = PLAYER_THEM ->
  stoneCount b p + 2 < K -> forksAt b p c = false.
Proof.
  intros HK Hp Hfew. unfold forksAt. rewrite winCount_few; trivial.
  pose proof (stoneCount_move b p p (fst c) (snd c)). lia.
Qed.

Lemma blockForkAt_few b replier c :
  1 <= K -> stoneCount b PLAYER_THEM + 2 < K -> blockForkAt b replier c = false.
Proof.
  intros HK Hfew. unfold blockForkAt. cbv zeta. rewrite winCount_few; auto.
  pose proof (stoneCount_move b PLAYER_THEM PLAYER_THEM (fst c) (snd c)). lia.
Qed.

Lemma find_never {A} (f : A -> bool) l : (forall a, f a = false) -> find f l = None.
Proof.
  intros H. induction l as [|a l IH]; cbn [find]; [reflexivity|]. now rewrite H.
Qed.

(** X22. Early in the game [basicSolve] has nothing to find: while each
    player has fewer than K - 2 stones in the region, no blank cell wins,
    blocks, forks or blocks a fork, and [basicSolve] returns 0 with the
    cursor on the last blank cell.  On a square board the same holds of the
    prototype's [basicSolve]; its [main] (M = N = K = 15, one stone) is such
    a case. *)
Theorem basicSolve_needs_stones b y :
  1 <= M -> 1 <= N ->
  stoneCount b PLAYER_US + 2 < K -> stoneCount b PLAYER_THEM + 2 < K ->
  basicSolve b y = Some (0, last (emptyCells b) (-1, y)) /\
  (M = N -> basicSolve_proto b y = Some (0, last (emptyCells b) (-1, y))).
Proof.
  intros HM HN Hus Hthem.
  assert (HK : 1 <= K).
  { unfold stoneCount in Hus. lia. }
  assert (H1 : forall c, winsAt b PLAYER_US c = false).
  { intros c. destruct (winsAt b PLAYER_US c) eqn:E; [|reflexivity].
    pose proof (winsAt_stones b PLAYER_US c HK ltac:(auto) E). lia. }
  assert (H2 : forall c, winsAt b PLAYER_THEM c = false).
  { intros c. destruct (winsAt b PLAYER_THEM c) eqn:E; [|reflexivity].
    pose proof (winsAt_stones b PLAYER_THEM c HK ltac:(auto) E). lia. }
  split.
  - rewrite basicSolve_firstFound by assumption. unfold tiers. cbn [firstFound].
    rewrite (find_never _ _ H1), (find_never _ _ H2).
    rewrite (find_never (forksAt b PLAYER_US))
      by (intros c; apply forksAt_few; auto).
    rewrite !find_never; trivial; intros c; apply blockForkAt_few; trivial.
  - intros Hsq. rewrite basicSolve_proto_firstFound by assumption. cbn [firstFound].
    rewrite (find_never _ _ H1), (find_never _ _ H2).
    rewrite !find_never; trivial; intros c; apply forksAt_few; auto.
Qed.

End Game.

(** ** Concrete boards *)

Lemma validBoard_boardOf M N cols :
  forallb (forallb (fun c => (c =? 0) || (c =? 1) || (c =? 2) || (c =? 4))) cols = true ->
  validBoard M N (boardOf cols).
Proof.
  intros H x y _. unfold boardOf.
  destruct ((x <? 0) || (y <? 0)); [now left|].
  rewrite forallb_forall in H.
  destruct (nth_in_or_default (Z.to_nat x) cols []) as [Hin | ->].
  - specialize (H _ Hin). rewrite forallb_forall in H.
    destruct (nth_in_or_default (Z.to_nat y) (nth (Z.to_nat x) cols []) 0) as [Hin' | ->];
      [|now left].
    specialize (H _ Hin'). unfold PLAYER_NONE, PLAYER_US, PLAYER_THEM, PLAYER_TIE. lia.
  - destruct (Z.to_nat y); now left.
Qed.

(** C10. On the board 2 wide and 3 high whose column x = 1 is ours, with
    K = 3, [checkWin] of board.c answers PLAYER_US and [checkWin] of the
    prototype, whose column loop runs x to N and y to M, answers
    PLAYER_NONE. *)
Theorem checkWin_proto_misses_column :
  checkWin 2 3 3 tallBoard = PLAYER_US /\ checkWin_proto 2 3 3 tallBoard = PLAYER_NONE.
Proof. split; reflexivity. Qed.

(** ** calculateDepth *)

Lemma calculateDepth_zero budget : calculateDepth 0 budget = 0.
Proof. reflexivity. Qed.

Section DepthControllerFacts.

Variable cast : Z -> Z.
Hypothesis cast_pred : forall o, 1 <= o <= 2147483647 -> cast (o - 1) = o - 1.

Lemma calculateDepth_loop_range n : forall i openNodes searched budget,
  i + Z.of_nat n = 20 -> 1 <= i ->
  let d := calculateDepth_loop cast n i openNodes searched budget in
  (0 <= d <= 18 \/ d = 20).
Proof.
  induction n as [|n IH]; intros i o s budget Hi H1; cbn [calculateDepth_loop].
  - now right.
  - destruct (o =? 0); [left; lia|].
    destruct (s >=? budget); [left; lia|].
    apply IH; lia.
Qed.

(** When the budget is never reached the depth is the number of open
    cells up to 18, and 20 from 19 open cells on. *)
Lemma calculateDepth_loop_large m : forall i openNodes searched budget,
  0 <= openNodes <= 2147483647 ->
  (forall j, (j < m)%nat -> Z.of_nat j < openNodes ->
     searchedAt cast j openNodes searched < budget) ->
  calculateDepth_loop cast m i openNodes searched budget
  = if openNodes <? Z.of_nat m then i - 1 + openNodes else 20.
Proof.
  induction m as [|m IH]; intros i o s budget Ho Hb; cbn [calculateDepth_loop].
  - destruct (Z.ltb_spec o (Z.of_nat 0)); [lia | reflexivity].
  - destruct (Z.eqb_spec o 0) as [-> | Hz].
    { destruct (Z.ltb_spec 0 (Z.of_nat (S m))); lia. }
    pose proof (Hb 0%nat ltac:(lia) ltac:(lia)) as H0. cbn [searchedAt] in H0.
    destruct (Z.geb_spec s budget); [lia|].
    rewrite (cast_pred o) by lia.
    rewrite IH.
    + destruct (Z.ltb_spec (o - 1) (Z.of_nat m)), (Z.ltb_spec o (Z.of_nat (S m))); lia.
    + lia.
    + intros j Hj Hjo. specialize (Hb (S j) ltac:(lia) ltac:(lia)).
      cbn [searchedAt] in Hb. now rewrite (cast_pred o) in Hb by lia.
Qed.

End DepthControllerFacts.

(** The depth is at most 20, and it is never 19. *)
Lemma calculateDepth_range openNodes budget :
  0 <= calculateDepth openNodes budget <= 18 \/ calculateDepth openNodes budget = 20.
Proof. apply (calculateDepth_loop_range to_int 19 1); lia. Qed.

Lemma calculateDepth_large_budget n budget :
  0 <= n <= 2147483647 ->
  (forall j, (j < 19)%nat -> Z.of_nat j < n -> searchedAt to_int j n n < budget) ->
  calculateDepth n budget = if n <? 19 then n else 20.
Proof.
  intros Hn Hb. unfold calculateDepth, calculateDepth_gen.
  rewrite calculateDepth_loop_large; trivial.
  intros o Ho. apply to_int_small. lia.
Qed.

(** C8. With 19 open cells the depth is 20, where min(19, 20) is 19: with
    32-bit ints and the largest budget an int can hold, and also over the
    integers with a budget above 19 factorial, which the projected count
    19 * 18 * ... never reaches. *)
Theorem calculateDepth_nineteen :
  calculateDepth 19 2147483647 = 20 /\
  calculateDepth_ideal 19 121645100408832001 = 20 /\
  Z.min 19 20 = 19.
Proof. repeat split; reflexivity. Qed.

(** ** The minimizing branch of minimax *)

(** The minimizing branch keeps the lowest value and assigns the minimum of
    [alpha] and that value to [alpha]; [beta] stays as it was passed. *)
Lemma minStep_lowers_alpha beta nodeValue c s :
  let s' := fst (minStep beta nodeValue c s) in
  value s' = Z.min nodeValue (value s) /\
  alpha s' = Z.min (alpha s) (value s') /\
  snd (minStep beta nodeValue c s) = (alpha s' >=? beta).
Proof.
  unfold minStep. cbn [fst snd].
  destruct (Z.ltb_spec nodeValue (value s)); cbn [value alpha]; repeat split; lia.
Qed.

(** The maximizing branch keeps the highest value and raises [alpha]. *)
Lemma maxStep_raises_alpha beta nodeValue c s :
  let s' := fst (maxStep beta nodeValue c s) in
  value s' = Z.max nodeValue (value s) /\
  alpha s' = Z.max (alpha s) (value s') /\
  snd (maxStep beta nodeValue c s) = (alpha s' >=? beta).
Proof.
  unfold maxStep. cbn [fst snd].
  destruct (Z.gtb_spec nodeValue (value s)); cbn [value alpha]; repeat split; lia.
Qed.

(** C4. 3 by 3 board, K = 3, search of depth 2 from the blank board.  Our
    first move, (0,0), is worth -3, so our second move, (1,0), is searched
    with the lower bound -3 and the upper bound EVAL_INF.  Their fourth
    reply to it, (1,1), is worth -5, less than the lower bound; the loop
    nevertheless goes on to the four replies left and ends by exhaustion
    on (2,2), with [alpha] lowered to -5. *)
Theorem minimizeLoop_lowers_alpha_not_beta :
  minimizeLoop 3 3 (minimax_rec 3 3 3 8) (copyWithMove emptyBoard PLAYER_US 0 0)
    1 EVAL_N_INF EVAL_INF
  = Some ((2, 2), mkSearch (-3) (1, 1) EVAL_N_INF, false) /\
  evaluateBoard 3 3 3 (copyWithMove edgeBoard PLAYER_THEM 1 1) = -5 /\
  minimizeLoop 3 3 (minimax_rec 3 3 3 8) edgeBoard 1 (-3) EVAL_INF
  = Some ((2, 2), mkSearch (-5) (1, 1) (-5), false).
Proof. repeat split; vm_compute; reflexivity. Qed.

(** ** The theorems at concrete boards *)

Lemma validBoard_midgameBoard : validBoard 3 3 midgameBoard.
Proof. apply validBoard_boardOf. reflexivity. Qed.

(** [checkWin_outcome] on the full 2 by 2 board with K = 3: no run fits,
    no cell is blank, the board is tied. *)
Lemma checkWin_outcome_witness :
  1 <= 3 /\ validBoard 2 2 fullBoard /\ checkWin 2 2 3 fullBoard = PLAYER_TIE.
Proof.
  assert (Hvalid : validBoard 2 2 fullBoard) by (apply validBoard_boardOf; reflexivity).
  assert (Hnone : forall p, ~ hasRun 2 2 3 fullBoard p).
  { intros p (x & y & [H | [H | [H | H]]]);
      destruct (H 0 ltac:(lia)) as [[? ?] _]; destruct (H 2 ltac:(lia)) as [[? ?] _]; lia. }
  split; [lia|]. split; [exact Hvalid|].
  destruct (checkWin_outcome 2 2 3 fullBoard ltac:(lia) Hvalid) as (_ & _ & _ & Htie & _).
  apply Htie; [apply Hnone | apply Hnone |].
  intros x y [Hx Hy].
  assert (Hc : (x = 0 \/ x = 1) /\ (y = 0 \/ y = 1)) by lia.
  destruct Hc as [[-> | ->] [-> | ->]]; discriminate.
Defined.

(** [evaluateBoard_antisymmetric] on [midgameBoard]. *)
Lemma evaluateBoard_antisymmetric_witness :
  0 <= 3 <= 15 /\ validBoard 3 3 midgameBoard /\
  evaluateBoard 3 3 3 (swapPlayers midgameBoard) = - evaluateBoard 3 3 3 midgameBoard.
Proof.
  split; [lia|]. split; [exact validBoard_midgameBoard|].
  exact (evaluateBoard_antisymmetric 3 3 3 midgameBoard ltac:(lia) ltac:(lia)
           validBoard_midgameBoard).
Defined.

(** [minimax_agrees_with_full_search] on [midgameBoard] at depth 3. *)
Lemma minimax_agrees_with_full_search_witness :
  1 <= 3 <= 15 /\
  minimax 3 3 3 midgameBoard 3 EVAL_N_INF EVAL_INF 1 = minimax_full 3 3 3 midgameBoard 3 1.
Proof.
  split; [lia|].
  exact (proj1 (minimax_agrees_with_full_search 3 3 3 midgameBoard 3 1
                  ltac:(lia) ltac:(lia))).
Defined.

(** [evaluateBoard_within_sentinels] on [midgameBoard]. *)
Lemma evaluateBoard_within_sentinels_witness :
  0 <= 3 <= 15 /\
  - EVAL_MAX <= evaluateBoard 3 3 3 midgameBoard <= EVAL_MAX.
Proof.
  split; [lia|].
  exact (proj1 (proj2 (proj1 (evaluateBoard_within_sentinels 3 3 3 midgameBoard
                                ltac:(lia) ltac:(lia))))).
Defined.

(** [basicSolve_fourth_loop_redundant] on [midgameBoard]. *)
Lemma basicSolve_fourth_loop_redundant_witness :
  1 <= 3 /\
  basicSolve 3 3 3 midgameBoard 0 = basicSolve_without_fourth 3 3 3 midgameBoard 0 /\
  exists r, basicSolve 3 3 3 midgameBoard 0 = Some r.
Proof.
  split; [lia|].
  destruct (basicSolve_fourth_loop_redundant 3 3 3 midgameBoard 0) as (_ & _ & E & T).
  split; [exact E | exact (T ltac:(lia) ltac:(lia))].
Defined.

(** [nextPosition_enumerates] on the blank 2 by 2 board: the four cells in
    scan order, then exhaustion. *)
Lemma nextPosition_enumerates_witness :
  1 <= 2 /\
  allPositions 2 2 emptyBoard 0 = Some [(0, 0); (1, 0); (0, 1); (1, 1)] /\
  nextPosition 2 2 emptyBoard (1, 1) = Some (false, (1, 1)).
Proof.
  split; [lia|].
  destruct (nextPosition_enumerates 2 2 emptyBoard 0 ltac:(lia) ltac:(lia))
    as (E & _ & _ & _ & L).
  split; [exact E | exact L].
Defined.

(** [solveBoard_cascade] on [midgameBoard]. *)
Lemma solveBoard_cascade_witness :
  1 <= 3 <= 15 /\
  (exists x y, inRegion 3 3 x y /\ midgameBoard x y = PLAYER_NONE) /\
  exists st x' y',
    solveBoard 3 3 3 midgameBoard 0 = Some (Some (st, (x', y'))) /\
    inRegion 3 3 x' y' /\ midgameBoard x' y' = PLAYER_NONE.
Proof.
  split; [lia|].
  assert (H : exists x y, inRegion 3 3 x y /\ midgameBoard x y = PLAYER_NONE).
  { exists 2, 2. unfold inRegion. split; [lia | reflexivity]. }
  split; [exact H|].
  exact (proj1 (solveBoard_cascade 3 3 3 midgameBoard 0 ltac:(lia) ltac:(lia)) H).
Defined.

(** ** Runs of the solver *)

(** Our stones on (0,0) and (1,1) of a 3 by 3 board, K = 3: the tactical
    solver completes the diagonal at (2,2). *)
Example basicSolve_completes_diagonal :
  basicSolve 3 3 3 (boardOf [[1; 0; 0]; [0; 1; 0]; [0; 0; 0]]) 0 = Some (1, (2, 2)).
Proof. reflexivity. Qed.

(** Their stones on (0,0) and (1,0), no win for us: the solver blocks at
    (2,0). *)
Example basicSolve_blocks_row :
  basicSolve 3 3 3 (boardOf [[2; 0; 0]; [2; 0; 0]; [0; 1; 0]]) 0 = Some (1, (2, 0)).
Proof. reflexivity. Qed.

(** A full board: nothing is posted. *)
Example solveBoard_gives_up : solveBoard 2 2 3 fullBoard 0 = Some None.
Proof. reflexivity. Qed.

(** The all-ours 15 by 15 board with K = 1 reaches EVAL_MAX. *)
Example evaluateBoard_reaches_max : evaluateBoard 15 15 1 (fun _ _ => PLAYER_US) = EVAL_MAX.
Proof. vm_compute. reflexivity. Qed.

(** * The depth controller and its budget *)

Lemma fallingProduct_nonneg n k : Z.of_nat k <= n -> 0 <= fallingProduct n k.
Proof.
  induction k as [|k IH]; intros H; cbn [fallingProduct]; [lia|].
  apply Z.mul_nonneg_nonneg; [apply IH|]; lia.
Qed.

(** The loop over the integers: [j] rounds have passed their two tests. *)
Lemma calculateDepth_loop_budget n budget : 0 <= n -> forall rounds j,
  (rounds + j = 19)%nat ->
  (forall j', (j' < j)%nat -> Z.of_nat j' < n /\ fallingProduct n j' < budget) ->
  let d := calculateDepth_loop (fun z => z) rounds (Z.of_nat j + 1)
             (n - Z.of_nat j) (fallingProduct n j) budget in
  (forall j', (j' < 19)%nat -> Z.of_nat j' < d ->
              Z.of_nat j' < n /\ fallingProduct n j' < budget) /\
  (d <= 18 -> 0 <= d /\ (d = n \/ budget <= fallingProduct n (Z.to_nat d))) /\
  (18 < d -> d = 20).
Proof.
  intros Hn. induction rounds as [|rounds IH]; intros j Hj Hpast; cbn [calculateDepth_loop].
  - cbv zeta. split; [|split]; [|lia|reflexivity].
    intros j' Hj' _. apply Hpast. lia.
  - destruct (Z.eqb_spec (n - Z.of_nat j) 0) as [Hzero | Hopen].
    { cbv zeta. replace (Z.of_nat j + 1 - 1) with (Z.of_nat j) by lia.
      split; [|split]; [| |lia].
      - intros j' _ Hlt. apply Hpast. lia.
      - intros _. split; [lia|]. left. lia. }
    destruct (Z.geb_spec (fallingProduct n j) budget) as [Hfull | Hless].
    { cbv zeta. replace (Z.of_nat j + 1 - 1) with (Z.of_nat j) by lia.
      split; [|split]; [| |lia].
      - intros j' _ Hlt. apply Hpast. lia.
      - intros _. split; [lia|]. right. now rewrite Nat2Z.id. }
    replace (Z.of_nat j + 1 + 1) with (Z.of_nat (S j) + 1) by lia.
    replace (n - Z.of_nat j - 1) with (n - Z.of_nat (S j)) by lia.
    change (fallingProduct n j * (n - Z.of_nat (S j))) with (fallingProduct n (S j)).
    destruct (Z.lt_ge_cases (Z.of_nat j) n) as [Hjn | Hjn].
    + apply IH; [lia|]. intros j' Hj'.
      destruct (Nat.eq_dec j' j) as [-> | Hne]; [now split | apply Hpast; lia].
    + (* more rounds than blank cells: not reached for n >= 0 *)
      apply IH; [lia|]. intros j' Hj'.
      destruct (Nat.eq_dec j' j) as [-> | Hne]; [|apply Hpast; lia].
      exfalso. destruct j as [|j]; [lia|]. destruct (Hpast j ltac:(lia)). lia.
Qed.

(** Below the budget the product fits an [int]. *)
Lemma calculateDepth_loop_no_wrap n budget :
  n * budget <= 2147483647 -> n <= 2147483647 ->
  forall rounds i openNodes searched,
    0 <= openNodes <= n -> 0 <= searched ->
    calculateDepth_loop to_int rounds i openNodes searched budget =
    calculateDepth_loop (fun z => z) rounds i openNodes searched budget.
Proof.
  intros Hfit Hn. induction rounds as [|rounds IH]; intros i o s Ho Hs;
    cbn [calculateDepth_loop]; [reflexivity|].
  destruct (Z.eqb_spec o 0) as [|Hopen]; [reflexivity|].
  destruct (Z.geb_spec s budget) as [|Hless]; [reflexivity|].
  cbv zeta. rewrite (to_int_small (o - 1)) by lia.
  assert (Hprod : 0 <= s * (o - 1) <= 2147483647) by nia.
  rewrite (to_int_small (s * (o - 1))) by lia.
  apply IH; lia.
Qed.

(** X13. The contract of [calculateDepth] for n >= 0 blank cells, as long
    as n times the budget fits an [int] (in [main]: at most 225 cells, budget
    800000).  No product wraps around.  Every ply below the returned depth d
    had a blank cell left and a node count n (n - 1) ... below the budget.
    A depth d <= 18 is returned because the cells ran out (d = n) or because
    the node count of d + 1 plies reached the budget; otherwise d is 20. *)
Theorem calculateDepth_budget n budget :
  0 <= n -> n * budget <= 2147483647 -> n <= 2147483647 ->
  let d := calculateDepth n budget in
  d = calculateDepth_ideal n budget /\
  (forall j, (j < 19)%nat -> Z.of_nat j < d ->
             Z.of_nat j < n /\ fallingProduct n j < budget) /\
  (d <= 18 -> 0 <= d /\ (d = n \/ budget <= fallingProduct n (Z.to_nat d))) /\
  (18 < d -> d = 20).
Proof.
  intros Hn Hfit Hint. cbv zeta.
  assert (E : calculateDepth n budget = calculateDepth_ideal n budget).
  { unfold calculateDepth, calculateDepth_ideal, calculateDepth_gen.
    apply (calculateDepth_loop_no_wrap n budget); lia. }
  split; [exact E|]. rewrite E. unfold calculateDepth_ideal, calculateDepth_gen.
  pose proof (calculateDepth_loop_budget n budget Hn 19 0 eq_refl) as H.
  cbn [Z.of_nat fallingProduct] in H. rewrite Z.sub_0_r in H.
  apply H. intros j' Hj'. lia.
Qed.

(** The depth [main] asks for, by the number of blank cells. *)
Lemma calculateDepth_of_main n :
  0 <= n <= 225 ->
  let d := calculateDepth n MAX_MINIMAX_SEARCH_NODES in
  (n <= 9 -> d = n) /\ (10 <= n -> 2 <= d <= 7).
Proof.
  intros Hn.
  assert (H : forallb (fun n => let d := calculateDepth n MAX_MINIMAX_SEARCH_NODES in
                                 (if n <=? 9 then d =? n else true) &&
                                 (if 10 <=? n then (2 <=? d) && (d <=? 7) else true))
                      (range 0 226) = true) by (vm_compute; reflexivity).
  rewrite forallb_forall in H. specialize (H n ltac:(apply in_range; lia)).
  cbv zeta in *. apply andb_prop in H as [H1 H2].
  split; intros Hc.
  - destruct (Z.leb_spec n 9); lia.
  - destruct (Z.leb_spec 10 n); lia.
Qed.

(** X14. The depth [main] hands to [minimaxMove] on a board of at most 15
    by 15 cells: with at most 9 blank cells it is their number, so the search
    runs to the end of the game; with 10 or more it is between 2 and 7. *)
Theorem main_search_depth M N b :
  1 <= M <= 15 -> 1 <= N <= 15 ->
  let n := countEmpty M N b in
  let d := calculateDepth n MAX_MINIMAX_SEARCH_NODES in
  0 <= n <= M * N /\ (n <= 9 -> d = n) /\ (10 <= n -> 2 <= d <= 7).
Proof.
  intros HM HN. cbv zeta.
  assert (Hn : 0 <= countEmpty M N b <= M * N).
  { rewrite countEmpty_length.
    pose proof (length_emptyCells M N b ltac:(lia) ltac:(lia)) as H.
    unfold scanFuel in H. lia. }
  split; [exact Hn|]. apply calculateDepth_of_main. nia.
Qed.

(** * The loader *)

Lemma strncmp_prefix data : forall lit,
  Forall (fun c => c <> zero) data ->
  Loader.strncmp data lit = true <-> exists rest, lit = data ++ rest.
Proof.
  induction data as [|c1 data IH]; intros lit Hnz; cbn [Loader.strncmp].
  - split; [intros _; now exists lit | reflexivity].
  - apply Forall_cons_iff in Hnz as [Hc Hnz].
    destruct lit as [|c2 lit].
    + destruct (Ascii.eqb_spec c1 zero); [contradiction|].
      split; [discriminate | intros (rest & E); discriminate E].
    + destruct (Ascii.eqb_spec c1 c2) as [<- | Hne].
      * destruct (Ascii.eqb_spec c1 zero); [contradiction|].
        rewrite (IH lit Hnz). split; intros (rest & E); exists rest.
        -- now rewrite E.
        -- cbn [app] in E. now injection E.
      * split; [discriminate|]. intros (rest & E). cbn [app] in E. congruence.
Qed.

Lemma prefix_of_one (c : ascii) data :
  (exists rest, [c] = data ++ rest) <-> data = [] \/ data = [c].
Proof.
  split.
  - intros (rest & E). destruct data as [|c' [|c'' data]]; cbn [app] in E.
    + now left.
    + right. congruence.
    + discriminate.
  - intros [-> | ->]; [now exists [c] | now exists []].
Qed.

Lemma nth_snoc_other {A} (l : list A) a d n :
  n <> length l -> nth n (l ++ [a]) d = nth n l d.
Proof.
  intros Hn. destruct (Nat.lt_ge_cases n (length l)) as [Hlt | Hge].
  - now apply app_nth1.
  - rewrite (nth_overflow l) by lia.
    apply nth_overflow. rewrite length_app. cbn [length]. lia.
Qed.

Lemma nth_snoc_same {A} (l : list A) a d : nth (length l) (l ++ [a]) d = a.
Proof. rewrite app_nth2 by lia. now rewrite Nat.sub_diag. Qed.

(** A further column that is still empty shows no cell. *)
Lemma boardOf_snoc_nil cols i j : boardOf (cols ++ [[]]) i j = boardOf cols i j.
Proof.
  unfold boardOf. destruct ((i <? 0) || (j <? 0)); [reflexivity|].
  destruct (Nat.eq_dec (Z.to_nat i) (length cols)) as [E | E].
  - rewrite E, nth_snoc_same, (nth_overflow cols) by lia. reflexivity.
  - now rewrite nth_snoc_other.
Qed.

(** The store of one cell at the end of the last column. *)
Lemma boardOf_snoc_cell (B : board_t) cols col c :
  (forall i j, B i j = boardOf (cols ++ [col]) i j) ->
  forall i j,
    copyWithMove B c (Z.of_nat (length cols)) (Z.of_nat (length col)) i j
    = boardOf (cols ++ [col ++ [c]]) i j.
Proof.
  intros HB i j. unfold copyWithMove.
  destruct (Z.eqb_spec i (Z.of_nat (length cols))) as [Ei | Ei];
    [destruct (Z.eqb_spec j (Z.of_nat (length col))) as [Ej | Ej]|]; cbn [andb].
  - unfold boardOf. subst i j.
    destruct (Z.ltb_spec (Z.of_nat (length cols)) 0); [lia|].
    destruct (Z.ltb_spec (Z.of_nat (length col)) 0); [lia|]. cbn [orb].
    now rewrite !Nat2Z.id, !nth_snoc_same.
  - rewrite HB. unfold boardOf. destruct ((i <? 0) || (j <? 0)) eqn:E; [reflexivity|].
    apply orb_false_elim in E as [_ Hj]. subst i. rewrite Nat2Z.id, !nth_snoc_same.
    rewrite nth_snoc_other; [reflexivity | lia].
  - rewrite HB. unfold boardOf. destruct ((i <? 0) || (j <? 0)) eqn:E; [reflexivity|].
    apply orb_false_elim in E as [Hi _].
    rewrite !(nth_snoc_other cols) by lia. reflexivity.
Qed.

Lemma feed_app atoms1 : forall st atoms2,
  Loader.feed st (atoms1 ++ atoms2) =
  (st' <- Loader.feed st atoms1 ;; Loader.feed st' atoms2).
Proof.
  induction atoms1 as [|a atoms1 IH]; intros st atoms2; cbn [app Loader.feed].
  - reflexivity.
  - destruct (Loader.json_board_callback st a); [apply IH | reflexivity].
Qed.

(** The integers of one inner array, [pre] being those already stored. *)
Lemma feed_ints done : forall col pre st,
  Loader.lastParam st = 3 ->
  Loader.x st = Z.of_nat (length done) -> Loader.y st = Z.of_nat (length pre) ->
  (length done < 15)%nat -> (length pre + length col <= 16)%nat ->
  Forall Loader.wire col ->
  (forall i j, Loader.board st i j
               = boardOf (map (map Loader.cellOf) (done ++ [pre])) i j) ->
  exists st',
    Loader.feed st (map Loader.JSON_INT col) = Some st' /\
    Loader.lastParam st' = 3 /\ Loader.x st' = Loader.x st /\
    Loader.y st' = Z.of_nat (length (pre ++ col)) /\
    Loader.M st' = Loader.M st /\ Loader.N st' = Loader.N st /\
    Loader.K st' = Loader.K st /\
    forall i j, Loader.board st' i j
                = boardOf (map (map Loader.cellOf) (done ++ [pre ++ col])) i j.
Proof.
  induction col as [|v col IH]; intros pre st Hlp Hx Hy Hdone Hlen Hwire HB.
  - exists st. rewrite app_nil_r. cbn [map Loader.feed]. repeat split; trivial.
  - apply Forall_cons_iff in Hwire as [Hv Hwire]. cbn [length] in Hlen.
    destruct st as [lp x y m n k B]. cbn [Loader.lastParam Loader.x Loader.y Loader.M
      Loader.N Loader.K Loader.board] in *. subst lp x y.
    assert (Hin : Loader.inArray (Z.of_nat (length done)) (Z.of_nat (length pre)) = true).
    { unfold Loader.inArray. lia. }
    assert (Hstep : Loader.json_board_callback
                      (Loader.mkState 3 (Z.of_nat (length done)) (Z.of_nat (length pre))
                                      m n k B) (Loader.JSON_INT v)
                    = Some (Loader.mkState 3 (Z.of_nat (length done))
                              (Z.of_nat (length (pre ++ [v]))) m n k
                              (copyWithMove B (Loader.cellOf v) (Z.of_nat (length done))
                                            (Z.of_nat (length pre))))).
    { rewrite length_app, Nat2Z.inj_add. cbn [length].
      unfold Loader.wire in Hv. unfold Loader.cellOf.
      destruct Hv as [-> | [-> | ->]]; unfold Loader.json_board_callback;
        [change (to_int (-1)) with (-1) | change (to_int 0) with 0 | change (to_int 1) with 1];
        cbn -[to_int Z.add Z.of_nat Loader.inArray copyWithMove length];
        unfold Loader.store;
        cbn [Loader.lastParam Loader.x Loader.y Loader.M Loader.N Loader.K Loader.board];
        rewrite Hin;
        cbn [Loader.lastParam Loader.x Loader.y Loader.M Loader.N Loader.K Loader.board];
        rewrite (to_int_small (Z.of_nat (length pre) + 1)) by lia; reflexivity. }
    cbn [map Loader.feed]. rewrite Hstep.
    match type of Hstep with
    | _ = Some ?s =>
        destruct (IH (pre ++ [v]) s eq_refl eq_refl eq_refl Hdone) as (st' & E & H);
          [rewrite length_app; cbn [length]; lia | exact Hwire | |]
    end.
    + cbn [Loader.board]. intros i j. rewrite map_app. cbn [map]. rewrite map_app.
      cbn [map]. rewrite <- (length_map (map Loader.cellOf) done).
      rewrite <- (length_map Loader.cellOf pre).
      apply boardOf_snoc_cell. intros i' j'. rewrite HB, map_app. reflexivity.
    + exists st'. rewrite <- app_assoc in H. cbn [app] in H. split; [exact E | exact H].
Qed.

(** The inner arrays, [done] being the columns already stored. *)
Lemma feed_arrays : forall cols done st,
  Loader.lastParam st = 3 ->
  Loader.x st = Z.of_nat (length done) -> Loader.y st = 0 ->
  (length done + length cols <= 15)%nat ->
  Forall (fun col => (length col <= 16)%nat /\ Forall Loader.wire col) cols ->
  (forall i j, Loader.board st i j = boardOf (map (map Loader.cellOf) done) i j) ->
  exists st',
    Loader.feed st (concat (map Loader.arrayAtoms cols)) = Some st' /\
    Loader.lastParam st' = 3 /\ Loader.x st' = Z.of_nat (length (done ++ cols)) /\
    Loader.y st' = 0 /\
    Loader.M st' = Loader.M st /\ Loader.N st' = Loader.N st /\
    Loader.K st' = Loader.K st /\
    forall i j, Loader.board st' i j
                = boardOf (map (map Loader.cellOf) (done ++ cols)) i j.
Proof.
  induction cols as [|col cols IH]; intros done st Hlp Hx Hy Hlen Hcols HB.
  - exists st. rewrite app_nil_r. cbn [map concat Loader.feed]. repeat split; trivial.
  - apply Forall_cons_iff in Hcols as [[Hcol Hwire] Hcols]. cbn [length] in Hlen.
    cbn [map concat]. unfold Loader.arrayAtoms at 1. cbn [app Loader.feed].
    cbn [Loader.json_board_callback]. rewrite <- app_assoc, feed_app.
    destruct (feed_ints done col [] st Hlp Hx Hy) as (st1 & -> & Hlp1 & Hx1 & Hy1 & HM & HN & HK & HB1);
      [lia | cbn [length]; lia | exact Hwire | |].
    { intros i j. rewrite HB, map_app. cbn [map]. now rewrite boardOf_snoc_nil. }
    cbn [app Loader.feed Loader.json_board_callback].
    destruct (IH (done ++ [col])
                (Loader.mkState (Loader.lastParam st1) (to_int (Loader.x st1 + 1)) 0
                   (Loader.M st1) (Loader.N st1) (Loader.K st1) (Loader.board st1)))
      as (st' & E & H); cbn [Loader.lastParam Loader.x Loader.y Loader.M Loader.N Loader.K
                             Loader.board]; trivial.
    + rewrite Hx1, Hx, length_app. cbn [length]. rewrite to_int_small; lia.
    + rewrite length_app. cbn [length]. lia.
    + exists st'. rewrite <- app_assoc in H. cbn [app] in H.
      rewrite <- HM, <- HN, <- HK. split; [exact E | exact H].
Qed.

(** X16. The board of a document reaches the array column by column: fed
    the key [board], an array of at most 15 arrays of at most 16 integers,
    each -1, 0 or 1, and the end of the object, the callback stores the j-th
    integer of the i-th inner array, plus one, in [board[i][j]] (so -1, 0, 1
    become blank, ours, theirs), leaves the cells beyond them blank, leaves
    M, N and K alone, and has its statics back at -1, 0, 0 for the next
    document. *)
Theorem json_board_callback_loads_board st cols :
  Loader.x st = 0 -> Loader.y st = 0 ->
  (forall i j, Loader.board st i j = 0) ->
  (length cols <= 15)%nat ->
  Forall (fun col => (length col <= 16)%nat /\ Forall Loader.wire col) cols ->
  exists st',
    Loader.feed st
      ([Loader.JSON_KEY ["b"; "o"; "a"; "r"; "d"]%char; Loader.JSON_ARRAY_BEGIN]
       ++ concat (map Loader.arrayAtoms cols)
       ++ [Loader.JSON_ARRAY_END; Loader.JSON_OBJECT_END]) = Some st' /\
    (forall i j, Loader.board st' i j = boardOf (map (map Loader.cellOf) cols) i j) /\
    Loader.M st' = Loader.M st /\ Loader.N st' = Loader.N st /\
    Loader.K st' = Loader.K st /\
    Loader.lastParam st' = -1 /\ Loader.x st' = 0 /\ Loader.y st' = 0.
Proof.
  intros Hx Hy Hblank Hlen Hcols.
  cbn [app Loader.feed Loader.json_board_callback Loader.strncmp].
  change (Loader.strncmp _ _) with false. cbv iota. cbv zeta.
  change (Ascii.eqb "b" "m") with false.
  change (Ascii.eqb "b" "n") with false.
  change (Ascii.eqb "b" "k") with false. cbv iota.
  match goal with
  | |- context [Loader.feed ?s (concat _ ++ _)] =>
      destruct (feed_arrays cols [] s) as (st1 & E & Hlp & Hx1 & Hy1 & HM & HN & HK & HB)
  end; cbn [Loader.lastParam Loader.x Loader.y Loader.M Loader.N Loader.K Loader.board
            length]; trivial.
  { intros i j. rewrite Hblank. unfold boardOf. cbn [map].
    destruct ((i <? 0) || (j <? 0)); [reflexivity|].
    destruct (Z.to_nat i); destruct (Z.to_nat j); reflexivity. }
  rewrite feed_app, E. cbn [Loader.feed Loader.json_board_callback].
  eexists. split; [reflexivity|].
  cbn [Loader.lastParam Loader.x Loader.y Loader.M Loader.N Loader.K Loader.board] in *.
  cbn [app] in HB. repeat split; trivial.
Qed.

(** X17. The keys are told apart by [strncmp] over the length of the key,
    so a key selects a parameter when it is a prefix of its name: the empty
    key and [m] select M, [n] selects N, [k] selects K, every other prefix of
    [board] selects the board, and any other key selects nothing.  An integer
    that follows is stored in the selected one of M, N, K. *)
Theorem json_board_callback_keys st data :
  Forall (fun c => c <> zero) data ->
  exists p,
    Loader.json_board_callback st (Loader.JSON_KEY data)
    = Some (Loader.mkState p (Loader.x st) (Loader.y st) (Loader.M st) (Loader.N st)
                           (Loader.K st) (Loader.board st)) /\
    (p = 0 <-> data = [] \/ data = ["m"%char]) /\
    (p = 1 <-> data = ["n"%char]) /\
    (p = 2 <-> data = ["k"%char]) /\
    (p = 3 <-> data <> [] /\ exists rest, ["b"; "o"; "a"; "r"; "d"]%char = data ++ rest) /\
    (p = 0 \/ p = 1 \/ p = 2 \/ p = 3 \/ p = -1) /\
    forall v,
      p <> 3 ->
      Loader.json_board_callback
        (Loader.mkState p (Loader.x st) (Loader.y st) (Loader.M st) (Loader.N st)
                        (Loader.K st) (Loader.board st)) (Loader.JSON_INT v)
      = Some (Loader.mkState p (Loader.x st) (Loader.y st)
                (if p =? 0 then v else Loader.M st)
                (if p =? 1 then v else Loader.N st)
                (if p =? 2 then v else Loader.K st) (Loader.board st)).
Proof.
  intros Hnz. eexists. split; [reflexivity|]. cbv zeta.
  pose proof (strncmp_prefix data ["m"%char] Hnz) as Hm. rewrite prefix_of_one in Hm.
  pose proof (strncmp_prefix data ["n"%char] Hnz) as Hn. rewrite prefix_of_one in Hn.
  pose proof (strncmp_prefix data ["k"%char] Hnz) as Hk. rewrite prefix_of_one in Hk.
  pose proof (strncmp_prefix data ["b"; "o"; "a"; "r"; "d"]%char Hnz) as Hb.
  destruct (Loader.strncmp data ["m"%char]).
  { destruct (proj1 Hm eq_refl) as [-> | ->];
      repeat split; try discriminate; try tauto; try (intros [_ (rest & E)]; discriminate E);
      try (intros [E | E]; discriminate E); intros [[] _]. }
  assert (Hne : data <> []) by (intros ->; destruct Hm as [_ Hm]; discriminate Hm; now left).
  destruct (Loader.strncmp data ["n"%char]).
  { destruct (proj1 Hn eq_refl) as [-> | ->]; [contradiction|].
    repeat split; try discriminate; try tauto; try (intros [_ (rest & E)]; discriminate E);
      intros [E | E]; discriminate E. }
  destruct (Loader.strncmp data ["k"%char]).
  { destruct (proj1 Hk eq_refl) as [-> | ->]; [contradiction|].
    repeat split; try discriminate; try tauto; try (intros [_ (rest & E)]; discriminate E);
      intros [E | E]; discriminate E. }
  destruct (Loader.strncmp data ["b"; "o"; "a"; "r"; "d"]%char).
  - repeat split; try discriminate; try tauto;
      try (intros E; exfalso; destruct Hm as [_ Hm]; discriminate Hm; tauto);
      try (intros E; exfalso; destruct Hn as [_ Hn]; discriminate Hn; tauto);
      try (intros E; exfalso; destruct Hk as [_ Hk]; discriminate Hk; tauto).
  - repeat split; try discriminate; try tauto;
      try (intros E; exfalso; destruct Hm as [_ Hm]; discriminate Hm; tauto);
      try (intros E; exfalso; destruct Hn as [_ Hn]; discriminate Hn; tauto);
      try (intros E; exfalso; destruct Hk as [_ Hk]; discriminate Hk; tauto);
      try (intros [_ E]; destruct Hb as [_ Hb]; discriminate Hb; exact E).
Qed.







(** * The requests of the client *)

Lemma string_length_append (s1 s2 : String.string) :
  String.length (String.append s1 s2) = (String.length s1 + String.length s2)%nat.
Proof.
  induction s1 as [|c s1 IH]; cbn [String.append String.length]; [reflexivity|].
  now rewrite IH.
Qed.

Lemma li_short z : 0 <= z < 15 -> (String.length (Client.li z) <= 2)%nat.
Proof.
  intros Hz. assert (H : In z (range 0 15)) by (apply in_range; lia).
  vm_compute in H.
  repeat (destruct H as [<- | H]; [vm_compute; lia|]). contradiction.
Qed.

(** X21. No [sprintf] of the client writes past its buffer.  The two
    texts of [setName], the address of [postMove] and the address of
    [loadBoard] fill their buffers to the last byte.  The options of
    [postMove] fit exactly when the two coordinates take at most four
    characters together, which holds for every cell of a board of at most 15
    by 15 cells. *)
Theorem client_buffers_suffice url key name :
  Client.written (Client.setName_options name key) = Client.setName_options_size name key /\
  Client.written (Client.setName_finalUrl url) = Client.setName_finalUrl_size url /\
  Client.written (Client.postMove_finalUrl url) = Client.postMove_finalUrl_size url /\
  Client.written (Client.loadBoard_finalUrl url key)
  = Client.loadBoard_finalUrl_size url key /\
  (forall x y,
     (Client.written (Client.postMove_options key x y)
      <= Client.postMove_options_size key)%nat <->
     (String.length (Client.li x) + String.length (Client.li y) <= 4)%nat) /\
  (forall x y, 0 <= x < 15 -> 0 <= y < 15 ->
     (Client.written (Client.postMove_options key x y)
      <= Client.postMove_options_size key)%nat).
Proof.
  assert (Hopt : forall x y,
            Client.written (Client.postMove_options key x y)
            = (String.length key + String.length (Client.li x)
               + String.length (Client.li y) + 11)%nat).
  { intros x y. unfold Client.written, Client.postMove_options.
    rewrite !string_length_append. cbn [String.length]. lia. }
  unfold Client.setName_options, Client.setName_options_size, Client.setName_finalUrl,
    Client.setName_finalUrl_size, Client.postMove_finalUrl, Client.postMove_finalUrl_size,
    Client.loadBoard_finalUrl, Client.loadBoard_finalUrl_size, Client.postMove_options_size.
  repeat split; try (unfold Client.written; rewrite !string_length_append;
                     cbn [String.length]; lia).
  - rewrite Hopt. lia.
  - rewrite Hopt. lia.
  - intros x y Hx Hy. rewrite Hopt.
    pose proof (li_short x Hx). pose proof (li_short y Hy). lia.
Qed.

(** * The further properties at concrete inputs *)

Lemma checkWin_sound_witness :
  1 <= 3 /\ exists x y, inRegion 3 3 x y /\ midgameBoard x y = PLAYER_NONE.
Proof.
  split; [lia|].
  destruct (checkWin_sound 3 3 3 midgameBoard ltac:(lia)) as (_ & _ & _ & _ & H).
  destruct (H eq_refl) as (_ & _ & E). exact E.
Defined.

Lemma move_keeps_runs_witness :
  midgameBoard 2 2 = PLAYER_NONE /\
  (hasRun 3 3 3 (copyWithMove midgameBoard PLAYER_US 2 2) PLAYER_THEM <->
   hasRun 3 3 3 midgameBoard PLAYER_THEM).
Proof.
  split; [reflexivity|].
  exact (proj1 (move_keeps_runs 3 3 3 midgameBoard 2 2 eq_refl)).
Defined.


Lemma countEmpty_counts_witness :
  inRegion 3 3 2 2 /\ midgameBoard 2 2 = PLAYER_NONE /\
  countEmpty 3 3 (copyWithMove midgameBoard PLAYER_US 2 2) = countEmpty 3 3 midgameBoard - 1.
Proof.
  assert (H : inRegion 3 3 2 2) by (unfold inRegion; lia).
  split; [exact H|]. split; [reflexivity|].
  apply (proj2 (countEmpty_counts 3 3 midgameBoard)); [exact H | reflexivity | discriminate].
Defined.

Lemma nextPosition_from_cell_witness :
  1 <= 3 /\ inRegion 3 3 0 0 /\
  exists c', nextPosition 3 3 midgameBoard (0, 0) = Some (true, c') /\
             midgameBoard (fst c') (snd c') = PLAYER_NONE.
Proof.
  assert (H : inRegion 3 3 0 0) by (unfold inRegion; lia).
  split; [lia|]. split; [exact H|].
  destruct (nextPosition_from_cell 3 3 midgameBoard 0 0 ltac:(lia) ltac:(lia) H)
    as [[E _] | (c' & E & _ & Hb & _)].
  - vm_compute in E. discriminate.
  - exists c'. split; assumption.
Defined.

Lemma basicSolve_win_before_block_witness :
  1 <= 3 /\ firstBlank 3 3 midgameBoard (winsAt 3 3 3 midgameBoard PLAYER_US) (2, 2) /\
  basicSolve 3 3 3 midgameBoard 0 = Some (1, (2, 2)).
Proof.
  assert (H : firstBlank 3 3 midgameBoard (winsAt 3 3 3 midgameBoard PLAYER_US) (2, 2)).
  { split; [vm_compute; tauto|]. split; [reflexivity|].
    intros c' Hin Hb. vm_compute in Hin.
    repeat (destruct Hin as [<- | Hin]; [try reflexivity|]); try contradiction.
    unfold scanBefore in Hb. cbn [fst snd] in Hb. lia. }
  split; [lia|]. split; [exact H|].
  exact (proj1 (basicSolve_win_before_block 3 3 3 midgameBoard 0 ltac:(lia) ltac:(lia)) _ H).
Defined.

Lemma basicSolve_tiers_witness :
  1 <= 3 /\ countWins 3 3 3 midgameBoard PLAYER_US = Some 1 /\
  basicSolve 3 3 3 midgameBoard 0 = Some (1, (2, 2)).
Proof.
  split; [lia|].
  destruct (basicSolve_tiers 3 3 3 midgameBoard 0 ltac:(lia) ltac:(lia)) as (H1 & _ & _ & H2).
  split; [exact (H1 midgameBoard PLAYER_US) | exact H2].
Defined.

Lemma higestScoredMove_first_maximum_witness :
  1 <= 3 <= 15 /\ emptyCells 3 3 midgameBoard <> [] /\
  exists c, higestScoredMove 3 3 3 midgameBoard 0 = Some (true, c) /\
            In c (emptyCells 3 3 midgameBoard).
Proof.
  assert (H : emptyCells 3 3 midgameBoard <> []) by (vm_compute; discriminate).
  split; [lia|]. split; [exact H|].
  destruct (proj2 (higestScoredMove_first_maximum 3 3 3 midgameBoard 0
                     ltac:(lia) ltac:(lia)) H) as (c & E & Hin & _).
  exists c. split; assumption.
Defined.

Lemma backUpMove_first_blank_witness :
  1 <= 3 /\ backUpMove 3 3 midgameBoard 7 = Some (true, (2, 0)).
Proof.
  split; [lia|].
  exact (backUpMove_first_blank 3 3 midgameBoard 7 ltac:(lia) ltac:(lia)).
Defined.

Lemma minimax_score_range_witness :
  1 <= 3 <= 15 /\
  exists v w, minimax 3 3 3 midgameBoard 2 EVAL_N_INF EVAL_INF 1 = Some (v, w) /\
              EVAL_N_INF <= v <= EVAL_INF.
Proof.
  split; [lia|].
  destruct (minimax_score_range 3 3 3 midgameBoard 2 1 ltac:(lia) ltac:(lia))
    as (v & w & E & Hv & _).
  exists v, w. split; assumption.
Defined.

Lemma minimaxMove_moves_witness :
  1 <= 3 <= 15 /\ checkWin 3 3 3 midgameBoard = PLAYER_NONE /\
  exists m, minimaxMove 3 3 3 midgameBoard (-1, 0) 2 = Some (true, m) /\
            In m (emptyCells 3 3 midgameBoard).
Proof.
  split; [lia|]. split; [reflexivity|].
  apply (proj1 (minimaxMove_moves 3 3 3 midgameBoard (-1, 0) 2
                  ltac:(lia) ltac:(lia) ltac:(lia))); [reflexivity | discriminate].
Defined.

Lemma solveBoard_never_falls_back_witness :
  1 <= 3 /\ 1 <= 2 <= 15 /\ emptyCells 2 2 fullBoard = [] /\
  solveBoard 2 2 3 fullBoard 0 = Some None.
Proof.
  split; [lia|]. split; [lia|]. split; [reflexivity|].
  apply (proj1 (solveBoard_never_falls_back 2 2 3 fullBoard 0
                  ltac:(lia) ltac:(lia) ltac:(lia))). reflexivity.
Defined.

Lemma calculateDepth_budget_witness :
  0 <= 10 /\ 10 * 800000 <= 2147483647 /\
  calculateDepth 10 800000 = calculateDepth_ideal 10 800000 /\
  800000 <= fallingProduct 10 7.
Proof.
  split; [lia|]. split; [lia|].
  destruct (calculateDepth_budget 10 800000 ltac:(lia) ltac:(lia) ltac:(lia))
    as (E & _ & H & _).
  split; [exact E|].
  destruct (H ltac:(vm_compute; discriminate)) as [_ [H' | H']].
  - vm_compute in H'. discriminate.
  - exact H'.
Defined.

Lemma main_search_depth_witness :
  1 <= 3 <= 15 /\
  calculateDepth (countEmpty 3 3 midgameBoard) MAX_MINIMAX_SEARCH_NODES
  = countEmpty 3 3 midgameBoard.
Proof.
  split; [lia|].
  apply (proj1 (proj2 (main_search_depth 3 3 midgameBoard ltac:(lia) ltac:(lia)))).
  vm_compute. discriminate.
Defined.

Lemma evaluateBoard_no_wrap_short_lines_witness :
  1 <= 3 /\ 2 < 3 /\ evaluateBoard 2 2 3 fullBoard = pieceScore 2 2 fullBoard.
Proof.
  split; [lia|]. split; [lia|].
  apply (proj2 (evaluateBoard_no_wrap_short_lines 2 2 3 fullBoard)); lia.
Defined.

Lemma json_board_callback_loads_board_witness :
  Forall Loader.wire [0; -1] /\
  exists st',
    Loader.feed (Loader.mkState (-1) 0 0 0 0 0 emptyBoard)
      ([Loader.JSON_KEY ["b"; "o"; "a"; "r"; "d"]%char; Loader.JSON_ARRAY_BEGIN]
       ++ concat (map Loader.arrayAtoms [[0; -1]; [1; 0]])
       ++ [Loader.JSON_ARRAY_END; Loader.JSON_OBJECT_END]) = Some st' /\
    Loader.board st' 0 0 = PLAYER_US /\ Loader.board st' 0 1 = PLAYER_NONE /\
    Loader.board st' 1 0 = PLAYER_THEM /\ Loader.board st' 1 1 = PLAYER_US.
Proof.
  split; [unfold Loader.wire; repeat constructor; lia|].
  destruct (json_board_callback_loads_board
              (Loader.mkState (-1) 0 0 0 0 0 emptyBoard) [[0; -1]; [1; 0]])
    as (st' & E & HB & _); try reflexivity.
  - cbn [length]. lia.
  - unfold Loader.wire. repeat constructor; cbn [length]; lia.
  - exists st'. split; [exact E|]. rewrite !HB. repeat split.
Defined.

Lemma json_board_callback_keys_witness :
  Forall (fun c => c <> zero) ["b"; "o"]%char /\
  Loader.json_board_callback (Loader.mkState (-1) 0 0 0 0 0 emptyBoard)
    (Loader.JSON_KEY ["b"; "o"]%char)
  = Some (Loader.mkState 3 0 0 0 0 0 emptyBoard).
Proof.
  assert (H : Forall (fun c => c <> zero) ["b"; "o"]%char)
    by (repeat constructor; discriminate).
  split; [exact H|].
  destruct (json_board_callback_keys (Loader.mkState (-1) 0 0 0 0 0 emptyBoard) _ H)
    as (p & E & _ & _ & _ & H3 & _).
  assert (Hp : p = 3).
  { apply H3. split; [discriminate|]. now exists ["a"; "r"; "d"]%char. }
  subst p. exact E.
Defined.



Lemma basicSolve_proto_refined_witness :
  1 <= 3 /\
  basicSolve_proto 3 3 3 midgameBoard 0 = Some (1, (2, 2)) /\
  basicSolve 3 3 3 midgameBoard 0 = Some (1, (2, 2)).
Proof.
  split; [lia|].
  apply (proj1 (basicSolve_proto_refined 3 3 3 midgameBoard 0 eq_refl ltac:(lia))).
  reflexivity.
Defined.

Lemma basicSolve_needs_stones_witness :
  1 <= 15 /\
  stoneCount 15 15 (copyWithMove emptyBoard PLAYER_US 0 0) PLAYER_US + 2 < 15 /\
  stoneCount 15 15 (copyWithMove emptyBoard PLAYER_US 0 0) PLAYER_THEM + 2 < 15 /\
  basicSolve_proto 15 15 15 (copyWithMove emptyBoard PLAYER_US 0 0) 0 = Some (0, (14, 14)).
Proof.
  assert (H1 : stoneCount 15 15 (copyWithMove emptyBoard PLAYER_US 0 0) PLAYER_US + 2 < 15)
    by (vm_compute; reflexivity).
  assert (H2 : stoneCount 15 15 (copyWithMove emptyBoard PLAYER_US 0 0) PLAYER_THEM + 2 < 15)
    by (vm_compute; reflexivity).
  split; [lia|]. split; [exact H1|]. split; [exact H2|].
  rewrite (proj2 (basicSolve_needs_stones 15 15 15 (copyWithMove emptyBoard PLAYER_US 0 0) 0
                    ltac:(lia) ltac:(lia) H1 H2) eq_refl).
  vm_compute. reflexivity.
Defined.

Lemma checkWin_degenerate_witness :
  0 <= 0 /\ checkWin 0 3 3 midgameBoard = PLAYER_TIE /\
  checkWin 3 3 0 emptyBoard = PLAYER_US.
Proof.
  split; [lia|]. split.
  - apply (proj1 (checkWin_degenerate 0 3 3 midgameBoard)). left. lia.
  - apply (proj2 (checkWin_degenerate 3 3 0 emptyBoard)); lia.
Defined.
